(** * Verona type inference visitor (src/parser/infer.cc)

    A shallow embedding of the post-order visitor [Infer], of [run] and of
    the validator [WF] / [wellformed].  The subtype solver ([Subtype]), the
    lookup engine ([Lookup]) and a few helper functions live in other files
    of the compiler; they are taken as an interface ([Collaborators]) and
    every statement below holds for all of its implementations. *)

From stdpp Require Import base option list gmap strings.

Set Warnings "-register-all,-clear-no-such-hyp".

(** ** Locations and node kinds *)

(** A [Location] is compared by the text it covers; two interned
    identifiers are equal iff their strings are. *)
Definition Location := string.

Inductive Kind :=
  | KTypeRef | KIsectType | KUnionType | KTupleType | KFunctionType
  | KThrowType | KImm | KMut | KIso | KInferType | KLookupRef
  | KLet | KVar | KFree | KRef | KOftype | KThrow | KAssign | KTuple
  | KSelect | KNew | KObjectLiteral | KMatch | KWhen | KEscapedString
  | KInt | KFloat | KBool | KLambda | KParam | KField | KClass.

Global Instance Kind_eq_dec : EqDecision Kind.
Proof. solve_decision. Defined.

(** ** Types

    [Node<Type>] is a nullable shared pointer: a position the source tests
    for null is an [option Ty].  A [TypeName] is a name with its type
    arguments; a [LookupRef] maps weak references to type parameters (a
    name and an upper bound once locked, [None] when expired) onto the
    chosen arguments, in the iteration order of [subs]. *)
Inductive Ty :=
  | TypeRef (location : Location) (typenames : list (Location * list Ty))
  | IsectType (location : Location) (types : list Ty)
  | UnionType (location : Location) (types : list Ty)
  | TupleType (location : Location) (types : list (option Ty))
  | FunctionType (location : Location) (left right : option Ty)
  | ThrowType (location : Location) (type : Ty)
  | Imm (location : Location)
  | Mut (location : Location)
  | Iso (location : Location)
  | InferType (location : Location)
  | LookupRef (location : Location) (def : Location)
      (subs : list (option (Location * option Ty) * option Ty)).

Definition TypeName : Type := Location * list Ty.
Definition TypeParam : Type := Location * option Ty.
Definition upper (p : TypeParam) : option Ty := p.2.

Definition ty_kind (t : Ty) : Kind :=
  match t with
  | TypeRef _ _ => KTypeRef | IsectType _ _ => KIsectType
  | UnionType _ _ => KUnionType | TupleType _ _ => KTupleType
  | FunctionType _ _ _ => KFunctionType | ThrowType _ _ => KThrowType
  | Imm _ => KImm | Mut _ => KMut | Iso _ => KIso
  | InferType _ => KInferType | LookupRef _ _ _ => KLookupRef
  end.

Definition ty_location (t : Ty) : Location :=
  match t with
  | TypeRef l _ | IsectType l _ | UnionType l _ | TupleType l _
  | FunctionType l _ _ | ThrowType l _ | Imm l | Mut l | Iso l
  | InferType l | LookupRef l _ _ => l
  end.

(** ** Expressions and members

    Children the visitor dereferences without a test are not nullable
    here; [Select]'s [expr] and [args] are tested by [call_type] and are
    options.  The reserved kinds carry an uninterpreted list of children. *)
Inductive Expr :=
  | Let (location : Location)
  | Var (location : Location)
  | Free (location : Location)
  | Ref (location : Location)
  | Oftype (location : Location) (expr : Expr) (type : Ty)
  | Throw (location : Location) (expr : Expr)
  | Assign (location : Location) (left right : Expr)
  | Tuple (location : Location) (seq : list Expr)
  | Select (location : Location) (expr : option Expr)
      (typeref : Location * list TypeName) (args : option Expr)
  | New (location : Location) (children : list Expr)
  | ObjectLiteral (location : Location) (children : list Expr)
  | Match (location : Location) (children : list Expr)
  | When (location : Location) (children : list Expr)
  | EscapedString (location : Location)
  | Int (location : Location)
  | Float (location : Location)
  | Bool (location : Location)
  | Lambda (location : Location) (typeparams : list TypeParam)
      (params : list Expr) (result : Ty) (body : list Expr)
  | Param (location : Location) (type : option Ty) (dflt : option Expr)
  | Field (location : Location) (type : Ty) (init : option Expr)
  | Class (location : Location) (members : list Expr).

Definition kind (e : Expr) : Kind :=
  match e with
  | Let _ => KLet | Var _ => KVar | Free _ => KFree | Ref _ => KRef
  | Oftype _ _ _ => KOftype | Throw _ _ => KThrow | Assign _ _ _ => KAssign
  | Tuple _ _ => KTuple | Select _ _ _ _ => KSelect | New _ _ => KNew
  | ObjectLiteral _ _ => KObjectLiteral | Match _ _ => KMatch
  | When _ _ => KWhen | EscapedString _ => KEscapedString
  | Int _ => KInt | Float _ => KFloat | Bool _ => KBool
  | Lambda _ _ _ _ _ => KLambda | Param _ _ _ => KParam
  | Field _ _ _ => KField | Class _ _ => KClass
  end.

Definition location (e : Expr) : Location :=
  match e with
  | Let l | Var l | Free l | Ref l | Oftype l _ _ | Throw l _
  | Assign l _ _ | Tuple l _ | Select l _ _ _ | New l _
  | ObjectLiteral l _ | Match l _ | When l _ | EscapedString l
  | Int l | Float l | Bool l | Lambda l _ _ _ _ | Param l _ _
  | Field l _ _ | Class l _ => l
  end.

(** ** Locals

    The [Let] and [Var] nodes are shared between the tree and the symbol
    table of their scope; the fields the pass writes through that sharing
    ([type] and [assigned]) are kept in the symbol-table store, and the
    tree keeps the declaration. *)
Record Local := mkLocal {
  l_kind : Kind;
  l_location : Location;
  l_type : option Ty;
  l_assigned : bool
}.

Definition set_assigned (l : Local) : Local :=
  mkLocal (l_kind l) (l_location l) (l_type l) true.

Definition set_type (t : option Ty) (l : Local) : Local :=
  mkLocal (l_kind l) (l_location l) t (l_assigned l).

(** ** Diagnostics

    One constructor per message the visitor writes, with the locations it
    prints; [message] gives the leading text of each ([ExpectedFunction]
    goes on with the name of the kind it found).  The error stream is
    shared with the lookup engine (through the visitor's own [error()]) and
    with the solver, whose messages are kept as they come. *)
Inductive Diag :=
  | FreeNotAssigned (fr def : Location)
  | ReturnNotSubtype (ref result : Location)
  | UsedBeforeAssignment (ref : Location)
  | AlreadyAssigned (right left : Location)
  | CouldntFindFunction (sel : Location)
  | ExpectedFunction (sel : Location) (found : Kind)
  | NoTypeInScope (name : Location) (lit : Location)
  | FieldInitNotSubtype (lambda type : Location).

Definition message (d : Diag) : string :=
  match d with
  | FreeNotAssigned _ _ =>
      "Free variables can't be captured if they haven't been assigned to."
  | ReturnNotSubtype _ _ =>
      "The return value is not a subtype of the result type."
  | UsedBeforeAssignment _ => "Variable used before assignment"
  | AlreadyAssigned _ _ => "This expression can't be assigned"
  | CouldntFindFunction _ => "Couldn't find this function."
  | ExpectedFunction _ _ => "Expected a function but found "
  | NoTypeInScope n _ => "No type " +:+ n +:+ " in scope."
  | FieldInitNotSubtype _ _ =>
      "The field initialiser is not a subtype of the field type."
  end.

Inductive Entry :=
  | Visitor (d : Diag)
  | FromLookup (m : string)
  | FromSolver (m : string).

Definition is_visitor_error (e : Entry) : bool :=
  match e with FromSolver _ => false | _ => true end.

(** ** The pass base

    Modelled from the spec: the members of [Pass<F>] the visitor uses
    (pass.h is not under src/).  [ok] is the verdict read by
    [operator bool]; [out] is the error stream, oldest entry first. *)
Record Pass := mkPass {
  ok : bool;
  out : list Entry
}.

(** ** A state monad with a crash result

    [None] stands for the undefined behaviour of dereferencing a null
    pointer or of a failed [assert]. *)
Definition M (St A : Type) : Type := St → option (A * St).

Definition ret {St A} (a : A) : M St A := λ st, Some (a, st).

Definition bind {St A B} (m : M St A) (k : A → M St B) : M St B :=
  λ st, match m st with
        | Some (a, st') => k a st'
        | None => None
        end.

Definition crash {St A} : M St A := λ _, None.

Definition deref {St A} (p : option A) : M St A :=
  match p with
  | Some a => ret a
  | None => crash
  end.

Definition assert {St} (b : bool) : M St unit :=
  if b then ret tt else crash.

Definition get {St} : M St St := λ st, Some (st, st).

Definition modify {St} (f : St → St) : M St unit := λ st, Some (tt, f st).

Declare Scope pass_scope.
Delimit Scope pass_scope with pass.
Notation "x <- c ;; k" := (bind c (λ x, k))
  (at level 100, c at next level, right associativity) : pass_scope.
Notation "c ;;; k" := (bind c (λ _, k))
  (at level 100, right associativity) : pass_scope.
Open Scope pass_scope.

Definition mapM {St A B} (f : A → M St B) : list A → M St (list B) :=
  fix go l :=
    match l with
    | [] => ret []
    | a :: l' => b <- f a ;; bs <- go l' ;; ret (b :: bs)
    end.

Definition forM_ {St A} (f : A → M St unit) : list A → M St unit :=
  fix go l :=
    match l with
    | [] => ret tt
    | a :: l' => f a ;;; go l'
    end.

Definition whenSome {St A} (f : A → M St unit) (o : option A) : M St unit :=
  match o with
  | Some a => f a
  | None => ret tt
  end.

(** ** The collaborators of the visitor

    [Subtype] (subtype.h), [Lookup] (lookup.h), [receiver_type],
    [dnf::throwtype] and [function_type] are not under src/: they are the
    fields of this interface.  A call to the solver returns its verdict,
    its next state and what it wrote to the error stream;
    [subtype_dynamic] also returns the call type as it leaves it, since
    each candidate it accepts narrows the receiver of the call.  The
    lookup engine reads the solver's bounds and reports through the
    visitor's [error()]; it leaves the reference it is given as it is.
    Neither collaborator writes the locals or the tree. *)
Class Collaborators (S : Type) := {
  subtype_new : S;
  subtype_check : option Ty → option Ty → S → bool * S * list string;
  subtype_dynamic : list Ty → Ty → S → bool * Ty * S * list string;
  subtype_ok : S → bool;
  lookup_typeref :
    option Location → Location * list TypeName → S → option Ty * list string;
  lookup_member : option Ty → TypeName → S → list Ty * list string;
  receiver_type : option Ty → option Ty;
  throwtype : option Ty → option Ty;
  function_type : Expr → option Ty
}.

(** The calls the visitor makes to its collaborators, with their results.
    The history is not program state: it records what was submitted. *)
Inductive Call :=
  | CallSubtype (sub sup : option Ty) (res : bool)
  | CallDynamic (find : list Ty) (call : Ty) (res : bool)
  | CallTyperef (scope : option Location) (tr : Location * list TypeName)
      (res : option Ty)
  | CallMember (receiver : option Ty) (name : TypeName) (res : list Ty).

(** How a call site is resolved.  Modelled from the spec: the annotation
    of a [Select] node ("every call site is annotated as static or dynamic
    dispatch"); infer.cc has no field or node kind for it. *)
Inductive Dispatch := Static | Dynamic.

(** ** The parent stack

    Modelled from the spec: the ancestors of the node being visited,
    nearest first (pass.h is not under src/).  [slot] is the index of the
    field of the ancestor through which the traversal went down; in a tree
    it identifies the child, which is how the pointer comparison
    [asn.left == current<Expr>()] is rendered. *)
Record Frame := mkFrame {
  node : Expr;
  slot : nat
}.

Definition Stack := list Frame.

(** Modelled from the spec: [parent()], the node above the one being
    visited (pass.h is not under src/). *)
Definition parent (stk : Stack) : option Expr :=
  node <$> head stk.

(** Modelled from the spec: [parent<T>()], the nearest enclosing node of
    kind [k] ("the enclosing Assign", "enclosing_lambda"; pass.h is not
    under src/). *)
Definition parent_of (k : Kind) (stk : Stack) : option Expr :=
  node <$> head (filter (λ f, kind (node f) = k) stk).

(** [asn.left == current<Expr>()], for a node whose parent is an [Assign]. *)
Definition is_left_child (stk : Stack) : bool :=
  match stk with
  | f :: _ => bool_decide (slot f = 0)
  | [] => false
  end.

(** Modelled from the spec: the nodes that open a lexical scope (ast.h is
    not under src/). *)
Definition has_symbol_table (e : Expr) : bool :=
  match e with
  | Lambda _ _ _ _ _ | Class _ _ => true
  | _ => false
  end.

(** Modelled from the spec: [symbols()], the nearest ancestor that owns
    a symbol table, named by its location (pass.h is not under src/). *)
Definition symbols (stk : Stack) : option Location :=
  (location ∘ node) <$> head (filter (λ f, has_symbol_table (node f) = true) stk).

Section Infer.
Context {S : Type} `{!Collaborators S}.

(** ** The visitor's state

    [pass] and [subtype] are members of [Infer]; [symtab] holds the
    symbol tables of the scope nodes, as one map keyed by the location of
    the scope node and the name of the local: scopes are told apart by
    their locations, as they are in a tree whose scope nodes have
    distinct locations; [history] is the record of calls.  [annot] is modelled from the spec: the dispatch
    annotation of each call site, keyed by the location of the [Select];
    no statement of infer.cc writes one. *)
Record Infer := mkInfer {
  pass : Pass;
  subtype : S;
  symtab : gmap (Location * Location) Local;
  annot : gmap Location Dispatch;
  history : list Call
}.

Definition name_imm : Location := "imm".
Definition name_bool : Location := "Bool".
Definition name_int : Location := "Integer".
Definition name_float : Location := "Float".
Definition type_imm : Ty := Imm name_imm.

(** A change to the [Pass] base of the visitor. *)
Definition with_pass (f : Pass → Pass) (r : Infer) : Infer :=
  mkInfer (f (pass r)) (subtype r) (symtab r) (annot r) (history r).

(** Modelled from the spec: [Pass::error()] clears the verdict and hands
    out the stream (pass.h is not under src/); the caller then writes
    its message. *)
Definition report (e : Entry) (p : Pass) : Pass :=
  mkPass false (out p ++ [e]).

(** [error() << ...]: the visitor writes the message [d]. *)
Definition error (d : Diag) : M Infer unit :=
  modify (with_pass (report (Visitor d))).

(** The lookup engine writes [ms], each through the [error()] it was
    given at construction (line 29). *)
Definition lookup_reports (ms : list string) (r : Infer) : Infer :=
  foldl (λ r m, with_pass (report (FromLookup m)) r) r ms.

(** The solver writes [ms] to the stream it shares with the visitor;
    the verdict it clears is its own. *)
Definition solver_writes (ms : list string) (p : Pass) : Pass :=
  mkPass (ok p) (out p ++ (FromSolver <$> ms)).

(** [subtype(a, b)] *)
Definition subtype_call (a b : option Ty) : M Infer bool :=
  λ r, let '(res, s, ms) := subtype_check a b (subtype r) in
       Some (res, mkInfer (solver_writes ms (pass r)) s (symtab r)
                    (annot r) (history r ++ [CallSubtype a b res])).

(** [subtype.dynamic(find, call)] *)
Definition dynamic_call (find : list Ty) (call : Ty) : M Infer (bool * Ty) :=
  λ r, let '(res, call', s, ms) := subtype_dynamic find call (subtype r) in
       Some ((res, call'),
             mkInfer (solver_writes ms (pass r)) s (symtab r) (annot r)
               (history r ++ [CallDynamic find call res])).

(** Adds a call to the history. *)
Definition log (c : Call) (r : Infer) : Infer :=
  mkInfer (pass r) (subtype r) (symtab r) (annot r) (history r ++ [c]).

(** [lookup.typeref(symbols(), tr)] *)
Definition typeref_call (stk : Stack) (tr : Location * list TypeName)
  : M Infer (option Ty) :=
  λ r, let '(res, ms) := lookup_typeref (symbols stk) tr (subtype r) in
       Some (res, log (CallTyperef (symbols stk) tr res) (lookup_reports ms r)).

(** [lookup.member(receiver, name)] *)
Definition member_call (receiver : option Ty) (name : TypeName)
  : M Infer (list Ty) :=
  λ r, let '(res, ms) := lookup_member receiver name (subtype r) in
       Some (res, log (CallMember receiver name res) (lookup_reports ms r)).

Definition make_constant_type (stk : Stack) (name : Location)
  : M Infer (option Ty) :=
  let n : TypeName := (name, []) in
  let t := (name, [n]) in
  found <- typeref_call stk t ;;
  match found with
  | None => ret None
  | Some _ => ret (Some (IsectType name [TypeRef name [n]; type_imm]))
  end.

(** [g(name)]: the local of that name in the current scope.  The source
    gets a pointer; the model reads the local and writes it back with
    [update_local]. *)
Definition g (stk : Stack) (name : Location) : M Infer Local :=
  sc <- deref (symbols stk) ;;
  r <- get ;;
  deref (symtab r !! (sc, name)).

(** [g(name)] before the pointer is dereferenced: it is null when the
    scope has no local of that name. *)
Definition g_ptr (stk : Stack) (name : Location) : M Infer (option Local) :=
  sc <- deref (symbols stk) ;;
  r <- get ;;
  ret (symtab r !! (sc, name)).

(** [g(name)->field = ...]: a write through the pointer. *)
Definition update_local (stk : Stack) (name : Location) (f : Local → Local)
  : M Infer unit :=
  sc <- deref (symbols stk) ;;
  l <- g stk name ;;
  modify (λ r, mkInfer (pass r) (subtype r) (<[(sc, name) := f l]> (symtab r))
                 (annot r) (history r)).

Definition lhs (stk : Stack) : M Infer Location :=
  asn <- deref (parent_of KAssign stk) ;;
  match asn with
  | Assign _ l _ => ret (location l)
  | _ => crash
  end.

(** [unpack_type(to, from)], on the [types] vector of [to]. *)
Definition unpack_type (to : list (option Ty)) (from : option Ty)
  : list (option Ty) :=
  match from with
  | None => to
  | Some (TupleType _ types) => to ++ types
  | Some t => to ++ [Some t]
  end.

(** [call_type(left, right)]; the fresh [FunctionType] has the default
    (empty) location. *)
Definition call_type (stk : Stack) (left right : option Expr) : M Infer Ty :=
  fleft <-
    match left, right with
    | Some l, None => lt <- g stk (location l) ;; ret (l_type lt)
    | None, Some r => rt <- g stk (location r) ;; ret (l_type rt)
    | Some l, Some r =>
        ll <- g stk (location l) ;;
        rl <- g stk (location r) ;;
        match l_type ll, l_type rl with
        | Some lt, Some rt =>
            let t := unpack_type (unpack_type [] (Some lt)) (Some rt) in
            ret (Some (TupleType (ty_location lt) t))
        | _, _ => crash
        end
    | None, None => ret None
    end ;;
  name <- lhs stk ;;
  res <- g stk name ;;
  ret (FunctionType "" fleft (l_type res)).

(** [call->left] *)
Definition fn_left (call : Ty) : option Ty :=
  match call with
  | FunctionType _ l _ => l
  | _ => None
  end.

Definition post_Free (stk : Stack) (fr : Location) : M Infer unit :=
  l <- g stk fr ;;
  if negb (l_assigned l)
  then error (FreeNotAssigned fr (l_location l))
  else ret tt.

Definition post_LookupRef
  (subs : list (option TypeParam * option Ty)) : M Infer unit :=
  forM_ (λ '(wparam, arg),
           match wparam with
           | Some param => subtype_call arg (upper param) ;;; ret tt
           | None => ret tt
           end) subs.

(** The last statement of [post(Ref&)]. *)
Definition check_assigned (l : Local) (ref : Location) : M Infer unit :=
  if negb (l_assigned l)
  then error (UsedBeforeAssignment ref)
  else ret tt.

Definition post_Ref (stk : Stack) (ref : Location) : M Infer unit :=
  p <- deref (parent stk) ;;
  if bool_decide (kind p = KOftype) then ret tt
  else
    lp <- g_ptr stk ref ;;
    match p with
    | Assign _ aleft _ =>
        if is_left_child stk then ret tt
        else
          l <- deref lp ;;
          al <- g stk (location aleft) ;;
          subtype_call (l_type l) (l_type al) ;;;
          check_assigned l ref
    | Lambda _ _ _ result _ =>
        l <- deref lp ;;
        res <- subtype_call (l_type l) (Some result) ;;
        (if negb res
         then error (ReturnNotSubtype ref (ty_location result))
         else ret tt) ;;;
        check_assigned l ref
    | _ =>
        l <- deref lp ;;
        check_assigned l ref
    end.

Definition post_Oftype (stk : Stack) (expr : Expr) (type : Ty)
  : M Infer unit :=
  l <- g stk (location expr) ;;
  subtype_call (l_type l) (Some type) ;;; ret tt.

(** [parent<Lambda>()->result] *)
Definition lambda_result (stk : Stack) : M Infer Ty :=
  lam <- deref (parent_of KLambda stk) ;;
  match lam with
  | Lambda _ _ _ result _ => ret result
  | _ => crash
  end.

Definition post_Throw (stk : Stack) (expr : Expr) : M Infer unit :=
  l <- g stk (location expr) ;;
  let t := throwtype (l_type l) in
  result <- lambda_result stk ;;
  subtype_call t (Some result) ;;; ret tt.

Definition post_Assign (stk : Stack) (aleft aright : Expr) : M Infer unit :=
  l <- g stk (location aleft) ;;
  if negb (l_assigned l) || bool_decide (l_kind l = KVar)
  then update_local stk (location aleft) set_assigned
  else error (AlreadyAssigned (location aright) (location aleft)).

Definition post_Tuple (stk : Stack) (loc : Location) (seq : list Expr)
  : M Infer unit :=
  types <- mapM (λ e, l <- g stk (location e) ;; ret (l_type l)) seq ;;
  name <- lhs stk ;;
  update_local stk name (set_type (Some (TupleType loc types))).

Definition post_Select (stk : Stack) (loc : Location) (expr : option Expr)
  (typeref : Location * list TypeName) (args : option Expr) : M Infer unit :=
  call <- call_type stk expr args ;;
  dyn <-
    match fn_left call, typeref.2 with
    | Some cleft, [name] =>
        let receiver := receiver_type (Some cleft) in
        find <- member_call receiver name ;;
        dynamic_call find call
    | _, _ => ret (false, call)
    end ;;
  let '(done, call) := dyn in
  if done : bool then ret tt
  else
    find <- typeref_call stk typeref ;;
    match find with
    | None => error (CouldntFindFunction loc)
    | Some f =>
        if bool_decide (ty_kind f ≠ KLookupRef)
        then error (ExpectedFunction loc (ty_kind f))
        else subtype_call (Some f) (Some call) ;;; ret tt
    end.

Definition post_Int (stk : Stack) (i : Location) : M Infer unit :=
  t <- make_constant_type stk name_int ;;
  match t with
  | None => error (NoTypeInScope name_int i)
  | Some t =>
      name <- lhs stk ;;
      l <- g stk name ;;
      subtype_call (l_type l) (Some t) ;;; ret tt
  end.

Definition post_Float (stk : Stack) (f : Location) : M Infer unit :=
  t <- make_constant_type stk name_float ;;
  match t with
  | None => error (NoTypeInScope name_float f)
  | Some t =>
      name <- lhs stk ;;
      l <- g stk name ;;
      subtype_call (l_type l) (Some t) ;;; ret tt
  end.

Definition post_Bool (stk : Stack) (b : Location) : M Infer unit :=
  t <- make_constant_type stk name_bool ;;
  match t with
  | None => error (NoTypeInScope name_bool b)
  | Some t =>
      name <- lhs stk ;;
      l <- g stk name ;;
      subtype_call (Some t) (l_type l) ;;; ret tt
  end.

Definition post_Lambda (stk : Stack) (lambda : Expr) : M Infer unit :=
  match lambda with
  | Lambda loc typeparams params result _ =>
      p <- deref (parent stk) ;;
      match kind p with
      | KAssign =>
          name <- lhs stk ;;
          l <- g stk name ;;
          subtype_call (function_type lambda) (l_type l) ;;; ret tt
      | KParam =>
          assert (bool_decide (length typeparams = 0)) ;;;
          assert (bool_decide (length params = 0))
      | KField =>
          assert (bool_decide (length typeparams = 0)) ;;;
          assert (bool_decide (length params = 0)) ;;;
          fld <- deref (parent_of KField stk) ;;
          match fld with
          | Field _ type _ =>
              res <- subtype_call (Some result) (Some type) ;;
              if negb res
              then error (FieldInitNotSubtype loc (ty_location type))
              else ret tt
          | _ => crash
          end
      | _ => ret tt
      end
  | _ => crash
  end.

(** The reserved kinds: [post(New&)], [post(ObjectLiteral&)],
    [post(Match&)], [post(When&)] and [post(EscapedString&)] have empty
    bodies. *)
Definition post_reserved : M Infer unit := ret tt.

(** The dispatch of [post] on the kind of the node; a kind without a
    handler falls to the empty default of [AST_PASS]. *)
Definition post (stk : Stack) (e : Expr) : M Infer unit :=
  match e with
  | Free fr => post_Free stk fr
  | Ref ref => post_Ref stk ref
  | Oftype _ expr type => post_Oftype stk expr type
  | Throw _ expr => post_Throw stk expr
  | Assign _ l r => post_Assign stk l r
  | Tuple loc seq => post_Tuple stk loc seq
  | Select loc expr typeref args => post_Select stk loc expr typeref args
  | New _ _ | ObjectLiteral _ _ | Match _ _ | When _ _
  | EscapedString _ => post_reserved
  | Int i => post_Int stk i
  | Float f => post_Float stk f
  | Bool b => post_Bool stk b
  | Lambda _ _ _ _ _ => post_Lambda stk e
  | _ => ret tt
  end.

Definition post_type (t : Ty) : M Infer unit :=
  match t with
  | LookupRef _ _ subs => post_LookupRef subs
  | _ => ret tt
  end.

End Infer.

Global Arguments Infer : clear implicits.

(** ** The traversal

    Modelled from the spec: [Pass<F>::operator<<] (pass.h is not under
    src/).  "Visits every node after its children", with the ancestors on
    a stack; the fields of a node are visited in the order of their
    declaration, and a null field is skipped.  Nothing makes the traversal
    stop early: a handler that reports an error returns normally. *)

Section Traversal.
Context {St : Type}.
Variable on_type : Ty → M St unit.
Variable on_expr : Stack → Expr → M St unit.

(** Modelled from the spec: the traversal of a type node, children
    first (pass.h is not under src/). *)
Fixpoint visit_type (t : Ty) : M St unit :=
  match t with
  | TypeRef _ typenames =>
      forM_ (λ n : Location * list Ty, forM_ visit_type n.2) typenames
  | IsectType _ types | UnionType _ types => forM_ visit_type types
  | TupleType _ types => forM_ (whenSome visit_type) types
  | FunctionType _ l r => whenSome visit_type l ;;; whenSome visit_type r
  | ThrowType _ type => visit_type type
  | Imm _ | Mut _ | Iso _ | InferType _ => ret tt
  | LookupRef _ _ subs =>
      forM_ (λ s : option (Location * option Ty) * option Ty,
               whenSome visit_type s.2) subs
  end ;;;
  on_type t.

(** Modelled from the spec: the traversal of an expression or member,
    children first, each child under a stack that starts with [e]
    (pass.h is not under src/). *)
Fixpoint visit (stk : Stack) (e : Expr) : M St unit :=
  match e with
  | Let _ | Var _ | Free _ | Ref _ | EscapedString _
  | Int _ | Float _ | Bool _ => ret tt
  | Oftype _ expr type =>
      visit (mkFrame e 0 :: stk) expr ;;; visit_type type
  | Throw _ expr => visit (mkFrame e 0 :: stk) expr
  | Assign _ l r =>
      visit (mkFrame e 0 :: stk) l ;;; visit (mkFrame e 1 :: stk) r
  | Tuple _ seq => forM_ (visit (mkFrame e 0 :: stk)) seq
  | Select _ expr typeref args =>
      whenSome (visit (mkFrame e 0 :: stk)) expr ;;;
      visit_type (TypeRef typeref.1 typeref.2) ;;;
      whenSome (visit (mkFrame e 2 :: stk)) args
  | New _ cs | ObjectLiteral _ cs | Match _ cs | When _ cs
  | Class _ cs => forM_ (visit (mkFrame e 0 :: stk)) cs
  | Lambda _ typeparams params result body =>
      forM_ (λ p : TypeParam, whenSome visit_type (upper p)) typeparams ;;;
      forM_ (visit (mkFrame e 1 :: stk)) params ;;;
      visit_type result ;;;
      forM_ (visit (mkFrame e 3 :: stk)) body
  | Param _ type dflt =>
      whenSome visit_type type ;;;
      whenSome (visit (mkFrame e 1 :: stk)) dflt
  | Field _ type init =>
      visit_type type ;;;
      whenSome (visit (mkFrame e 1 :: stk)) init
  end ;;;
  on_expr stk e.
End Traversal.

Section Run.
Context {S : Type} `{!Collaborators S}.

(** A fresh visitor, as [run] sets it up: [Infer r], then
    [r.set_error(out)] and [r.subtype.set_error(out)]; its verdict starts
    true.  The locals and the annotations belong to the tree that is lent
    to the pass. *)
Definition new_Infer (locals : gmap (Location * Location) Local)
  (marks : gmap Location Dispatch) (out : list Entry) : Infer S :=
  mkInfer (mkPass true out) subtype_new locals marks [].

(** [run(ast, out)]: [r << ast], then [return r && r.subtype]. *)
Definition run (ast : Expr) (locals : gmap (Location * Location) Local)
  (marks : gmap Location Dispatch) (out : list Entry)
  : option (bool * Infer S) :=
  match visit post_type post [] ast (new_Infer locals marks out) with
  | Some (_, r) => Some (ok (pass r) && subtype_ok (subtype r), r)
  | None => None
  end.
End Run.

(** ** The validator *)

(** [WF::post(InferType&)]: the report is commented out. *)
Definition WF_post_InferType (infer : Location) : M Pass unit := ret tt.

(** [WF] has no other handler: every other node falls to the empty
    default of [AST_PASS]. *)
Definition WF_post_type (t : Ty) : M Pass unit :=
  match t with
  | InferType infer => WF_post_InferType infer
  | _ => ret tt
  end.

Definition WF_post (stk : Stack) (e : Expr) : M Pass unit := ret tt.

(** [wellformed(ast, out)]: a fresh [WF], [wf.set_error(out)], and
    [return wf << ast]. *)
Definition wellformed (ast : Expr) (out : list Entry) : option (bool * Pass) :=
  match visit WF_post_type WF_post [] ast (mkPass true out) with
  | Some (_, wf) => Some (ok wf, wf)
  | None => None
  end.

(** ** A small instance of the collaborators

    A solver that keeps the list of constraints it accepted and compares
    node kinds, and a lookup engine over a fixed set of names.  It is used
    to run the visitor on concrete trees. *)

Module Sample.

Record Solver := mkSolver {
  accepted : list (option Ty * option Ty);
  consistent : bool
}.

Definition is_infer (t : option Ty) : bool :=
  match t with
  | Some (InferType _) => true
  | _ => false
  end.

Definition same_kind (a b : option Ty) : bool :=
  match a, b with
  | Some x, Some y => bool_decide (ty_kind x = ty_kind y)
  | _, _ => false
  end.

Definition is_resolved (t : option Ty) : bool :=
  match t with
  | Some (LookupRef _ _ _) => true
  | _ => false
  end.

Definition check (a b : option Ty) (s : Solver)
  : bool * Solver * list string :=
  if is_infer a || is_infer b || same_kind a b || is_resolved a
  then (true, mkSolver (accepted s ++ [(a, b)]) (consistent s), [])
  else (false, mkSolver (accepted s) false, ["not a subtype"]).

Definition dynamic (find : list Ty) (call : Ty) (s : Solver)
  : bool * Ty * Solver * list string :=
  match find with
  | [] => (false, call, s, [])
  | m :: _ => (true, call, mkSolver (accepted s ++ [(Some m, Some call)])
                             (consistent s), [])
  end.

(** Scope "main" sees the classes Integer, Float, Bool and C and the
    function f; every other scope sees nothing. *)
Definition typeref (scope : option Location)
  (tr : Location * list TypeName) (s : Solver) : option Ty * list string :=
  match scope, tr.2 with
  | Some "main", [(name, _)] =>
      if bool_decide (name ∈ ["Integer"; "Float"; "Bool"; "f"])
      then (Some (LookupRef name name []), [])
      else if bool_decide (name = "C")
           then (Some (TypeRef name [(name, [])]), [])
           else (None, [])
  | _, _ => (None, [])
  end.

(** Only the selector "m" names a member. *)
Definition member (receiver : option Ty) (name : TypeName) (s : Solver)
  : list Ty * list string :=
  if bool_decide (name.1 = "m")
  then ([LookupRef "m" "m" []], [])
  else ([], []).

Definition receiver (t : option Ty) : option Ty :=
  match t with
  | Some (TupleType _ (first :: _)) => first
  | _ => t
  end.

Definition throws (t : option Ty) : option Ty :=
  (λ x, ThrowType (ty_location x) x) <$> t.

Definition fun_type (e : Expr) : option Ty :=
  match e with
  | Lambda loc _ _ result _ => Some (FunctionType loc None (Some result))
  | _ => None
  end.

#[global] Instance collaborators : Collaborators Solver := {
  subtype_new := mkSolver [] true;
  subtype_check := check;
  subtype_dynamic := dynamic;
  subtype_ok := consistent;
  lookup_typeref := typeref;
  lookup_member := member;
  receiver_type := receiver;
  throwtype := throws;
  function_type := fun_type
}.

(** Locals of the scope "main": [x] and [y] are unassigned [Let]s of
    inferred type, [v] is a [Var], [d] an assigned [Let]. *)
Definition locals : gmap (Location * Location) Local :=
  list_to_map
    [ (("main", "x"), mkLocal KLet "x" (Some (InferType "x")) false);
      (("main", "y"), mkLocal KLet "y" (Some (InferType "y")) false);
      (("main", "v"), mkLocal KVar "v" (Some (InferType "v")) true);
      (("main", "d"), mkLocal KLet "d" (Some (InferType "d")) true);
      (("main", "p"), mkLocal KLet "p"
         (Some (TupleType "p" [Some (InferType "p0"); Some (InferType "p1")]))
         true) ].

Definition start : Infer Solver := new_Infer locals ∅ [].

Definition in_main (body : list Expr) : Expr :=
  Lambda "main" [] [] (InferType "result") body.

(** The stack at the right-hand side of [left = ...] in "main". *)
Definition at_rhs (l r : Expr) : Stack :=
  [mkFrame (Assign "asn" l r) 1; mkFrame (in_main [Assign "asn" l r]) 3].

(** The stack at the statement [left = right] itself. *)
Definition at_stmt (l r : Expr) : Stack :=
  [mkFrame (in_main [Assign "asn" l r]) 3].

(** The same right-hand side in a scope that sees no class at all. *)
Definition at_rhs_elsewhere (l r : Expr) : Stack :=
  [mkFrame (Assign "asn" l r) 1;
   mkFrame (Lambda "other" [] [] (InferType "result") [Assign "asn" l r]) 3].

(** [d.m], resolved on the receiver, and [f(d, p)], resolved by name. *)
Definition call_m : Expr := Select "d.m" (Some (Ref "d")) ("m", [("m", [])]) None.
Definition call_f : Expr :=
  Select "f(d,p)" (Some (Ref "d")) ("f", [("f", [])]) (Some (Ref "p")).

(** [x = d.m; y = f(d, p)]: both calls resolve and the solver accepts. *)
Definition two_calls : Expr :=
  Class "Main"
    [in_main [Assign "a1" (Let "x") call_m; Assign "a2" (Let "y") call_f]].

(** [y = x; x = 3]: [x] is used before it is assigned. *)
Definition use_before : Expr :=
  Class "Main"
    [in_main [Assign "a1" (Let "y") (Ref "x");
              Assign "a2" (Let "x") (Int "3")]].


(** [y = x; v = x]: [x], which nothing assigns, is read twice. *)
Definition read_twice : Expr :=
  Class "Main"
    [in_main [Assign "a1" (Let "y") (Ref "x");
              Assign "a2" (Ref "v") (Ref "x")]].

(** A lambda with result type [C] and no parameter, and the stack at
    the initialiser of a field of type [type] of the class [C]. *)
Definition initialiser : Expr :=
  Lambda "init" [] [] (TypeRef "C" [("C", [])]) [].

Definition at_field (type : Ty) (init : Expr) : Stack :=
  [mkFrame (Field "f" type (Some init)) 1;
   mkFrame (Class "C" [Field "f" type (Some init)]) 0].

(** A lambda that takes a parameter, and the stack at the default of the
    parameter [p] of "main". *)
Definition with_parameter : Expr :=
  Lambda "g" [] [Param "q" None None] (InferType "result") [].

Definition at_default (dflt : Expr) : Stack :=
  [mkFrame (Param "p" None (Some dflt)) 1;
   mkFrame (Lambda "main" [] [Param "p" None (Some dflt)]
              (InferType "result") []) 1].

(** The stack of a statement of "main" that is not an assignment. *)
Definition at_body (e : Expr) : Stack := [mkFrame (in_main [e]) 3].

End Sample.

(** * Vocabulary of the statements *)

(** The operand of a call contributes its components when it is a
    tuple, and itself otherwise. *)
Definition components (t : Ty) : list (option Ty) :=
  match t with
  | TupleType _ types => types
  | _ => [Some t]
  end.

(** The reference [name] as [make_constant_type] looks it up, and the
    type [imm & name] it builds. *)
Definition constant_ref (name : Location) : Location * list TypeName :=
  (name, [(name, [])]).

Definition imm_and (name : Location) : Ty :=
  IsectType name [TypeRef name [(name, [])]; Imm "imm"].

(** The constraint a call to the solver submits. *)
Definition submitted (c : Call) : option (option Ty * option Ty) :=
  match c with
  | CallSubtype a b _ => Some (a, b)
  | _ => None
  end.

(** [argument <: parameter.upper] for each pair of the substitution
    whose parameter is still alive, in order. *)
Definition bound_constraints (subs : list (option TypeParam * option Ty))
  : list (option Ty * option Ty) :=
  omap (λ '(wparam, arg), (λ param, (arg, upper param)) <$> wparam) subs.

Definition dynamic_attempted (new : list Call) : bool :=
  existsb (λ c, match c with CallDynamic _ _ _ => true | _ => false end) new.

Definition dynamic_accepted (new : list Call) : bool :=
  existsb (λ c, match c with CallDynamic _ _ true => true | _ => false end)
    new.

(** No entry of [new] went through the visitor's [error()]. *)
Definition no_visitor_error (new : list Entry) : bool :=
  forallb (λ e, negb (is_visitor_error e)) new.

(** ** Induction over trees

    [Ty] and [Expr] nest through lists and options; the induction
    principles below give the hypothesis for every child. *)
Definition OptP {A} (P : A → Prop) (o : option A) : Prop :=
  match o with
  | Some a => P a
  | None => True
  end.

Definition all_of {A} (P : A → Prop) (f : ∀ a, P a) : ∀ l, Forall P l :=
  fix go l :=
    match l with
    | [] => List.Forall_nil P
    | a :: l' => List.Forall_cons P a l' (f a) (go l')
    end.

Definition opt_of {A} (P : A → Prop) (f : ∀ a, P a) (o : option A) : OptP P o :=
  match o with
  | Some a => f a
  | None => I
  end.

Section TyInduction.
Variable P : Ty → Prop.
Hypothesis HTypeRef : ∀ l names,
  Forall (λ n : Location * list Ty, Forall P n.2) names → P (TypeRef l names).
Hypothesis HIsect : ∀ l ts, Forall P ts → P (IsectType l ts).
Hypothesis HUnion : ∀ l ts, Forall P ts → P (UnionType l ts).
Hypothesis HTuple : ∀ l ts, Forall (OptP P) ts → P (TupleType l ts).
Hypothesis HFunction : ∀ l a b, OptP P a → OptP P b → P (FunctionType l a b).
Hypothesis HThrow : ∀ l t, P t → P (ThrowType l t).
Hypothesis HImm : ∀ l, P (Imm l).
Hypothesis HMut : ∀ l, P (Mut l).
Hypothesis HIso : ∀ l, P (Iso l).
Hypothesis HInfer : ∀ l, P (InferType l).
Hypothesis HLookupRef : ∀ l d subs,
  Forall (λ s : option (Location * option Ty) * option Ty, OptP P s.2) subs →
  P (LookupRef l d subs).

Fixpoint Ty_nested_ind (t : Ty) : P t :=
  match t with
  | TypeRef l names =>
      HTypeRef l names
        (all_of _ (λ n : Location * list Ty, all_of P Ty_nested_ind n.2) names)
  | IsectType l ts => HIsect l ts (all_of P Ty_nested_ind ts)
  | UnionType l ts => HUnion l ts (all_of P Ty_nested_ind ts)
  | TupleType l ts => HTuple l ts (all_of _ (opt_of P Ty_nested_ind) ts)
  | FunctionType l a b =>
      HFunction l a b (opt_of P Ty_nested_ind a) (opt_of P Ty_nested_ind b)
  | ThrowType l t => HThrow l t (Ty_nested_ind t)
  | Imm l => HImm l
  | Mut l => HMut l
  | Iso l => HIso l
  | InferType l => HInfer l
  | LookupRef l d subs =>
      HLookupRef l d subs
        (all_of _ (λ s : option (Location * option Ty) * option Ty,
                     opt_of P Ty_nested_ind s.2) subs)
  end.
End TyInduction.

Section ExprInduction.
Variable P : Expr → Prop.
Hypothesis HLet : ∀ l, P (Let l).
Hypothesis HVar : ∀ l, P (Var l).
Hypothesis HFree : ∀ l, P (Free l).
Hypothesis HRef : ∀ l, P (Ref l).
Hypothesis HOftype : ∀ l e t, P e → P (Oftype l e t).
Hypothesis HThrow : ∀ l e, P e → P (Throw l e).
Hypothesis HAssign : ∀ l a b, P a → P b → P (Assign l a b).
Hypothesis HTuple : ∀ l seq, Forall P seq → P (Tuple l seq).
Hypothesis HSelect : ∀ l e tr a, OptP P e → OptP P a → P (Select l e tr a).
Hypothesis HNew : ∀ l cs, Forall P cs → P (New l cs).
Hypothesis HObjectLiteral : ∀ l cs, Forall P cs → P (ObjectLiteral l cs).
Hypothesis HMatch : ∀ l cs, Forall P cs → P (Match l cs).
Hypothesis HWhen : ∀ l cs, Forall P cs → P (When l cs).
Hypothesis HEscapedString : ∀ l, P (EscapedString l).
Hypothesis HInt : ∀ l, P (Int l).
Hypothesis HFloat : ∀ l, P (Float l).
Hypothesis HBool : ∀ l, P (Bool l).
Hypothesis HLambda : ∀ l tps ps res body,
  Forall P ps → Forall P body → P (Lambda l tps ps res body).
Hypothesis HParam : ∀ l t d, OptP P d → P (Param l t d).
Hypothesis HField : ∀ l t i, OptP P i → P (Field l t i).
Hypothesis HClass : ∀ l ms, Forall P ms → P (Class l ms).

Fixpoint Expr_nested_ind (e : Expr) : P e :=
  match e with
  | Let l => HLet l
  | Var l => HVar l
  | Free l => HFree l
  | Ref l => HRef l
  | Oftype l e t => HOftype l e t (Expr_nested_ind e)
  | Throw l e => HThrow l e (Expr_nested_ind e)
  | Assign l a b => HAssign l a b (Expr_nested_ind a) (Expr_nested_ind b)
  | Tuple l seq => HTuple l seq (all_of P Expr_nested_ind seq)
  | Select l e tr a =>
      HSelect l e tr a (opt_of P Expr_nested_ind e) (opt_of P Expr_nested_ind a)
  | New l cs => HNew l cs (all_of P Expr_nested_ind cs)
  | ObjectLiteral l cs => HObjectLiteral l cs (all_of P Expr_nested_ind cs)
  | Match l cs => HMatch l cs (all_of P Expr_nested_ind cs)
  | When l cs => HWhen l cs (all_of P Expr_nested_ind cs)
  | EscapedString l => HEscapedString l
  | Int l => HInt l
  | Float l => HFloat l
  | Bool l => HBool l
  | Lambda l tps ps res body =>
      HLambda l tps ps res body (all_of P Expr_nested_ind ps)
        (all_of P Expr_nested_ind body)
  | Param l t d => HParam l t d (opt_of P Expr_nested_ind d)
  | Field l t i => HField l t i (opt_of P Expr_nested_ind i)
  | Class l ms => HClass l ms (all_of P Expr_nested_ind ms)
  end.
End ExprInduction.

(** ** Relations kept by every step

    [preserves R m]: whenever [m] completes, the states before and after
    are related by [R].  For a preorder this is kept by sequencing, so it
    lifts from the handlers to the traversal. *)
Definition preserves {St A} (R : relation St) (m : M St A) : Prop :=
  ∀ s a s', m s = Some (a, s') → R s s'.

(** ** Steps that complete

    [returns I m Q]: from a state in [I], [m] does not crash, ends in
    [I] and yields a value in [Q]. *)
Definition returns {St A} (I : St → Prop) (m : M St A) (Q : A → Prop)
  : Prop :=
  ∀ s, I s → ∃ a s', m s = Some (a, s') ∧ I s' ∧ Q a.

Definition total {St A} (I : St → Prop) (m : M St A) : Prop :=
  returns I m (λ _, True).

(** ** Trees the traversal completes on

    [checked node_ok stk e]: every node of [e], met under the stack the
    traversal builds for it, passes [node_ok]. *)

Section Checked.
Variable node_ok : Stack → Expr → bool.

Fixpoint checked (stk : Stack) (e : Expr) : bool :=
  match e with
  | Let _ | Var _ | Free _ | Ref _ | EscapedString _
  | Int _ | Float _ | Bool _ => true
  | Oftype _ expr _ => checked (mkFrame e 0 :: stk) expr
  | Throw _ expr => checked (mkFrame e 0 :: stk) expr
  | Assign _ l r =>
      checked (mkFrame e 0 :: stk) l && checked (mkFrame e 1 :: stk) r
  | Tuple _ seq => forallb (checked (mkFrame e 0 :: stk)) seq
  | Select _ expr _ args =>
      from_option (checked (mkFrame e 0 :: stk)) true expr &&
      from_option (checked (mkFrame e 2 :: stk)) true args
  | New _ cs | ObjectLiteral _ cs | Match _ cs | When _ cs
  | Class _ cs => forallb (checked (mkFrame e 0 :: stk)) cs
  | Lambda _ _ params _ body =>
      forallb (checked (mkFrame e 1 :: stk)) params &&
      forallb (checked (mkFrame e 3 :: stk)) body
  | Param _ _ dflt => from_option (checked (mkFrame e 1 :: stk)) true dflt
  | Field _ _ init => from_option (checked (mkFrame e 1 :: stk)) true init
  end && node_ok stk e.
End Checked.

(** ** Trees the visitor completes on

    [resolves m stk e]: the names the handler of [e] passes to [g] are
    bound in [m] (and typed where [call_type] asserts it), the ancestors
    it asks for are on the stack, and a [Lambda] in a [Param] or a [Field]
    has no parameters.  A tree that passes this check at every node is
    visited without a null dereference or a failed assertion. *)

Section Resolves.
Variable m : gmap (Location * Location) Local.

Definition bound (stk : Stack) (name : Location) : bool :=
  match symbols stk with
  | Some sc => bool_decide (is_Some (m !! (sc, name)))
  | None => false
  end.

Definition typed (stk : Stack) (name : Location) : bool :=
  match symbols stk with
  | Some sc =>
      match m !! (sc, name) with
      | Some l => bool_decide (is_Some (l_type l))
      | None => false
      end
  | None => false
  end.

Definition lhs_bound (stk : Stack) : bool :=
  match parent_of KAssign stk with
  | Some (Assign _ al _) => bound stk (location al)
  | _ => false
  end.

Definition resolves (stk : Stack) (e : Expr) : bool :=
  match e with
  | Free fr => bound stk fr
  | Ref ref =>
      match parent stk with
      | None => false
      | Some p =>
          bool_decide (kind p = KOftype) ||
          (bound stk ref &&
           match p with
           | Assign _ al _ => is_left_child stk || bound stk (location al)
           | _ => true
           end)
      end
  | Oftype _ expr _ => bound stk (location expr)
  | Throw _ expr =>
      bound stk (location expr) &&
      bool_decide (is_Some (parent_of KLambda stk))
  | Assign _ l _ => bound stk (location l)
  | Tuple _ seq =>
      forallb (λ c, bound stk (location c)) seq && lhs_bound stk
  | Select _ expr _ args =>
      match expr, args with
      | Some l, Some r => typed stk (location l) && typed stk (location r)
      | Some c, None | None, Some c => bound stk (location c)
      | None, None => true
      end && lhs_bound stk
  | Int _ | Float _ | Bool _ => lhs_bound stk
  | Lambda _ typeparams params _ _ =>
      match parent stk with
      | None => false
      | Some p =>
          match kind p with
          | KAssign => lhs_bound stk
          | KParam | KField =>
              bool_decide (typeparams = []) && bool_decide (params = [])
          | _ => true
          end
      end
  | _ => true
  end.
End Resolves.

Section Vocabulary.
Context {S : Type} `{!Collaborators S}.
Implicit Types (r : Infer S) (stk : Stack).

(** A literal handler [h] for the nominal type [name] submits
    [sub <: sup], where the pair is computed from the type of the local
    on the left of the enclosing assignment: it looks [name] up, then
    calls the solver once, and the solver's next state is the state of
    the visitor's solver afterwards. *)
Definition submits (h : Stack → Location → M (Infer S) unit)
  (name : Location) (sides : option Ty → option Ty * option Ty) : Prop :=
  ∀ stk r sc loc al ar l lit found ms,
    symbols stk = Some sc →
    parent_of KAssign stk = Some (Assign loc al ar) →
    symtab r !! (sc, location al) = Some l →
    lookup_typeref (Some sc) (constant_ref name) (subtype r)
    = (Some found, ms) →
    ∃ r' res written,
      h stk lit r = Some (tt, r') ∧
      subtype_check (sides (l_type l)).1 (sides (l_type l)).2 (subtype r)
      = (res, subtype r', written) ∧
      history r' = history r ++
        [CallTyperef (Some sc) (constant_ref name) (Some found);
         CallSubtype (sides (l_type l)).1 (sides (l_type l)).2 res] ∧
      symtab r' = symtab r.

(** A literal handler [h] whose nominal type [name] is not found
    reports once and stops: the stream gains what the lookup wrote and
    one "No type ... in scope." entry, the verdict is cleared, no call
    to the solver follows the lookup, and the solver and the locals are
    as before. *)
Definition reports_missing (h : Stack → Location → M (Infer S) unit)
  (name : Location) : Prop :=
  ∀ stk r lit ms,
    lookup_typeref (symbols stk) (constant_ref name) (subtype r)
    = (None, ms) →
    ∃ r',
      h stk lit r = Some (tt, r') ∧
      out (pass r') = out (pass r) ++ (FromLookup <$> ms)
                        ++ [Visitor (NoTypeInScope name lit)] ∧
      ok (pass r') = false ∧
      history r' = history r
                     ++ [CallTyperef (symbols stk) (constant_ref name) None] ∧
      subtype r' = subtype r ∧
      symtab r' = symtab r.

(** The two halves of [post(Select&)], named for the proofs: the block
    under "Dynamic dispatch", which yields the verdict and the call type
    as the solver leaves it, and the code from "Static dispatch" on. *)
Definition dynamic_phase (typeref : Location * list TypeName) (call : Ty)
  : M (Infer S) (bool * Ty) :=
  match fn_left call, typeref.2 with
  | Some cleft, [name] =>
      let receiver := receiver_type (Some cleft) in
      find <- member_call receiver name ;;
      dynamic_call find call
  | _, _ => ret (false, call)
  end.

Definition static_phase (stk : Stack) (loc : Location)
  (typeref : Location * list TypeName) (call : Ty) : M (Infer S) unit :=
  find <- typeref_call stk typeref ;;
  match find with
  | None => error (CouldntFindFunction loc)
  | Some f =>
      if bool_decide (ty_kind f ≠ KLookupRef)
      then error (ExpectedFunction loc (ty_kind f))
      else subtype_call (Some f) (Some call) ;;; ret tt
  end.

(** The condition under which the handler tries dynamic dispatch. *)
Definition single_name_with_arguments
  (typeref : Location * list TypeName) (call : Ty) : Prop :=
  is_Some (fn_left call) ∧ length typeref.2 = 1.

(** Submitting the constraints [cs] to the solver [s], in order: the
    calls with the answers of the solver, the solver the last call leaves,
    and what the solver wrote. *)
Fixpoint submit_all (cs : list (option Ty * option Ty)) (s : S)
  : list Call * S * list string :=
  match cs with
  | [] => ([], s, [])
  | (a, b) :: cs =>
      let '(res, s1, ms) := subtype_check a b s in
      let '(calls, s2, ms') := submit_all cs s1 in
      (CallSubtype a b res :: calls, s2, ms ++ ms')
  end.

(** The state [r1] after the dynamic attempt from [r]: the member lookup
    answered [find] and wrote [ms], [subtype.dynamic] answered [res],
    left the solver [s] and wrote [written]. *)
Definition after_attempt (r : Infer S) (receiver : option Ty)
  (name : TypeName) (find : list Ty) (call : Ty) (res : bool) (s : S)
  (ms written : list string) (r1 : Infer S) : Prop :=
  subtype r1 = s ∧
  symtab r1 = symtab r ∧
  annot r1 = annot r ∧
  history r1 = history r ++ [CallMember receiver name find;
                             CallDynamic find call res] ∧
  out (pass r1)
  = out (pass r) ++ (FromLookup <$> ms) ++ (FromSolver <$> written) ∧
  ok (pass r1) = ok (pass r) && bool_decide (ms = []).

(** Static dispatch from the state [r1] with the call type [call]:
    [typeref] is looked up in the scope of the node; a failed lookup and
    a result that is not a [LookupRef] are reported and nothing is
    submitted; a [LookupRef] is submitted as [find <: call] to the solver
    of [r1], and [r'] has the solver that call leaves. *)
Definition static_dispatch (stk : Stack) (loc : Location)
  (typeref : Location * list TypeName) (call : Ty) (r1 r' : Infer S)
  : Prop :=
  ∃ found ms,
    lookup_typeref (symbols stk) typeref (subtype r1) = (found, ms) ∧
    symtab r' = symtab r1 ∧
    match found with
    | None =>
        subtype r' = subtype r1 ∧
        history r'
        = history r1 ++ [CallTyperef (symbols stk) typeref None] ∧
        out (pass r')
        = out (pass r1) ++ (FromLookup <$> ms)
            ++ [Visitor (CouldntFindFunction loc)] ∧
        ok (pass r') = false
    | Some f =>
        if bool_decide (ty_kind f = KLookupRef)
        then ∃ res written,
            subtype_check (Some f) (Some call) (subtype r1)
            = (res, subtype r', written) ∧
            history r'
            = history r1 ++ [CallTyperef (symbols stk) typeref (Some f);
                             CallSubtype (Some f) (Some call) res] ∧
            out (pass r')
            = out (pass r1) ++ (FromLookup <$> ms)
                ++ (FromSolver <$> written) ∧
            ok (pass r') = ok (pass r1) && bool_decide (ms = [])
        else
            subtype r' = subtype r1 ∧
            history r'
            = history r1 ++ [CallTyperef (symbols stk) typeref (Some f)] ∧
            out (pass r')
            = out (pass r1) ++ (FromLookup <$> ms)
                ++ [Visitor (ExpectedFunction loc (ty_kind f))] ∧
            ok (pass r') = false
    end.

(** A relation on visitor states is [Stable] when it is a preorder
    kept by each primitive step of the handlers. *)
Class Stable (R : relation (Infer S)) := {
  #[global] stable_preorder :: PreOrder R;
  stable_error d : preserves R (error d);
  stable_subtype a b : preserves R (subtype_call a b);
  stable_dynamic find call : preserves R (dynamic_call find call);
  stable_typeref stk tr : preserves R (typeref_call stk tr);
  stable_member receiver name : preserves R (member_call receiver name);
  stable_set_assigned stk name :
    preserves R (update_local stk name set_assigned);
  stable_set_type stk name t :
    preserves R (update_local stk name (set_type (Some t)))
}.

(** The stream only grows, and the verdict of the visitor is cleared
    exactly by the entries reported through its [error()]. *)
Definition extends r r' : Prop :=
  ∃ new, out (pass r') = out (pass r) ++ new ∧
         ok (pass r') = ok (pass r) && no_visitor_error new.

(** The locals of [m] are still there, and those that had a type
    still have one. *)
Definition covers (m : gmap (Location * Location) Local) (r : Infer S)
  : Prop :=
  ∀ k l, m !! k = Some l →
         ∃ l', symtab r !! k = Some l' ∧
               (is_Some (l_type l) → is_Some (l_type l')).

End Vocabulary.

(** * Vocabulary of the further properties *)

(** The expression and member nodes of a tree, each with the stack the
    traversal builds for it. *)
Fixpoint nodes (stk : Stack) (e : Expr) : list (Stack * Expr) :=
  (stk, e) ::
  match e with
  | Let _ | Var _ | Free _ | Ref _ | EscapedString _
  | Int _ | Float _ | Bool _ => []
  | Oftype _ expr _ | Throw _ expr => nodes (mkFrame e 0 :: stk) expr
  | Assign _ l r =>
      nodes (mkFrame e 0 :: stk) l ++ nodes (mkFrame e 1 :: stk) r
  | Tuple _ cs | New _ cs | ObjectLiteral _ cs | Match _ cs | When _ cs
  | Class _ cs => flat_map (nodes (mkFrame e 0 :: stk)) cs
  | Select _ expr _ args =>
      from_option (nodes (mkFrame e 0 :: stk)) [] expr ++
      from_option (nodes (mkFrame e 2 :: stk)) [] args
  | Lambda _ _ params _ body =>
      flat_map (nodes (mkFrame e 1 :: stk)) params ++
      flat_map (nodes (mkFrame e 3 :: stk)) body
  | Param _ _ c | Field _ _ c =>
      from_option (nodes (mkFrame e 1 :: stk)) [] c
  end.

(** [commutes φ m]: running [m] after the change [φ] of the state is
    running [m] and then changing the state. *)
Definition commutes {St A} (φ : St → St) (m : M St A) : Prop :=
  ∀ s, m (φ s) = (λ '(a, s'), (a, φ s')) <$> m s.

(** [establishes Post m L]: when [m] completes, [Post] holds in the
    final state for every node of [L]. *)
Definition establishes {St} (Post : Stack → Expr → St → Prop)
  (m : M St unit) (L : list (Stack * Expr)) : Prop :=
  ∀ s s', m s = Some (tt, s') → ∀ stk n, (stk, n) ∈ L → Post stk n s'.

(** Two changes of the [Pass] base: entries already on the stream when
    the pass starts, and a verdict that is already false. *)
Definition prepend (pre : list Entry) (p : Pass) : Pass :=
  mkPass (ok p) (pre ++ out p).

Definition spoil (p : Pass) : Pass := mkPass false (out p).

(** The collaborators [c] with another verdict of the solver: what
    [operator bool] of the solver answers is [verdict], the rest is as in
    [c]. *)
Definition with_verdict {S : Type} (verdict : S → bool)
  (c : Collaborators S) : Collaborators S :=
  {| subtype_new := @subtype_new S c;
     subtype_check := @subtype_check S c;
     subtype_dynamic := @subtype_dynamic S c;
     subtype_ok := verdict;
     lookup_typeref := @lookup_typeref S c;
     lookup_member := @lookup_member S c;
     receiver_type := @receiver_type S c;
     throwtype := @throwtype S c;
     function_type := @function_type S c |}.

(** [accumulates J m L]: the nodes of [L] join those the invariant [J]
    already accounts for when [m] completes. *)
Definition accumulates {St} (J : list (Stack * Expr) → St → Prop)
  (m : M St unit) (L : list (Stack * Expr)) : Prop :=
  ∀ V s s', J V s → m s = Some (tt, s') → J (L ++ V) s'.

(** The assignments to the local [k] (a scope and a name), and the
    places that read or capture it: a [Free], and a [Ref] that is neither
    under an [Oftype] nor the left child of an [Assign]. *)
Definition targets (k : Location * Location) (p : Stack * Expr) : bool :=
  match p.2 with
  | Assign _ a _ => bool_decide (symbols p.1 = Some k.1 ∧ location a = k.2)
  | _ => false
  end.

Definition reads (k : Location * Location) (p : Stack * Expr) : bool :=
  match p.2 with
  | Free fr => bool_decide (symbols p.1 = Some k.1 ∧ fr = k.2)
  | Ref ref =>
      bool_decide (symbols p.1 = Some k.1 ∧ ref = k.2) &&
      match parent p.1 with
      | Some (Oftype _ _ _) => false
      | Some (Assign _ _ _) => negb (is_left_child p.1)
      | Some _ => true
      | None => false
      end
  | _ => false
  end.

(** A tuple whose enclosing assignment is to the local [k]. *)
Definition tuple_for (k : Location * Location) (p : Stack * Expr) : bool :=
  match p.2 with
  | Tuple _ _ =>
      match parent_of KAssign p.1 with
      | Some (Assign _ a _) =>
          bool_decide (symbols p.1 = Some k.1 ∧ location a = k.2)
      | _ => false
      end
  | _ => false
  end.


Definition count_of (f : Stack * Expr → bool) (L : list (Stack * Expr))
  : nat :=
  length (List.filter f L).

Section FurtherVocabulary.
Context {S : Type} `{!Collaborators S}.
Implicit Types (r : Infer S) (stk : Stack).

(** No local is added or removed; a local keeps its kind and its name,
    stays assigned once it is, and keeps having a type once it has one. *)
Definition keeps_locals r r' : Prop :=
  (∀ k, symtab r !! k = None → symtab r' !! k = None) ∧
  (∀ k l, symtab r !! k = Some l →
     ∃ l', symtab r' !! k = Some l' ∧
           l_kind l' = l_kind l ∧
           l_location l' = l_location l ∧
           (l_assigned l = true → l_assigned l' = true) ∧
           (is_Some (l_type l) → is_Some (l_type l'))).

(** The local [k] is there and assigned. *)
Definition assigned_in r (k : Location * Location) : Prop :=
  ∃ l, symtab r !! k = Some l ∧ l_assigned l = true.

(** What holds of a node once the pass is over: the local on the left
    of an [Assign] is assigned. *)
Definition left_assigned stk (n : Expr) r : Prop :=
  match n with
  | Assign _ a _ => ∃ sc, symbols stk = Some sc ∧
                          assigned_in r (sc, location a)
  | _ => True
  end.

End FurtherVocabulary.

(** * Properties *)

(** ** Stepping through the monad *)

Lemma bind_Some {St A B} (m : M St A) (k : A → M St B) s a s' :
  m s = Some (a, s') → bind m k s = k a s'.
Proof. unfold bind. by intros ->. Qed.

Lemma bind_None {St A B} (m : M St A) (k : A → M St B) s :
  m s = None → bind m k s = None.
Proof. unfold bind. by intros ->. Qed.

Lemma bind_inv {St A B} (m : M St A) (k : A → M St B) s b s' :
  bind m k s = Some (b, s') →
  ∃ a s1, m s = Some (a, s1) ∧ k a s1 = Some (b, s').
Proof.
  unfold bind. destruct (m s) as [[a s1]|]; [|done]. intros Hk. by exists a, s1.
Qed.

Lemma bind_deref {St A B} (a : A) (k : A → M St B) s :
  bind (deref (Some a)) k s = k a s.
Proof. done. Qed.

Lemma bind_ret {St A B} (a : A) (k : A → M St B) s :
  bind (ret a) k s = k a s.
Proof. done. Qed.

Lemma bind_assoc {St A B C} (m : M St A) (k : A → M St B) (k' : B → M St C) s :
  bind (bind m k) k' s = bind m (λ a, bind (k a) k') s.
Proof. unfold bind. by destruct (m s) as [[a s1]|]. Qed.

Section Basics.
Context {S : Type} `{!Collaborators S}.
Implicit Types (r : Infer S) (stk : Stack).

Lemma g_Some stk r sc name l :
  symbols stk = Some sc →
  symtab r !! (sc, name) = Some l →
  g stk name r = Some (l, r).
Proof.
  intros Hsc Hl. unfold g. rewrite Hsc. cbn. unfold bind, get. cbn.
  by rewrite Hl.
Qed.

Lemma g_ptr_Some stk r sc name :
  symbols stk = Some sc →
  g_ptr stk name r = Some (symtab r !! (sc, name), r).
Proof. intros Hsc. unfold g_ptr. by rewrite Hsc. Qed.

Lemma g_ptr_inv stk r name lp r' :
  g_ptr stk name r = Some (lp, r') →
  r' = r ∧ ∃ sc, symbols stk = Some sc ∧ lp = symtab r !! (sc, name).
Proof.
  unfold g_ptr. destruct (symbols stk) as [sc|]; [|done].
  intros [= <- <-]. split; [done|]. by exists sc.
Qed.

Lemma g_inv stk r name l r' :
  g stk name r = Some (l, r') →
  r' = r ∧ ∃ sc, symbols stk = Some sc ∧ symtab r !! (sc, name) = Some l.
Proof.
  unfold g. destruct (symbols stk) as [sc|]; [|done]. cbn.
  unfold bind, get. cbn. destruct (symtab r !! (sc, name)) eqn:E; [|done].
  cbn. intros [= -> ->]. eauto.
Qed.

Lemma lhs_Some stk r loc al ar :
  parent_of KAssign stk = Some (Assign loc al ar) →
  lhs stk r = Some (location al, r).
Proof. intros Hp. unfold lhs. by rewrite Hp. Qed.

(** What the lookup engine reports goes to the stream through the
    visitor's [error()]; nothing else of the state moves. *)
Lemma lookup_reports_out ms r :
  out (pass (lookup_reports ms r)) = out (pass r) ++ (FromLookup <$> ms).
Proof.
  unfold lookup_reports. revert r.
  induction ms as [|m ms IH]; intros r; cbn; [by rewrite app_nil_r|].
  rewrite IH. cbn. by rewrite <- app_assoc.
Qed.

Lemma lookup_reports_ok ms r :
  ok (pass (lookup_reports ms r)) = ok (pass r) && bool_decide (ms = []).
Proof.
  unfold lookup_reports. revert r.
  induction ms as [|m ms IH]; intros r; cbn; [by rewrite andb_true_r|].
  rewrite IH. cbn. by rewrite andb_false_r.
Qed.

Lemma lookup_reports_frame ms r :
  subtype (lookup_reports ms r) = subtype r ∧
  symtab (lookup_reports ms r) = symtab r ∧
  annot (lookup_reports ms r) = annot r ∧
  history (lookup_reports ms r) = history r.
Proof.
  unfold lookup_reports. revert r.
  induction ms as [|m ms IH]; intros r; cbn; [done|].
  destruct (IH (with_pass (report (FromLookup m)) r)) as (-> & -> & -> & ->).
  done.
Qed.

Lemma typeref_call_eq stk tr r res ms :
  lookup_typeref (symbols stk) tr (subtype r) = (res, ms) →
  typeref_call stk tr r
  = Some (res, log (CallTyperef (symbols stk) tr res) (lookup_reports ms r)).
Proof. unfold typeref_call. by intros ->. Qed.

Lemma member_call_eq receiver name r res ms :
  lookup_member receiver name (subtype r) = (res, ms) →
  member_call receiver name r
  = Some (res, log (CallMember receiver name res) (lookup_reports ms r)).
Proof. unfold member_call. by intros ->. Qed.

Lemma subtype_call_eq a b r res s ms :
  subtype_check a b (subtype r) = (res, s, ms) →
  subtype_call a b r
  = Some (res, mkInfer (solver_writes ms (pass r)) s (symtab r) (annot r)
                 (history r ++ [CallSubtype a b res])).
Proof. unfold subtype_call. by intros ->. Qed.

Lemma dynamic_call_eq find call r res call' s ms :
  subtype_dynamic find call (subtype r) = (res, call', s, ms) →
  dynamic_call find call r
  = Some ((res, call'),
          mkInfer (solver_writes ms (pass r)) s (symtab r) (annot r)
            (history r ++ [CallDynamic find call res])).
Proof. unfold dynamic_call. by intros ->. Qed.

Lemma unpack_type_components to t :
  unpack_type to (Some t) = to ++ components t.
Proof. by destruct t. Qed.

End Basics.

(** ** The call type of a selector (C7) *)

Section CallType.
Context {S : Type} `{!Collaborators S}.
Implicit Types (r : Infer S) (stk : Stack).

(** C7. The call type of a [Select] is [(argument side) -> g(lhs).type].
    With only one of [expr] and [args] present, the type of that local is
    the whole argument side; with both, the argument side is a tuple type
    holding the components of the first local's type followed by those of
    the second, a tuple operand giving its components and any other
    operand itself. *)
Theorem call_type_builds_call stk r sc loc al ar res left right :
  symbols stk = Some sc →
  parent_of KAssign stk = Some (Assign loc al ar) →
  symtab r !! (sc, location al) = Some res →
  (∀ e le, left = Some e → right = None →
     symtab r !! (sc, location e) = Some le →
     call_type stk left right r
     = Some (FunctionType "" (l_type le) (l_type res), r)) ∧
  (∀ e le, left = None → right = Some e →
     symtab r !! (sc, location e) = Some le →
     call_type stk left right r
     = Some (FunctionType "" (l_type le) (l_type res), r)) ∧
  (∀ e a le la lt rt, left = Some e → right = Some a →
     symtab r !! (sc, location e) = Some le →
     symtab r !! (sc, location a) = Some la →
     l_type le = Some lt → l_type la = Some rt →
     call_type stk left right r
     = Some (FunctionType ""
               (Some (TupleType (ty_location lt)
                        (components lt ++ components rt)))
               (l_type res), r)).
Proof.
  intros Hsc Hasn Hres.
  assert (Htail : ∀ fl,
    bind (lhs stk) (λ name, bind (g stk name)
      (λ res0, ret (FunctionType "" fl (l_type res0)))) r
    = Some (FunctionType "" fl (l_type res), r)).
  { intros fl. rewrite (bind_Some _ _ _ _ _ (lhs_Some _ _ _ _ _ Hasn)).
    by rewrite (bind_Some _ _ _ _ _ (g_Some _ _ _ _ _ Hsc Hres)). }
  split_and!.
  - intros e le -> -> Hle. unfold call_type.
    erewrite bind_Some; [apply Htail|].
    by rewrite (bind_Some _ _ _ _ _ (g_Some _ _ _ _ _ Hsc Hle)).
  - intros e le -> -> Hle. unfold call_type.
    erewrite bind_Some; [apply Htail|].
    by rewrite (bind_Some _ _ _ _ _ (g_Some _ _ _ _ _ Hsc Hle)).
  - intros e a le la lt rt -> -> Hle Hla Hlt Hrt. unfold call_type.
    erewrite bind_Some; [apply Htail|].
    rewrite (bind_Some _ _ _ _ _ (g_Some _ _ _ _ _ Hsc Hle)).
    rewrite (bind_Some _ _ _ _ _ (g_Some _ _ _ _ _ Hsc Hla)).
    rewrite Hlt, Hrt. by rewrite !unpack_type_components.
Qed.

End CallType.

(** ** Literals (C3, C10) *)

Section Literals.
Context {S : Type} `{!Collaborators S}.
Implicit Types (r : Infer S) (stk : Stack).

Lemma make_constant_type_found stk name r found ms :
  lookup_typeref (symbols stk) (constant_ref name) (subtype r)
  = (Some found, ms) →
  make_constant_type stk name r
  = Some (Some (imm_and name),
          log (CallTyperef (symbols stk) (constant_ref name) (Some found))
            (lookup_reports ms r)).
Proof.
  intros Hl. unfold make_constant_type.
  by rewrite (bind_Some _ _ _ _ _ (typeref_call_eq _ _ _ _ _ Hl)).
Qed.

Lemma make_constant_type_missing stk name r ms :
  lookup_typeref (symbols stk) (constant_ref name) (subtype r) = (None, ms) →
  make_constant_type stk name r
  = Some (None,
          log (CallTyperef (symbols stk) (constant_ref name) None)
            (lookup_reports ms r)).
Proof.
  intros Hl. unfold make_constant_type.
  by rewrite (bind_Some _ _ _ _ _ (typeref_call_eq _ _ _ _ _ Hl)).
Qed.

Lemma submits_intro h name sides
  (build : Ty → option Ty → option Ty * option Ty) :
  (∀ stk lit, h stk lit =
     bind (make_constant_type stk name) (λ t,
       match t with
       | None => error (NoTypeInScope name lit)
       | Some t =>
           bind (lhs stk) (λ x, bind (g stk x) (λ l,
             bind (subtype_call (build t (l_type l)).1 (build t (l_type l)).2)
               (λ _, ret tt)))
       end)) →
  (∀ lt, build (imm_and name) lt = sides lt) →
  submits h name sides.
Proof.
  intros Hh Hb stk r sc loc al ar l lit found ms Hsc Hasn Hl Hfound.
  rewrite <- Hsc in Hfound.
  destruct (subtype_check (sides (l_type l)).1 (sides (l_type l)).2 (subtype r))
    as [[res s] written] eqn:Hcheck.
  eexists _, res, written. rewrite Hh.
  rewrite (bind_Some _ _ _ _ _ (make_constant_type_found _ _ _ _ _ Hfound)).
  rewrite (bind_Some _ _ _ _ _ (lhs_Some _ _ _ _ _ Hasn)).
  destruct (lookup_reports_frame ms r) as (Hs & Hm & Ha & Hh').
  erewrite (bind_Some (g _ _)); last first.
  { apply (g_Some _ _ sc); [done|]. cbn. by rewrite Hm. }
  rewrite Hb.
  erewrite (bind_Some (subtype_call _ _)); last first.
  { apply subtype_call_eq. cbn. rewrite Hs. apply Hcheck. }
  cbn. rewrite Hh', Hm, Hsc. split_and!; try done.
  by rewrite <- app_assoc.
Qed.

(** C3. An [Int] or [Float] literal submits
    [g(lhs).type <: imm & Integer] (respectively [imm & Float]): the
    literal type is the upper side.  A [Bool] literal submits
    [imm & Bool <: g(lhs).type]: the literal type is the lower side. *)
Theorem literals_submit_bounds :
  submits post_Int "Integer" (λ lt, (lt, Some (imm_and "Integer"))) ∧
  submits post_Float "Float" (λ lt, (lt, Some (imm_and "Float"))) ∧
  submits post_Bool "Bool" (λ lt, (Some (imm_and "Bool"), lt)).
Proof.
  split_and!.
  - by apply (submits_intro _ _ _ (λ t lt, (lt, Some t))).
  - by apply (submits_intro _ _ _ (λ t lt, (lt, Some t))).
  - by apply (submits_intro _ _ _ (λ t lt, (Some t, lt))).
Qed.

Lemma reports_missing_intro h name
  (k : Stack → Ty → M (Infer S) unit) :
  (∀ stk lit, h stk lit =
     bind (make_constant_type stk name) (λ t,
       match t with
       | None => error (NoTypeInScope name lit)
       | Some t => k stk t
       end)) →
  reports_missing h name.
Proof.
  intros Hh stk r lit ms Hl. eexists. rewrite Hh.
  rewrite (bind_Some _ _ _ _ _ (make_constant_type_missing _ _ _ _ Hl)).
  destruct (lookup_reports_frame ms r) as (Hs & Hm & Ha & Hh').
  split; [done|]. cbn.
  rewrite lookup_reports_out, Hh', Hs, Hm. by rewrite <- app_assoc.
Qed.

(** C10. At an [Int], [Float] or [Bool] literal whose nominal type fails
    lookup, the handler records exactly one "No type ... in scope."
    error and returns without submitting a constraint: the locals and
    the solver are unchanged by the node. *)
Theorem literal_without_type_reports_once :
  reports_missing post_Int "Integer" ∧
  reports_missing post_Float "Float" ∧
  reports_missing post_Bool "Bool" ∧
  ∀ lit, message (NoTypeInScope "Integer" lit) = "No type Integer in scope."
       ∧ message (NoTypeInScope "Float" lit) = "No type Float in scope."
       ∧ message (NoTypeInScope "Bool" lit) = "No type Bool in scope.".
Proof.
  split_and!; [| | |done].
  - by eapply (reports_missing_intro _ _ (λ stk t, _)).
  - by eapply (reports_missing_intro _ _ (λ stk t, _)).
  - by eapply (reports_missing_intro _ _ (λ stk t, _)).
Qed.

End Literals.

(** ** Assignment and use of locals (C5, C6) *)

Section Locals.
Context {S : Type} `{!Collaborators S}.
Implicit Types (r : Infer S) (stk : Stack).

Lemma update_local_Some stk r sc name l f :
  symbols stk = Some sc →
  symtab r !! (sc, name) = Some l →
  update_local stk name f r
  = Some (tt, mkInfer (pass r) (subtype r) (<[(sc, name) := f l]> (symtab r))
                (annot r) (history r)).
Proof.
  intros Hsc Hl. unfold update_local, g. rewrite Hsc.
  unfold bind, deref, get, modify, ret. cbn. by rewrite Hl.
Qed.

(** C5. At an [Assign] whose left-hand local is a [Let] that is already
    assigned, an error is recorded and the locals are not written (the
    flag stays true).  When the local is a [Var], or is not assigned
    yet, its flag is set and the stream and the verdict are untouched. *)
Theorem assign_marks_or_rejects stk r sc aleft aright l :
  symbols stk = Some sc →
  symtab r !! (sc, location aleft) = Some l →
  (l_kind l = KLet → l_assigned l = true →
     ∃ r', post_Assign stk aleft aright r = Some (tt, r') ∧
           out (pass r') = out (pass r) ++
             [Visitor (AlreadyAssigned (location aright) (location aleft))] ∧
           ok (pass r') = false ∧
           symtab r' = symtab r) ∧
  (l_kind l = KVar ∨ l_assigned l = false →
     ∃ r', post_Assign stk aleft aright r = Some (tt, r') ∧
           symtab r' = <[(sc, location aleft) := set_assigned l]> (symtab r) ∧
           l_assigned (set_assigned l) = true ∧
           l_type (set_assigned l) = l_type l ∧
           pass r' = pass r).
Proof.
  intros Hsc Hl. split.
  - intros Hk Ha. eexists. unfold post_Assign.
    rewrite (bind_Some _ _ _ _ _ (g_Some _ _ _ _ _ Hsc Hl)).
    rewrite Ha, Hk. cbn. done.
  - intros Hcase. eexists. unfold post_Assign.
    rewrite (bind_Some _ _ _ _ _ (g_Some _ _ _ _ _ Hsc Hl)).
    assert (negb (l_assigned l) || bool_decide (l_kind l = KVar) = true) as ->.
    { destruct Hcase as [-> | ->]; [|done]. by rewrite orb_true_r. }
    rewrite (update_local_Some _ _ _ _ _ _ Hsc Hl). done.
Qed.

Lemma check_assigned_eq l ref r :
  check_assigned l ref r
  = Some (tt, if l_assigned l then r
              else with_pass (report (Visitor (UsedBeforeAssignment ref))) r).
Proof. unfold check_assigned. by destruct (l_assigned l). Qed.

Lemma used_before_not_from_solver ref (ms : list string) :
  Visitor (UsedBeforeAssignment ref) ∉ (FromSolver <$> ms : list Entry).
Proof. intros (m & ? & _)%list_elem_of_fmap. done. Qed.

(** What [check_assigned] adds after [new] has been written, when [new]
    holds no use-before-assignment report. *)
Lemma check_assigned_report l ref r0 r new :
  out (pass r) = out (pass r0) ++ new →
  Visitor (UsedBeforeAssignment ref) ∉ new →
  ∃ r' new',
    check_assigned l ref r = Some (tt, r') ∧
    out (pass r') = out (pass r0) ++ new' ∧
    (Visitor (UsedBeforeAssignment ref) ∈ new' ↔ l_assigned l = false).
Proof.
  intros Hout Hnew. rewrite check_assigned_eq.
  destruct (l_assigned l).
  - exists r, new. split_and!; [done..|]. split; [done|]. done.
  - eexists _, (new ++ [_]). split_and!; [done| |].
    + cbn. by rewrite Hout, <- app_assoc.
    + split; [done|]. intros _. apply elem_of_app. right.
      apply list_elem_of_singleton. done.
Qed.

(** C6. A [Ref] under an [Oftype], or as the left child of an [Assign],
    records nothing, whether the local is assigned or not.  In every
    other position the handler records "Variable used before
    assignment" iff the local is not assigned. *)
Theorem ref_reports_use_before_assignment stk r ref p :
  parent stk = Some p →
  (kind p = KOftype → post_Ref stk ref r = Some (tt, r)) ∧
  (∀ sc l, kind p = KAssign → is_left_child stk = true →
     symbols stk = Some sc → symtab r !! (sc, ref) = Some l →
     post_Ref stk ref r = Some (tt, r)) ∧
  (∀ sc l, kind p ≠ KOftype →
     ¬ (kind p = KAssign ∧ is_left_child stk = true) →
     symbols stk = Some sc → symtab r !! (sc, ref) = Some l →
     (∀ loc al ar, p = Assign loc al ar →
        is_Some (symtab r !! (sc, location al))) →
     ∃ r' new,
       post_Ref stk ref r = Some (tt, r') ∧
       out (pass r') = out (pass r) ++ new ∧
       (Visitor (UsedBeforeAssignment ref) ∈ new ↔ l_assigned l = false) ∧
       message (UsedBeforeAssignment ref) = "Variable used before assignment").
Proof.
  intros Hp. split_and!.
  - intros Hk. unfold post_Ref. rewrite Hp, bind_deref.
    by rewrite bool_decide_eq_true_2.
  - intros sc l Hk Hleft Hsc Hl. unfold post_Ref. rewrite Hp, bind_deref.
    rewrite bool_decide_eq_false_2 by congruence.
    rewrite (bind_Some _ _ _ _ _ (g_ptr_Some _ _ _ _ Hsc)).
    destruct p; try done. by rewrite Hleft.
  - intros sc l Hk Hnot Hsc Hl Hal.
    cut (∃ r' new, post_Ref stk ref r = Some (tt, r') ∧
           out (pass r') = out (pass r) ++ new ∧
           (Visitor (UsedBeforeAssignment ref) ∈ new ↔ l_assigned l = false)).
    { intros (r' & new & ? & ? & ?). by exists r', new. }
    unfold post_Ref. rewrite Hp, bind_deref.
    rewrite bool_decide_eq_false_2 by done.
    rewrite (bind_Some _ _ _ _ _ (g_ptr_Some _ _ _ _ Hsc)), Hl.
    assert (Hplain : ∃ r' new,
      check_assigned l ref r = Some (tt, r') ∧
      out (pass r') = out (pass r) ++ new ∧
      (Visitor (UsedBeforeAssignment ref) ∈ new ↔ l_assigned l = false)).
    { apply (check_assigned_report _ _ _ _ []); [by rewrite app_nil_r|].
      apply not_elem_of_nil. }
    destruct p; try exact Hplain; try done.
    + (* the right-hand side of an assignment *)
      destruct (is_left_child stk) eqn:Hleft; [by destruct Hnot|].
      destruct (Hal _ _ _ eq_refl) as [la Hla]. rewrite bind_deref.
      rewrite (bind_Some _ _ _ _ _ (g_Some _ _ _ _ _ Hsc Hla)).
      destruct (subtype_check (l_type l) (l_type la) (subtype r))
        as [[res s] ms] eqn:Hcheck.
      rewrite (bind_Some _ _ _ _ _ (subtype_call_eq _ _ _ _ _ _ Hcheck)).
      apply (check_assigned_report _ _ _ _ (FromSolver <$> ms)); [done|].
      apply used_before_not_from_solver.
    + (* the value of a lambda *)
      destruct (subtype_check (l_type l) (Some result) (subtype r))
        as [[res s] ms] eqn:Hcheck. rewrite bind_deref.
      rewrite (bind_Some _ _ _ _ _ (subtype_call_eq _ _ _ _ _ _ Hcheck)).
      destruct res; cbn [negb].
      * rewrite bind_ret.
        apply (check_assigned_report _ _ _ _ (FromSolver <$> ms)); [done|].
        apply used_before_not_from_solver.
      * unfold bind at 1, error, modify.
        apply (check_assigned_report _ _ _ _
                 ((FromSolver <$> ms) ++ [Visitor (ReturnNotSubtype ref
                                            (ty_location result))])).
        { cbn. by rewrite <- app_assoc. }
        intros [Hin | Hin%list_elem_of_singleton]%elem_of_app; [|done].
        by apply used_before_not_from_solver in Hin.
Qed.

End Locals.

(** ** Type arguments of a resolved reference (C8) *)

Section LookupRefs.
Context {S : Type} `{!Collaborators S}.
Implicit Types (r : Infer S) (stk : Stack).

(** C8. The handler of a [LookupRef] submits [argument <:
    parameter.upper] to the solver for each pair of its substitution, in
    order, and nothing else; with every parameter alive that is one
    constraint per pair.  Each call is answered by the solver in the
    state the call before left, the solver afterwards is the one the
    last call leaves, and the visitor records nothing of its own. *)
Theorem lookupref_submits_upper_bounds subs r :
  ∃ r' new written,
    post_LookupRef subs r = Some (tt, r') ∧
    history r' = history r ++ new ∧
    omap submitted new = bound_constraints subs ∧
    length new = length (bound_constraints subs) ∧
    (Forall (λ s, is_Some s.1) subs → length new = length subs) ∧
    submit_all (bound_constraints subs) (subtype r)
    = (new, subtype r', written) ∧
    out (pass r') = out (pass r) ++ (FromSolver <$> written) ∧
    ok (pass r') = ok (pass r) ∧
    symtab r' = symtab r.
Proof.
  unfold post_LookupRef. revert r.
  induction subs as [|[wparam arg] subs IH]; intros r.
  - exists r, [], []. by rewrite !app_nil_r.
  - cbn [forM_]. destruct wparam as [param|].
    + destruct (subtype_check arg (upper param) (subtype r))
        as [[res s] ms] eqn:Hcheck.
      rewrite bind_assoc.
      rewrite (bind_Some _ _ _ _ _ (subtype_call_eq _ _ _ _ _ _ Hcheck)).
      rewrite bind_ret.
      edestruct IH as (r' & new & written & -> & Hh & Hnew & Hlen & Hall
                       & Hsub & Hout & Hok & Hsym).
      exists r', (CallSubtype arg (upper param) res :: new), (ms ++ written).
      cbn in Hsub, Hout, Hok, Hsym.
      split_and!; [done| | | | | | | |].
      * rewrite Hh. cbn. by rewrite <- app_assoc.
      * cbn. by rewrite Hnew.
      * cbn. by rewrite Hlen.
      * intros [_ Hlive]%Forall_cons. cbn. by rewrite Hall.
      * unfold bound_constraints in Hsub |- *. cbn in Hsub |- *.
        by rewrite Hcheck, Hsub.
      * by rewrite Hout, fmap_app, <- app_assoc.
      * done.
      * done.
    + rewrite bind_ret.
      destruct (IH r) as (r' & new & written & -> & Hh & Hnew & Hlen & Hall
                          & Hsub & Hout & Hok & Hsym).
      exists r', new, written. split_and!; try done.
      intros [[? [=]] _]%Forall_cons.
Qed.

End LookupRefs.

(** ** Dispatch at a selector (C2) *)

Section Dispatch.
Context {S : Type} `{!Collaborators S}.
Implicit Types (r : Infer S) (stk : Stack).

Lemma post_Select_phases stk loc expr typeref args r :
  post_Select stk loc expr typeref args r =
  (call <- call_type stk expr args ;;
   dyn <- dynamic_phase typeref call ;;
   if dyn.1 then ret tt else static_phase stk loc typeref dyn.2) r.
Proof.
  unfold post_Select.
  destruct (call_type stk expr args r) as [[call r1]|] eqn:Hcall;
    [|by rewrite !(bind_None _ _ _ Hcall)].
  rewrite !(bind_Some _ _ _ _ _ Hcall).
  fold (dynamic_phase typeref call).
  destruct (dynamic_phase typeref call r1) as [[[done call'] r2]|] eqn:Hdyn;
    [|by rewrite !(bind_None _ _ _ Hdyn)].
  by rewrite !(bind_Some _ _ _ _ _ Hdyn).
Qed.

Lemma static_phase_dispatch stk loc typeref call r1 :
  ∃ r' tail,
    static_phase stk loc typeref call r1 = Some (tt, r') ∧
    static_dispatch stk loc typeref call r1 r' ∧
    annot r' = annot r1 ∧
    history r' = history r1 ++ tail ∧
    dynamic_attempted tail = false.
Proof.
  unfold static_phase, static_dispatch.
  destruct (lookup_typeref (symbols stk) typeref (subtype r1))
    as [found ms] eqn:Hl.
  rewrite (bind_Some _ _ _ _ _ (typeref_call_eq _ _ _ _ _ Hl)).
  destruct (lookup_reports_frame ms r1) as (Hs & Hm & Ha & Hh).
  pose proof (lookup_reports_out ms r1) as Hout.
  pose proof (lookup_reports_ok ms r1) as Hok.
  destruct found as [f|]; [destruct (decide (ty_kind f = KLookupRef)) as [Hk|Hk]|].
  - rewrite bool_decide_eq_false_2 by (by intros ?).
    destruct (subtype_check (Some f) (Some call) (subtype r1))
      as [[res s] written] eqn:Hcheck.
    erewrite (bind_Some (subtype_call _ _)); last first.
    { apply subtype_call_eq. cbn. rewrite Hs. apply Hcheck. }
    eexists _, [_; _]. split; [reflexivity|]. split_and!; cbn.
    + exists (Some f), ms. split; [done|]. split; [done|].
      rewrite bool_decide_eq_true_2 by done. exists res, written. cbn.
      rewrite Hh, Hout, Hok, <- !app_assoc. done.
    + done.
    + by rewrite Hh, <- app_assoc.
    + done.
  - rewrite bool_decide_eq_true_2 by done.
    eexists _, [_]. split; [reflexivity|]. split_and!; cbn.
    + exists (Some f), ms. split; [done|]. split; [done|].
      rewrite bool_decide_eq_false_2 by done. cbn.
      rewrite Hs, Hh, Hout, <- !app_assoc. done.
    + done.
    + by rewrite Hh.
    + done.
  - eexists _, [_]. split; [reflexivity|]. split_and!; cbn.
    + exists None, ms. split; [done|]. split; [done|]. cbn.
      rewrite Hs, Hh, Hout, <- !app_assoc. done.
    + done.
    + by rewrite Hh.
    + done.
Qed.

Lemma dynamic_phase_attempt typeref call r cleft name find ms res call' s
    written :
  fn_left call = Some cleft →
  typeref.2 = [name] →
  lookup_member (receiver_type (Some cleft)) name (subtype r) = (find, ms) →
  subtype_dynamic find call (subtype r) = (res, call', s, written) →
  ∃ r1,
    dynamic_phase typeref call r = Some ((res, call'), r1) ∧
    after_attempt r (receiver_type (Some cleft)) name find call res s ms
      written r1.
Proof.
  intros Hleft Hname Hm Hd. unfold dynamic_phase. rewrite Hleft, Hname.
  cbn zeta. rewrite (bind_Some _ _ _ _ _ (member_call_eq _ _ _ _ _ Hm)).
  destruct (lookup_reports_frame ms r) as (Hs & Hsym & Ha & Hh).
  erewrite dynamic_call_eq; last first.
  { cbn. rewrite Hs. apply Hd. }
  eexists. split; [reflexivity|]. unfold after_attempt. cbn.
  rewrite Hh, lookup_reports_out, lookup_reports_ok, <- !app_assoc.
  by split_and!.
Qed.

Lemma dynamic_phase_skip typeref call r :
  ¬ single_name_with_arguments typeref call →
  dynamic_phase typeref call r = Some ((false, call), r).
Proof.
  unfold single_name_with_arguments, dynamic_phase. intros Hnot.
  destruct (fn_left call) as [cleft|]; [|done].
  destruct (typeref.2) as [|name [|]]; try done.
  destruct Hnot. split; [by eexists|done].
Qed.

(** C2. Once the call type is built, dynamic dispatch is attempted iff
    the call has an argument side and the selector is a single name: the
    member is then looked up on the receiver and the candidates are
    handed to [subtype.dynamic], and when that answers true the handler
    stops in the state the two calls left.  Whenever dynamic dispatch is
    not attempted or [subtype.dynamic] answers false, static dispatch
    follows, from the solver and with the call type the attempt, if any,
    left: a failed lookup records "Couldn't find this function.", a
    result that is not a [LookupRef] records "Expected a function but
    found ...", and otherwise [find <: call] is submitted and the solver
    is the one that call leaves. *)
Theorem select_attempts_dynamic_then_static stk loc expr typeref args r call :
  call_type stk expr args r = Some (call, r) →
  ∃ r' new,
    post_Select stk loc expr typeref args r = Some (tt, r') ∧
    history r' = history r ++ new ∧
    (dynamic_attempted new = true ↔ single_name_with_arguments typeref call) ∧
    (∀ cleft name find ms res call' s written,
       fn_left call = Some cleft →
       typeref.2 = [name] →
       lookup_member (receiver_type (Some cleft)) name (subtype r)
       = (find, ms) →
       subtype_dynamic find call (subtype r) = (res, call', s, written) →
       ∃ r1,
         after_attempt r (receiver_type (Some cleft)) name find call res s
           ms written r1 ∧
         if res then r' = r1
         else static_dispatch stk loc typeref call' r1 r') ∧
    (¬ single_name_with_arguments typeref call →
     static_dispatch stk loc typeref call r r') ∧
    message (CouldntFindFunction loc) = "Couldn't find this function." ∧
    ∀ k, message (ExpectedFunction loc k) = "Expected a function but found ".
Proof.
  intros Hcall. rewrite post_Select_phases.
  rewrite (bind_Some _ _ _ _ _ Hcall).
  destruct (fn_left call) as [cleft|] eqn:Hleft; last first.
  { (* no argument side *)
    assert (Hnot : ¬ single_name_with_arguments typeref call).
    { intros [[? Hsome] _]. congruence. }
    rewrite (bind_Some _ _ _ _ _ (dynamic_phase_skip _ _ _ Hnot)).
    cbn [fst snd].
    destruct (static_phase_dispatch stk loc typeref call r)
      as (r' & tail & Hrun & Hst & _ & Hh & Hno).
    exists r', tail. split_and!; try done.
    split; [by rewrite Hno|done]. }
  destruct (typeref.2) as [|name [|name' names]] eqn:Hnames.
  1, 3: (* not a single name *)
    assert (Hnot : ¬ single_name_with_arguments typeref call)
      by (intros [_ Hlen]; rewrite Hnames in Hlen; discriminate Hlen);
    rewrite (bind_Some _ _ _ _ _ (dynamic_phase_skip _ _ _ Hnot));
    cbn [fst snd];
    destruct (static_phase_dispatch stk loc typeref call r)
      as (r' & tail & Hrun & Hst & _ & Hh & Hno);
    exists r', tail; split_and!; try done;
    split; [by rewrite Hno|done].
  (* attempted *)
  assert (Hyes : single_name_with_arguments typeref call).
  { split; [by eexists|by rewrite Hnames]. }
  destruct (lookup_member (receiver_type (Some cleft)) name (subtype r))
    as [find ms] eqn:Hm.
  destruct (subtype_dynamic find call (subtype r))
    as [[[res call'] s] written] eqn:Hd.
  destruct (dynamic_phase_attempt typeref call r cleft name find ms res call'
              s written Hleft Hnames Hm Hd) as (r1 & Hdyn & Hafter).
  rewrite (bind_Some _ _ _ _ _ Hdyn). cbn [fst snd].
  pose proof Hafter as (_ & _ & _ & Hh1 & _).
  destruct res.
  - exists r1, [CallMember (receiver_type (Some cleft)) name find;
                CallDynamic find call true].
    split_and!; try done.
    intros cleft0 name0 find0 ms0 res0 call0 s0 written0 [= <-] [= <-].
    rewrite Hm. intros [= <- <-]. rewrite Hd. intros [= <- <- <- <-].
    by exists r1.
  - destruct (static_phase_dispatch stk loc typeref call' r1)
      as (r' & tail & Hrun & Hst & _ & Hh & Hno).
    exists r', ([CallMember (receiver_type (Some cleft)) name find;
                 CallDynamic find call false] ++ tail).
    split_and!; try done.
    + by rewrite Hh, Hh1, <- app_assoc.
    + intros cleft0 name0 find0 ms0 res0 call0 s0 written0 [= <-] [= <-].
      rewrite Hm. intros [= <- <-]. rewrite Hd. intros [= <- <- <- <-].
      by exists r1.
Qed.

End Dispatch.

(** ** Sequencing keeps a preorder *)

Section Preserves.
Context {St : Type} (R : relation St) `{!PreOrder R}.

Lemma preserves_ret {A} (a : A) : preserves R (ret a).
Proof. intros s a' s' [= _ <-]. done. Qed.

Lemma preserves_crash {A} : preserves R (crash : M St A).
Proof. intros s a s' [=]. Qed.

Lemma preserves_deref {A} (p : option A) : preserves R (deref p).
Proof. destruct p; [apply preserves_ret | apply preserves_crash]. Qed.

Lemma preserves_assert b : preserves R (assert b).
Proof. destruct b; [apply preserves_ret | apply preserves_crash]. Qed.

Lemma preserves_get : preserves R get.
Proof. intros s a s' [= _ <-]. done. Qed.

Lemma preserves_bind {A B} (m : M St A) (k : A → M St B) :
  preserves R m → (∀ a, preserves R (k a)) → preserves R (bind m k).
Proof.
  intros Hm Hk s b s' (a & s1 & H1 & H2)%bind_inv.
  etrans; [by eapply Hm | by eapply Hk].
Qed.

Lemma preserves_forM_ {A} (f : A → M St unit) l :
  Forall (λ a, preserves R (f a)) l → preserves R (forM_ f l).
Proof.
  induction 1 as [|a l Ha _ IH]; cbn [forM_]; [apply preserves_ret|].
  apply preserves_bind; [done|]. intros _. apply IH.
Qed.

Lemma preserves_mapM {A B} (f : A → M St B) l :
  (∀ a, preserves R (f a)) → preserves R (mapM f l).
Proof.
  intros Hf. induction l as [|a l IH]; cbn [mapM]; [apply preserves_ret|].
  apply preserves_bind; [done|]. intros b.
  apply preserves_bind; [apply IH|]. intros bs. apply preserves_ret.
Qed.

Lemma preserves_whenSome {A} (f : A → M St unit) o :
  OptP (λ a, preserves R (f a)) o → preserves R (whenSome f o).
Proof. destruct o; [done|]. intros _. apply preserves_ret. Qed.

Section Visit.
Variable on_type : Ty → M St unit.
Variable on_expr : Stack → Expr → M St unit.
Hypothesis Htype : ∀ t, preserves R (on_type t).
Hypothesis Hexpr : ∀ stk e, preserves R (on_expr stk e).

Lemma visit_type_preserves t : preserves R (visit_type on_type t).
Proof.
  induction t using Ty_nested_ind; cbn [visit_type];
    (apply preserves_bind; [|intros _; apply Htype]).
  - apply preserves_forM_. eapply Forall_impl; [done|].
    intros n Hn. by apply preserves_forM_.
  - by apply preserves_forM_.
  - by apply preserves_forM_.
  - apply preserves_forM_. eapply Forall_impl; [done|].
    intros o Ho. by apply preserves_whenSome.
  - apply preserves_bind; [|intros _]; by apply preserves_whenSome.
  - done.
  - apply preserves_ret.
  - apply preserves_ret.
  - apply preserves_ret.
  - apply preserves_ret.
  - apply preserves_forM_. eapply Forall_impl; [done|].
    intros s Hs. by apply preserves_whenSome.
Qed.

Lemma visit_children_preserves stk (cs : list Expr) :
  Forall (λ e, ∀ stk, preserves R (visit on_type on_expr stk e)) cs →
  preserves R (forM_ (visit on_type on_expr stk) cs).
Proof.
  intros Hcs. apply preserves_forM_. eapply Forall_impl; [done|].
  intros e He. apply He.
Qed.

Lemma visit_child_preserves stk (c : option Expr) :
  OptP (λ e, ∀ stk, preserves R (visit on_type on_expr stk e)) c →
  preserves R (whenSome (visit on_type on_expr stk) c).
Proof. intros Hc. apply preserves_whenSome. destruct c; [apply Hc|done]. Qed.

Lemma visit_preserves e : ∀ stk, preserves R (visit on_type on_expr stk e).
Proof.
  induction e using Expr_nested_ind; intros stk; cbn [visit];
    (apply preserves_bind; [|intros _; apply Hexpr]);
    try apply preserves_ret;
    try (by apply visit_children_preserves);
    repeat first [apply visit_type_preserves
                  | apply preserves_bind; [|intros _]];
    try (by apply visit_children_preserves);
    try (by apply visit_child_preserves);
    try apply visit_type_preserves;
    try done.
  - apply preserves_forM_, Forall_forall. intros p _.
    apply preserves_whenSome. destruct (upper p); [|done].
    apply visit_type_preserves.
  - apply preserves_whenSome. destruct t; [|done].
    apply visit_type_preserves.
Qed.
End Visit.
End Preserves.

(** ** Relations kept by the visitor *)

Section StableRelations.
Context {S : Type} `{!Collaborators S}.
Implicit Types (r : Infer S) (stk : Stack).

Context (R : relation (Infer S)) `{!Stable R}.

Lemma g_preserves stk name : preserves R (g stk name).
Proof.
  unfold g. apply preserves_bind; [apply _|apply preserves_deref; apply _|].
  intros sc. apply preserves_bind; [apply _|apply preserves_get; apply _|].
  intros r. apply preserves_deref; apply _.
Qed.

Lemma g_ptr_preserves stk name : preserves R (g_ptr stk name).
Proof.
  unfold g_ptr. apply preserves_bind; [apply _|apply preserves_deref; apply _|].
  intros sc. apply preserves_bind; [apply _|apply preserves_get; apply _|].
  intros r. apply preserves_ret; apply _.
Qed.

Lemma lhs_preserves stk : preserves R (lhs stk).
Proof.
  unfold lhs. apply preserves_bind; [apply _|apply preserves_deref; apply _|].
  intros []; first [apply preserves_ret | apply preserves_crash]; apply _.
Qed.

Lemma call_type_preserves stk left right : preserves R (call_type stk left right).
Proof.
  unfold call_type. apply preserves_bind; [apply _| |].
  - destruct left, right;
      repeat first
        [ apply preserves_ret; apply _
        | apply preserves_crash; apply _
        | apply g_preserves
        | apply preserves_bind; [apply _| |intro]
        | match goal with
          | |- preserves _ (match ?x with _ => _ end) => destruct x
          end ].
  - intros fl. apply preserves_bind; [apply _|apply lhs_preserves|].
    intros name. apply preserves_bind; [apply _|apply g_preserves|].
    intros res. apply preserves_ret; apply _.
Qed.

Ltac step :=
  first
    [ apply preserves_ret; apply _
    | apply preserves_crash; apply _
    | apply preserves_deref; apply _
    | apply preserves_assert; apply _
    | apply g_preserves
    | apply g_ptr_preserves
    | apply lhs_preserves
    | apply call_type_preserves
    | apply stable_error
    | apply stable_subtype
    | apply stable_dynamic
    | apply stable_typeref
    | apply stable_member
    | apply stable_set_assigned
    | apply stable_set_type
    | apply preserves_mapM; [apply _|intro]
    | apply preserves_bind; [apply _| |intro]
    | match goal with
      | |- preserves _ (match ?x with _ => _ end) => destruct x
      | |- preserves _ (let '(_, _) := ?x in _) => destruct x
      end ].

Lemma post_preserves stk e : preserves R (post stk e).
Proof.
  destruct e; cbn [post];
    unfold post_Free, post_Ref, post_Oftype, post_Throw, post_Assign,
      post_Tuple, post_Select, post_reserved, post_Int, post_Float,
      post_Bool, post_Lambda, check_assigned, lambda_result,
      make_constant_type;
    repeat step.
Qed.

Lemma post_type_preserves t : preserves R (post_type t).
Proof.
  destruct t; cbn [post_type]; try (apply preserves_ret; apply _).
  unfold post_LookupRef. apply preserves_forM_; [apply _|].
  apply Forall_forall. intros [wparam arg] _. repeat step.
Qed.

Lemma run_related ast locals marks stream b r :
  run ast locals marks stream = Some (b, r) →
  R (new_Infer locals marks stream) r.
Proof.
  unfold run.
  destruct (visit post_type post [] ast (new_Infer locals marks stream))
    as [[[] r']|] eqn:Hvisit; [|done].
  intros [= _ <-].
  eapply (visit_preserves R); [| |done].
  - apply post_type_preserves.
  - apply post_preserves.
Qed.

End StableRelations.

(** ** Inverting the primitive steps *)

Section Steps.
Context {S : Type} `{!Collaborators S}.
Implicit Types (r : Infer S) (stk : Stack).

Lemma subtype_call_inv a b r res r' :
  subtype_call a b r = Some (res, r') →
  ∃ s ms, subtype_check a b (subtype r) = (res, s, ms) ∧
          r' = mkInfer (solver_writes ms (pass r)) s (symtab r) (annot r)
                 (history r ++ [CallSubtype a b res]).
Proof.
  destruct (subtype_check a b (subtype r)) as [[res0 s] ms] eqn:Hc.
  rewrite (subtype_call_eq _ _ _ _ _ _ Hc). intros [= <- <-]. eauto.
Qed.

Lemma dynamic_call_inv find call r res call' r' :
  dynamic_call find call r = Some ((res, call'), r') →
  ∃ s ms, subtype_dynamic find call (subtype r) = (res, call', s, ms) ∧
          r' = mkInfer (solver_writes ms (pass r)) s (symtab r) (annot r)
                 (history r ++ [CallDynamic find call res]).
Proof.
  destruct (subtype_dynamic find call (subtype r))
    as [[[res0 call0] s] ms] eqn:Hd.
  rewrite (dynamic_call_eq _ _ _ _ _ _ _ Hd). intros [= <- <- <-]. eauto.
Qed.

Lemma typeref_call_inv stk tr r res r' :
  typeref_call stk tr r = Some (res, r') →
  ∃ ms, lookup_typeref (symbols stk) tr (subtype r) = (res, ms) ∧
        r' = log (CallTyperef (symbols stk) tr res) (lookup_reports ms r).
Proof.
  destruct (lookup_typeref (symbols stk) tr (subtype r)) as [res0 ms] eqn:Hl.
  rewrite (typeref_call_eq _ _ _ _ _ Hl). intros [= <- <-]. eauto.
Qed.

Lemma member_call_inv receiver name r res r' :
  member_call receiver name r = Some (res, r') →
  ∃ ms, lookup_member receiver name (subtype r) = (res, ms) ∧
        r' = log (CallMember receiver name res) (lookup_reports ms r).
Proof.
  destruct (lookup_member receiver name (subtype r)) as [res0 ms] eqn:Hl.
  rewrite (member_call_eq _ _ _ _ _ Hl). intros [= <- <-]. eauto.
Qed.

Lemma update_local_inv stk name f r u r' :
  update_local stk name f r = Some (u, r') →
  ∃ sc l, symbols stk = Some sc ∧ symtab r !! (sc, name) = Some l ∧
          r' = mkInfer (pass r) (subtype r)
                 (<[(sc, name) := f l]> (symtab r)) (annot r) (history r).
Proof.
  unfold update_local. destruct (symbols stk) as [sc|] eqn:Hsc; [|done].
  rewrite bind_deref. intros (l & r1 & Hg & Hm)%bind_inv.
  apply g_inv in Hg as (-> & sc' & Hsc' & Hl).
  assert (sc' = sc) as -> by congruence.
  injection Hm as _ <-. eauto.
Qed.

End Steps.

(** ** The stream only grows *)

Section Kept.
Context {S : Type} `{!Collaborators S}.
Implicit Types (r : Infer S) (stk : Stack).

Lemma no_visitor_error_solver (ms : list string) :
  no_visitor_error (FromSolver <$> ms) = true.
Proof. by induction ms. Qed.

Lemma no_visitor_error_lookup (ms : list string) :
  no_visitor_error (FromLookup <$> ms) = bool_decide (ms = []).
Proof. by destruct ms. Qed.

Lemma extends_solver_writes r ms s m a h :
  extends r (mkInfer (solver_writes ms (pass r)) s m a h).
Proof.
  exists (FromSolver <$> ms). cbn.
  by rewrite no_visitor_error_solver, andb_true_r.
Qed.

Lemma extends_lookup_reports r ms c :
  extends r (log c (lookup_reports ms r)).
Proof.
  exists (FromLookup <$> ms). cbn.
  by rewrite lookup_reports_out, lookup_reports_ok, no_visitor_error_lookup.
Qed.

Lemma extends_same_pass r r' : pass r' = pass r → extends r r'.
Proof. intros Hp. exists []. by rewrite Hp, app_nil_r, andb_true_r. Qed.

#[local] Instance extends_stable : Stable extends.
Proof.
  split.
  - split; [intros r; by apply extends_same_pass|].
    intros r1 r2 r3 (n1 & Ho1 & Hk1) (n2 & Ho2 & Hk2). exists (n1 ++ n2).
    rewrite Ho2, Ho1, Hk2, Hk1. unfold no_visitor_error.
    by rewrite forallb_app, app_assoc, andb_assoc.
  - intros d r [] r' [= <-]. exists [Visitor d]. cbn.
    by rewrite andb_false_r.
  - intros a b r res r' (s & ms & _ & ->)%subtype_call_inv.
    apply extends_solver_writes.
  - intros find call r [res call'] r' (s & ms & _ & ->)%dynamic_call_inv.
    apply extends_solver_writes.
  - intros stk tr r res r' (ms & _ & ->)%typeref_call_inv.
    apply extends_lookup_reports.
  - intros receiver name r res r' (ms & _ & ->)%member_call_inv.
    apply extends_lookup_reports.
  - intros stk name r u r' (sc & l & _ & _ & ->)%update_local_inv.
    by apply extends_same_pass.
  - intros stk name t r u r' (sc & l & _ & _ & ->)%update_local_inv.
    by apply extends_same_pass.
Qed.

Lemma run_extends ast locals marks stream b r :
  run ast locals marks stream = Some (b, r) →
  ∃ new, out (pass r) = stream ++ new ∧
         ok (pass r) = no_visitor_error new.
Proof. intros Hrun. by apply (run_related extends) in Hrun. Qed.

End Kept.

(** ** Sequencing steps that complete *)

Section Returns.
Context {St : Type} (I : St → Prop).

Lemma returns_ret {A} (a : A) (Q : A → Prop) : Q a → returns I (ret a) Q.
Proof. intros Ha s Hs. by exists a, s. Qed.

Lemma returns_bind {A B} (m : M St A) (k : A → M St B) Q Q' :
  returns I m Q → (∀ a, Q a → returns I (k a) Q') → returns I (bind m k) Q'.
Proof.
  intros Hm Hk s Hs. destruct (Hm s Hs) as (a & s1 & Hms & Hs1 & Ha).
  destruct (Hk a Ha s1 Hs1) as (b & s2 & Hks & Hs2 & Hb).
  exists b, s2. by rewrite (bind_Some _ _ _ _ _ Hms).
Qed.

Lemma total_ret {A} (a : A) : total I (ret a).
Proof. by apply returns_ret. Qed.

Lemma total_bind {A B} (m : M St A) (k : A → M St B) :
  total I m → (∀ a, total I (k a)) → total I (bind m k).
Proof. intros Hm Hk. eapply returns_bind; [apply Hm|]. intros a _. apply Hk. Qed.

Lemma total_assert : total I (assert true).
Proof. apply total_ret. Qed.

Lemma total_forM_ {A} (f : A → M St unit) l :
  Forall (λ a, total I (f a)) l → total I (forM_ f l).
Proof.
  induction 1 as [|a l Ha _ IH]; cbn [forM_]; [apply total_ret|].
  eapply returns_bind; [apply Ha|]. intros _ _. apply IH.
Qed.

Lemma total_mapM {A B} (f : A → M St B) l :
  Forall (λ a, total I (f a)) l → total I (mapM f l).
Proof.
  induction 1 as [|a l Ha _ IH]; cbn [mapM]; [apply total_ret|].
  eapply returns_bind; [apply Ha|]. intros b _.
  eapply returns_bind; [apply IH|]. intros bs _. apply total_ret.
Qed.

Lemma total_whenSome {A} (f : A → M St unit) o :
  OptP (λ a, total I (f a)) o → total I (whenSome f o).
Proof. destruct o; [done|]. intros _. apply total_ret. Qed.
End Returns.

Section VisitTotal.
Context {St : Type} (I : St → Prop).
Variable on_type : Ty → M St unit.
Variable on_expr : Stack → Expr → M St unit.
Variable node_ok : Stack → Expr → bool.
Hypothesis Htype : ∀ t, total I (on_type t).
Hypothesis Hexpr : ∀ stk e, node_ok stk e = true → total I (on_expr stk e).

Lemma visit_type_total t : total I (visit_type on_type t).
Proof.
  induction t using Ty_nested_ind; cbn [visit_type];
    (apply total_bind; [|intros _; apply Htype]).
  - apply total_forM_. eapply Forall_impl; [done|].
    intros n Hn. by apply total_forM_.
  - by apply total_forM_.
  - by apply total_forM_.
  - apply total_forM_. eapply Forall_impl; [done|].
    intros o Ho. by apply total_whenSome.
  - apply total_bind; [|intros _]; by apply total_whenSome.
  - done.
  - apply total_ret.
  - apply total_ret.
  - apply total_ret.
  - apply total_ret.
  - apply total_forM_. eapply Forall_impl; [done|].
    intros s Hs. by apply total_whenSome.
Qed.

Lemma visit_children_total stk (cs : list Expr) :
  Forall (λ e, ∀ stk, checked node_ok stk e = true →
                      total I (visit on_type on_expr stk e)) cs →
  forallb (checked node_ok stk) cs = true →
  total I (forM_ (visit on_type on_expr stk) cs).
Proof.
  intros Hcs Hok. apply total_forM_.
  rewrite forallb_forall in Hok. rewrite Forall_forall in Hcs |- *.
  intros e He. apply Hcs; [done|]. apply Hok. by apply list_elem_of_In.
Qed.

Lemma visit_child_total stk (c : option Expr) :
  OptP (λ e, ∀ stk, checked node_ok stk e = true →
                    total I (visit on_type on_expr stk e)) c →
  from_option (checked node_ok stk) true c = true →
  total I (whenSome (visit on_type on_expr stk) c).
Proof. intros Hc Hok. apply total_whenSome. destruct c; [by apply Hc|done]. Qed.

Lemma visit_total e :
  ∀ stk, checked node_ok stk e = true →
         total I (visit on_type on_expr stk e).
Proof.
  induction e using Expr_nested_ind; intros stk Hok; cbn [checked] in Hok;
    repeat (apply andb_prop in Hok as [Hok ?]); cbn [visit];
    (apply total_bind; [|intros _; by apply Hexpr]);
    try apply total_ret;
    try (by apply visit_children_total);
    repeat first [apply visit_type_total
                | apply total_bind; [|intros _]];
    try (by apply visit_children_total);
    try (by apply visit_child_total);
    try apply visit_type_total;
    try (by auto).
  - apply total_forM_, Forall_forall. intros p _.
    apply total_whenSome. destruct (upper p); [|done].
    apply visit_type_total.
  - apply total_whenSome. destruct t; [|done]. apply visit_type_total.
Qed.
End VisitTotal.

(** ** The validator (C9) *)

Lemma forallb_Forall {A} (f : A → bool) l :
  Forall (λ a, f a = true) l → forallb f l = true.
Proof. induction 1 as [|a l Ha _ IH]; [done|]. cbn. by rewrite Ha, IH. Qed.

Lemma checked_always stk e : checked (λ _ _, true) stk e = true.
Proof.
  revert stk.
  assert (Hall : ∀ stk (cs : list Expr),
    Forall (λ e, ∀ stk, checked (λ _ _, true) stk e = true) cs →
    forallb (checked (λ _ _, true) stk) cs = true).
  { intros stk cs Hcs. apply forallb_Forall. eapply Forall_impl; [done|].
    intros c Hc. apply Hc. }
  assert (Hopt : ∀ stk (c : option Expr),
    OptP (λ e, ∀ stk, checked (λ _ _, true) stk e = true) c →
    from_option (checked (λ _ _, true) stk) true c = true).
  { intros stk [c|] Hc; [apply Hc|done]. }
  induction e using Expr_nested_ind; intros stk; cbn [checked];
    rewrite ?andb_true_r; try done;
    rewrite ?Hall, ?Hopt, ?IHe1, ?IHe2 by done; done.
Qed.

(** C9. On every tree, [wellformed] writes nothing for the [InferType]
    nodes it meets (the "Unresolved type." report is not emitted) and
    returns true: it completes with the stream as it was given. *)
Theorem wellformed_accepts_every_tree ast stream :
  wellformed ast stream = Some (true, mkPass true stream).
Proof.
  unfold wellformed.
  destruct (visit_total (λ p, p = mkPass true stream) WF_post_type WF_post
              (λ _ _, true)) with (e := ast) (stk := [] : Stack)
                                  (s := mkPass true stream)
    as ([] & p & -> & -> & _); try done.
  - intros t. destruct t; apply total_ret.
  - intros stk e _. apply total_ret.
  - apply checked_always.
Qed.

Section Completes.
Context {S : Type} `{!Collaborators S}.
Variable m : gmap (Location * Location) Local.
Implicit Types (r : Infer S) (stk : Stack).

Local Abbreviation covered := (covers (S:=S) m).

Lemma covers_same_symtab r r' :
  symtab r' = symtab r → covered r → covered r'.
Proof. intros Heq Hr k l Hk. rewrite Heq. by apply Hr. Qed.

Lemma returns_g stk name :
  bound m stk name = true → returns covered (g stk name) (λ _, True).
Proof.
  unfold bound. destruct (symbols stk) as [sc|] eqn:Hsc; [|done].
  intros [l Hl]%bool_decide_eq_true r Hr.
  destruct (Hr _ _ Hl) as (l' & Hl' & _).
  exists l', r. by rewrite (g_Some _ _ _ _ _ Hsc Hl').
Qed.

Lemma returns_g_ptr stk name :
  bound m stk name = true →
  returns covered (g_ptr stk name) (λ lp, is_Some lp).
Proof.
  unfold bound. destruct (symbols stk) as [sc|] eqn:Hsc; [|done].
  intros [l Hl]%bool_decide_eq_true r Hr.
  destruct (Hr _ _ Hl) as (l' & Hl' & _).
  exists (Some l'), r. by rewrite (g_ptr_Some _ _ _ _ Hsc), Hl'.
Qed.

Lemma returns_g_typed stk name :
  typed m stk name = true →
  returns covered (g stk name) (λ l, is_Some (l_type l)).
Proof.
  unfold typed. destruct (symbols stk) as [sc|] eqn:Hsc; [|done].
  destruct (m !! (sc, name)) as [l|] eqn:Hl; [|done].
  intros Ht%bool_decide_eq_true r Hr.
  destruct (Hr _ _ Hl) as (l' & Hl' & Ht').
  exists l', r. rewrite (g_Some _ _ _ _ _ Hsc Hl'). auto.
Qed.

Lemma returns_lhs stk :
  lhs_bound m stk = true →
  returns covered (lhs stk) (λ name, bound m stk name = true).
Proof.
  unfold lhs_bound.
  destruct (parent_of KAssign stk) as [p|] eqn:Hp; [|done].
  destruct p; try done. intros Hb r Hr.
  eexists _, r. by rewrite (lhs_Some _ _ _ _ _ Hp).
Qed.

Lemma total_error d : total covered (error d).
Proof. intros r Hr. eexists tt, _. split; [done|]. split; [|done]. done. Qed.

Lemma total_subtype_call a b : total covered (subtype_call a b).
Proof.
  intros r Hr.
  destruct (subtype_check a b (subtype r)) as [[res s] ms] eqn:Hc.
  eexists _, _. rewrite (subtype_call_eq _ _ _ _ _ _ Hc). done.
Qed.

Lemma total_dynamic_call find call : total covered (dynamic_call find call).
Proof.
  intros r Hr.
  destruct (subtype_dynamic find call (subtype r))
    as [[[res call'] s] ms] eqn:Hd.
  eexists _, _. rewrite (dynamic_call_eq _ _ _ _ _ _ _ Hd). done.
Qed.

Lemma total_typeref_call stk tr : total covered (typeref_call stk tr).
Proof.
  intros r Hr.
  destruct (lookup_typeref (symbols stk) tr (subtype r)) as [res ms] eqn:Hl.
  eexists _, _. rewrite (typeref_call_eq _ _ _ _ _ Hl).
  split_and!; [done| |done].
  eapply covers_same_symtab; [|done]. cbn. apply lookup_reports_frame.
Qed.

Lemma total_member_call receiver name :
  total covered (member_call receiver name).
Proof.
  intros r Hr.
  destruct (lookup_member receiver name (subtype r)) as [res ms] eqn:Hl.
  eexists _, _. rewrite (member_call_eq _ _ _ _ _ Hl).
  split_and!; [done| |done].
  eapply covers_same_symtab; [|done]. cbn. apply lookup_reports_frame.
Qed.

Lemma total_update_local stk name f :
  bound m stk name = true →
  (∀ l, is_Some (l_type l) → is_Some (l_type (f l))) →
  total covered (update_local stk name f).
Proof.
  unfold bound. destruct (symbols stk) as [sc|] eqn:Hsc; [|done].
  intros [l Hl]%bool_decide_eq_true Hf r Hr.
  destruct (Hr _ _ Hl) as (l' & Hl' & Ht').
  eexists tt, _. rewrite (update_local_Some _ _ _ _ _ _ Hsc Hl').
  split_and!; [done| |done].
  intros k l0 Hk. cbn. destruct (decide (k = (sc, name))) as [->|Hne].
  - rewrite lookup_insert_eq. eexists; split; [done|].
    assert (l0 = l) as -> by congruence. auto.
  - rewrite lookup_insert_ne by done. by apply Hr.
Qed.

Lemma parent_of_kind k stk p : parent_of k stk = Some p → kind p = k.
Proof.
  unfold parent_of. intros (f & Hhd & ->)%fmap_Some.
  apply head_Some_elem_of in Hhd. by apply list_elem_of_filter in Hhd as [? _].
Qed.

Lemma parent_of_parent stk p :
  parent stk = Some p → parent_of (kind p) stk = Some p.
Proof.
  unfold parent, parent_of. destruct stk as [|f stk]; [done|].
  cbn. intros [= <-]. by rewrite decide_True.
Qed.

Lemma returns_bind_deref {A B} (a : A) (k : A → M (Infer S) B) Q :
  returns covered (k a) Q →
  returns covered (bind (deref (Some a)) k) Q.
Proof. intros Hk r Hr. apply Hk, Hr. Qed.

Ltac prim :=
  first
    [ by apply returns_g
    | by apply returns_g_typed
    | by apply returns_lhs
    | apply total_error
    | apply total_subtype_call
    | apply total_dynamic_call
    | apply total_typeref_call
    | apply total_member_call
    | by apply total_update_local
    | apply total_ret
    | apply total_assert ].

Ltac chain :=
  repeat first
    [ progress unfold total
    | prim
    | eapply returns_bind; [prim|intros ? ?]
    | match goal with
      | |- returns _ (if negb ?b then _ else _) _ => destruct b; cbn [negb]
      end ].

Lemma total_check_assigned l ref : total covered (check_assigned l ref).
Proof. unfold check_assigned. chain. Qed.

Lemma total_call_type stk left right :
  match left, right with
  | Some l, Some r => typed m stk (location l) && typed m stk (location r)
  | Some c, None | None, Some c => bound m stk (location c)
  | None, None => true
  end = true →
  lhs_bound m stk = true →
  total covered (call_type stk left right).
Proof.
  intros Hargs Hlhs. unfold call_type.
  eapply returns_bind; [|intros fl _; chain].
  destruct left as [l|], right as [r|]; [| chain ..].
  apply andb_prop in Hargs as [Hl Hr].
  eapply returns_bind; [prim|intros ll [lt Hlt]].
  eapply returns_bind; [prim|intros rl [rt Hrt]].
  rewrite Hlt, Hrt. apply total_ret.
Qed.

Lemma total_make_constant_type stk name :
  total covered (make_constant_type stk name).
Proof.
  unfold make_constant_type. eapply returns_bind; [prim|intros found _].
  destruct found; apply total_ret.
Qed.

Lemma total_post_Select stk loc expr typeref args :
  resolves m stk (Select loc expr typeref args) = true →
  total covered (post_Select stk loc expr typeref args).
Proof.
  cbn [resolves]. intros [Hargs Hlhs]%andb_prop. unfold post_Select.
  eapply returns_bind; [by apply total_call_type|intros call _].
  eapply returns_bind; [|intros [done call'] _].
  { instantiate (1 := λ _, True).
    destruct (fn_left call); [destruct typeref.2 as [|name [|]]|]; chain. }
  destruct done; [apply total_ret|].
  eapply returns_bind; [prim|intros find _].
  destruct find as [f|]; [case_bool_decide|]; chain.
Qed.

Lemma total_post_Ref stk ref :
  resolves m stk (Ref ref) = true → total covered (post_Ref stk ref).
Proof.
  cbn [resolves]. unfold post_Ref.
  destruct (parent stk) as [p|]; [|done]. intros Hok.
  apply returns_bind_deref. case_bool_decide as Hk; [apply total_ret|].
  rewrite orb_false_l in Hok. apply andb_prop in Hok as [Href Hp].
  eapply returns_bind; [by apply returns_g_ptr|intros lp [l ->]].
  destruct p; try (apply returns_bind_deref, total_check_assigned).
  - destruct (is_left_child stk); [apply total_ret|].
    rewrite orb_false_l in Hp. apply returns_bind_deref.
    eapply returns_bind; [prim|intros al _].
    eapply returns_bind; [prim|intros ? _]. apply total_check_assigned.
  - apply returns_bind_deref.
    eapply returns_bind; [prim|intros res _].
    eapply returns_bind; [|intros ? _; apply total_check_assigned].
    instantiate (1 := λ _, True). chain.
Qed.

Lemma total_post_Throw stk expr :
  resolves m stk (Throw "" expr) = true → total covered (post_Throw stk expr).
Proof.
  cbn [resolves]. intros [Hb [lam Hlam]%bool_decide_eq_true]%andb_prop.
  unfold post_Throw, lambda_result. rewrite Hlam.
  pose proof (parent_of_kind _ _ _ Hlam) as Hk.
  eapply returns_bind; [prim|intros l _].
  eapply returns_bind; [|intros result _; chain].
  instantiate (1 := λ _, True). apply returns_bind_deref.
  destruct lam; try done. apply total_ret.
Qed.

Lemma total_post_Tuple stk loc seq :
  resolves m stk (Tuple loc seq) = true → total covered (post_Tuple stk loc seq).
Proof.
  cbn [resolves]. intros [Hseq Hlhs]%andb_prop. unfold post_Tuple.
  eapply returns_bind; [|intros types _].
  { apply total_mapM. apply Forall_forall. intros c Hc%list_elem_of_In.
    rewrite forallb_forall in Hseq. specialize (Hseq c Hc). cbn in Hseq.
    chain. }
  eapply returns_bind; [prim|intros name Hname].
  apply total_update_local; [done|]. intros l _. by eexists.
Qed.

Lemma total_post_literal stk name lit sides :
  lhs_bound m stk = true →
  total covered
    (t <- make_constant_type stk name ;;
     match t with
     | None => error (NoTypeInScope name lit)
     | Some t =>
         x <- lhs stk ;;
         l <- g stk x ;;
         subtype_call (sides t (l_type l)).1 (sides t (l_type l)).2 ;;; ret tt
     end).
Proof.
  intros Hlhs.
  eapply returns_bind; [apply total_make_constant_type|intros t _].
  destruct t; chain.
Qed.

Lemma total_post_Lambda stk lambda :
  kind lambda = KLambda →
  resolves m stk lambda = true → total covered (post_Lambda stk lambda).
Proof.
  destruct lambda; try done. intros _. cbn [resolves]. unfold post_Lambda.
  destruct (parent stk) as [p|] eqn:Hp; [|done]. intros Hok.
  apply returns_bind_deref.
  pose proof (parent_of_parent _ _ Hp) as Hpp.
  destruct p; cbn [kind] in *; try apply total_ret.
  - chain.
  - apply andb_prop in Hok as [->%bool_decide_eq_true ->%bool_decide_eq_true].
    chain.
  - apply andb_prop in Hok as [->%bool_decide_eq_true ->%bool_decide_eq_true].
    rewrite Hpp. cbn [length].
    eapply returns_bind; [prim|intros ? _].
    eapply returns_bind; [prim|intros ? _].
    apply returns_bind_deref. chain.
Qed.

Lemma post_total stk e :
  resolves m stk e = true → total covered (post stk e).
Proof.
  intros Hok. destruct e; cbn [post]; try apply total_ret.
  - unfold post_Free. cbn [resolves] in Hok. chain.
  - by apply total_post_Ref.
  - unfold post_Oftype. cbn [resolves] in Hok. chain.
  - by apply (total_post_Throw stk).
  - unfold post_Assign. cbn [resolves] in Hok.
    eapply returns_bind; [prim|intros l _].
    destruct (negb (l_assigned l) || bool_decide (l_kind l = KVar)); chain.
  - by apply total_post_Tuple.
  - by apply total_post_Select.
  - by apply (total_post_literal stk _ _ (λ t lt, (lt, Some t))).
  - by apply (total_post_literal stk _ _ (λ t lt, (lt, Some t))).
  - by apply (total_post_literal stk _ _ (λ t lt, (Some t, lt))).
  - by apply total_post_Lambda.
Qed.

Lemma post_type_total t : total covered (post_type t).
Proof.
  destruct t; cbn [post_type]; try apply total_ret.
  unfold post_LookupRef. apply total_forM_, Forall_forall.
  intros [wparam arg] _. destruct wparam; chain.
Qed.

Lemma visit_completes stk e r :
  checked (resolves m) stk e = true →
  covered r →
  ∃ r', visit post_type post stk e r = Some (tt, r') ∧ covered r'.
Proof.
  intros Hok Hr.
  destruct (visit_total covered post_type post (resolves m)
              post_type_total post_total e stk Hok r Hr)
    as ([] & r' & Hv & Hr' & _).
  by exists r'.
Qed.

End Completes.

(** * The visitor on concrete trees *)

(** C7 at [f(d, p)] on the right of [x = ...]: [d] has an inferred type
    and [p] a pair type, so the argument side has three components. *)
Lemma call_type_builds_call_witness :
  call_type (Sample.at_rhs (Let "x") Sample.call_f)
    (Some (Ref "d")) (Some (Ref "p")) Sample.start
  = Some (FunctionType ""
            (Some (TupleType "d" [Some (InferType "d"); Some (InferType "p0");
                                  Some (InferType "p1")]))
            (Some (InferType "x")),
          Sample.start).
Proof.
  pose proof (call_type_builds_call
                (Sample.at_rhs (Let "x") Sample.call_f) Sample.start
                "main" "asn" (Let "x") Sample.call_f
                (mkLocal KLet "x" (Some (InferType "x")) false)
                (Some (Ref "d")) (Some (Ref "p"))
                eq_refl eq_refl eq_refl) as (_ & _ & Hboth).
  exact (Hboth (Ref "d") (Ref "p")
           (mkLocal KLet "d" (Some (InferType "d")) true)
           (mkLocal KLet "p"
              (Some (TupleType "p" [Some (InferType "p0");
                                    Some (InferType "p1")])) true)
           (InferType "d")
           (TupleType "p" [Some (InferType "p0"); Some (InferType "p1")])
           eq_refl eq_refl eq_refl eq_refl eq_refl eq_refl).
Defined.

(** C3 at [x = 3]: the literal submits [x's type <: imm & Integer]. *)
Lemma literals_submit_bounds_witness :
  ∃ r' res written,
    post_Int (Sample.at_rhs (Let "x") (Int "3")) "3" Sample.start
    = Some (tt, r') ∧
    subtype_check (Some (InferType "x")) (Some (imm_and "Integer"))
      (subtype Sample.start) = (res, subtype r', written) ∧
    history r' =
      [CallTyperef (Some "main") (constant_ref "Integer")
         (Some (LookupRef "Integer" "Integer" []));
       CallSubtype (Some (InferType "x")) (Some (imm_and "Integer")) res] ∧
    symtab r' = symtab Sample.start.
Proof.
  exact (proj1 literals_submit_bounds
           (Sample.at_rhs (Let "x") (Int "3")) Sample.start
           "main" "asn" (Let "x") (Int "3")
           (mkLocal KLet "x" (Some (InferType "x")) false) "3"
           (LookupRef "Integer" "Integer" []) []
           eq_refl eq_refl eq_refl eq_refl).
Defined.

(** C10 at a literal in a scope that does not see [Integer]. *)
Lemma literal_without_type_reports_once_witness :
  ∃ r',
    post_Int (Sample.at_rhs_elsewhere (Let "x") (Int "3")) "3" Sample.start
    = Some (tt, r') ∧
    out (pass r') = [Visitor (NoTypeInScope "Integer" "3")] ∧
    ok (pass r') = false ∧
    history r' = [CallTyperef (Some "other") (constant_ref "Integer") None] ∧
    subtype r' = subtype Sample.start ∧
    symtab r' = symtab Sample.start.
Proof.
  exact (proj1 literal_without_type_reports_once
           (Sample.at_rhs_elsewhere (Let "x") (Int "3"))
           Sample.start "3" [] eq_refl).
Defined.

(** C5 at [d = 3], [d] being a [Let] that is already assigned, and at
    [x = 3], [x] being a fresh [Let]. *)
Lemma assign_marks_or_rejects_witness :
  (∃ r', post_Assign (Sample.at_stmt (Ref "d") (Int "3")) (Ref "d") (Int "3")
           Sample.start = Some (tt, r') ∧
         out (pass r') = [Visitor (AlreadyAssigned "3" "d")] ∧
         ok (pass r') = false ∧
         symtab r' = symtab Sample.start) ∧
  (∃ r', post_Assign (Sample.at_stmt (Let "x") (Int "3")) (Let "x") (Int "3")
           Sample.start = Some (tt, r') ∧
         symtab r' !! ("main", "x")
         = Some (mkLocal KLet "x" (Some (InferType "x")) true)).
Proof.
  split.
  - exact (proj1 (assign_marks_or_rejects
                    (Sample.at_stmt (Ref "d") (Int "3")) Sample.start "main"
                    (Ref "d") (Int "3")
                    (mkLocal KLet "d" (Some (InferType "d")) true)
                    eq_refl eq_refl) eq_refl eq_refl).
  - destruct (proj2 (assign_marks_or_rejects
                       (Sample.at_stmt (Let "x") (Int "3")) Sample.start "main"
                       (Let "x") (Int "3")
                       (mkLocal KLet "x" (Some (InferType "x")) false)
                       eq_refl eq_refl) (or_intror eq_refl))
      as (r' & Hpost & Hsym & _).
    exists r'. split; [exact Hpost|]. rewrite Hsym. apply lookup_insert_eq.
Defined.

(** C6 at [y = x] with [x] unassigned: the use on the right is reported. *)
Lemma ref_reports_use_before_assignment_witness :
  ∃ r' new,
    post_Ref (Sample.at_rhs (Let "y") (Ref "x")) "x" Sample.start
    = Some (tt, r') ∧
    out (pass r') = out (pass Sample.start) ++ new ∧
    (Visitor (UsedBeforeAssignment "x") ∈ new ↔ false = false) ∧
    message (UsedBeforeAssignment "x") = "Variable used before assignment".
Proof.
  refine (proj2 (proj2 (ref_reports_use_before_assignment
            (Sample.at_rhs (Let "y") (Ref "x")) Sample.start "x"
            (Assign "asn" (Let "y") (Ref "x")) eq_refl))
            "main" (mkLocal KLet "x" (Some (InferType "x")) false)
            _ _ eq_refl eq_refl _).
  - discriminate.
  - intros [_ Hleft]. discriminate Hleft.
  - intros loc al ar [= _ <- _]. eexists. reflexivity.
Defined.

(** C8 at a reference with one live parameter, bounded by [Any], and one
    expired: a single constraint is submitted. *)
Lemma lookupref_submits_upper_bounds_witness :
  ∃ r' new written,
    post_LookupRef
      [(Some ("T", Some (TypeRef "Any" [("Any", [])])), Some (InferType "a"));
       (None, Some (InferType "b"))] Sample.start = Some (tt, r') ∧
    history r' = history Sample.start ++ new ∧
    omap submitted new
    = [(Some (InferType "a"), Some (TypeRef "Any" [("Any", [])]))] ∧
    length new = 1 ∧
    submit_all [(Some (InferType "a"), Some (TypeRef "Any" [("Any", [])]))]
      (subtype Sample.start) = (new, subtype r', written).
Proof.
  destruct (lookupref_submits_upper_bounds
              [(Some ("T", Some (TypeRef "Any" [("Any", [])])),
                Some (InferType "a"));
               (None, Some (InferType "b"))] Sample.start)
    as (r' & new & written & Hpost & Hh & Hnew & Hlen & _ & Hsub & _).
  exists r', new, written. split; [exact Hpost|]. split; [exact Hh|].
  split; [exact Hnew|]. split; [exact Hlen|exact Hsub].
Defined.

(** C9 on a tree whose result type is still an inference variable. *)
Example wellformed_with_unsolved_type :
  wellformed Sample.use_before [FromSolver "earlier"]
  = Some (true, mkPass true [FromSolver "earlier"]).
Proof. vm_compute. reflexivity. Qed.

(** C2 at [x = d.m]: one name and a receiver, so the member is looked
    up on the receiver's type, [subtype.dynamic] accepts, and the handler
    stops there.  At [y = f(d, p)] no member is found, [subtype.dynamic]
    refuses, and static dispatch follows. *)
Lemma select_attempts_dynamic_then_static_witness :
  (∃ r',
     post_Select (Sample.at_rhs (Let "x") Sample.call_m) "d.m"
       (Some (Ref "d")) ("m", [("m", [])]) None Sample.start = Some (tt, r') ∧
     after_attempt Sample.start (Some (InferType "d")) ("m", [])
       [LookupRef "m" "m" []]
       (FunctionType "" (Some (InferType "d")) (Some (InferType "x")))
       true
       (Sample.mkSolver
          [(Some (LookupRef "m" "m" []),
            Some (FunctionType "" (Some (InferType "d"))
                    (Some (InferType "x"))))] true)
       [] [] r') ∧
  (∃ r1 r',
     post_Select (Sample.at_rhs (Let "y") Sample.call_f) "f(d,p)"
       (Some (Ref "d")) ("f", [("f", [])]) (Some (Ref "p")) Sample.start
     = Some (tt, r') ∧
     after_attempt Sample.start (Some (InferType "d")) ("f", []) []
       (FunctionType ""
          (Some (TupleType "d" [Some (InferType "d"); Some (InferType "p0");
                                Some (InferType "p1")]))
          (Some (InferType "y")))
       false (Sample.mkSolver [] true) [] [] r1 ∧
     static_dispatch (Sample.at_rhs (Let "y") Sample.call_f) "f(d,p)"
       ("f", [("f", [])])
       (FunctionType ""
          (Some (TupleType "d" [Some (InferType "d"); Some (InferType "p0");
                                Some (InferType "p1")]))
          (Some (InferType "y")))
       r1 r').
Proof.
  split.
  - destruct (select_attempts_dynamic_then_static
                (Sample.at_rhs (Let "x") Sample.call_m) "d.m"
                (Some (Ref "d")) ("m", [("m", [])]) None Sample.start
                (FunctionType "" (Some (InferType "d")) (Some (InferType "x")))
                eq_refl)
      as (r' & new & Hpost & _ & _ & Hattempt & _).
    destruct (Hattempt (InferType "d") ("m", []) [LookupRef "m" "m" []] []
                true
                (FunctionType "" (Some (InferType "d")) (Some (InferType "x")))
                (Sample.mkSolver
                   [(Some (LookupRef "m" "m" []),
                     Some (FunctionType "" (Some (InferType "d"))
                             (Some (InferType "x"))))] true)
                [] eq_refl eq_refl eq_refl eq_refl) as (r1 & Hafter & Heq).
    exists r'. split; [exact Hpost|]. rewrite Heq. exact Hafter.
  - destruct (select_attempts_dynamic_then_static
                (Sample.at_rhs (Let "y") Sample.call_f) "f(d,p)"
                (Some (Ref "d")) ("f", [("f", [])]) (Some (Ref "p"))
                Sample.start
                (FunctionType ""
                   (Some (TupleType "d" [Some (InferType "d");
                                         Some (InferType "p0");
                                         Some (InferType "p1")]))
                   (Some (InferType "y")))
                eq_refl)
      as (r' & new & Hpost & _ & _ & Hattempt & _).
    destruct (Hattempt
                (TupleType "d" [Some (InferType "d"); Some (InferType "p0");
                                Some (InferType "p1")])
                ("f", []) [] [] false
                (FunctionType ""
                   (Some (TupleType "d" [Some (InferType "d");
                                         Some (InferType "p0");
                                         Some (InferType "p1")]))
                   (Some (InferType "y")))
                (Sample.mkSolver [] true) []
                eq_refl eq_refl eq_refl eq_refl) as (r1 & Hafter & Hstatic).
    exists r1, r'. split; [exact Hpost|]. split; [exact Hafter|exact Hstatic].
Defined.

(** On [y = x; x = 3] the error of the first statement does not end the
    run: the literal of the second statement is still looked up and
    submitted. *)
Example run_use_before :
  (λ '(b, r), (b, out (pass r), history r))
    <$> run Sample.use_before Sample.locals ∅ []
  = Some (false,
          [Visitor (UsedBeforeAssignment "x")],
          [CallSubtype (Some (InferType "x")) (Some (InferType "y")) true;
           CallTyperef (Some "main") (constant_ref "Integer")
             (Some (LookupRef "Integer" "Integer" []));
           CallSubtype (Some (InferType "x")) (Some (imm_and "Integer"))
             true]).
Proof. vm_compute. reflexivity. Qed.

(** C1. On [x = d.m; y = f(d, p)] the run succeeds: the first call is
    accepted by [subtype.dynamic], the second goes through the static
    lookup and its constraint is accepted by the solver.  Neither call
    site carries a dispatch annotation afterwards: where the handler
    would rewrite the node as dynamic or static dispatch, [post(Select&)]
    has a TODO comment and no statement. *)
Theorem call_sites_unmarked_after_run :
  ∃ r, run Sample.two_calls Sample.locals ∅ [] = Some (true, r) ∧
       dynamic_accepted (history r) = true ∧
       last (history r)
       = Some (CallSubtype (Some (LookupRef "f" "f" []))
                 (Some (FunctionType ""
                          (Some (TupleType "d"
                                   [Some (InferType "d");
                                    Some (InferType "p0");
                                    Some (InferType "p1")]))
                          (Some (InferType "y"))))
                 true) ∧
       annot r !! "d.m" = None ∧
       annot r !! "f(d,p)" = None.
Proof.
  destruct (run Sample.two_calls Sample.locals ∅ []) as [[b r]|] eqn:Hrun;
    vm_compute in Hrun; [|discriminate].
  injection Hrun as <- <-. eexists. split; [reflexivity|].
  repeat split; vm_compute; reflexivity.
Qed.

(** * Further properties *)

(** ** What a run keeps *)

Section RunInvariants.
Context {S : Type} `{!Collaborators S}.
Implicit Types (r : Infer S) (stk : Stack).

Lemma keeps_locals_same_symtab r r' : symtab r' = symtab r → keeps_locals r r'.
Proof. intros Heq. split; intros k; rewrite Heq; eauto 10. Qed.

Lemma keeps_locals_update r sc name l (f : Local → Local) p s a h :
  symtab r !! (sc, name) = Some l →
  l_kind (f l) = l_kind l →
  l_location (f l) = l_location l →
  (l_assigned l = true → l_assigned (f l) = true) →
  (is_Some (l_type l) → is_Some (l_type (f l))) →
  keeps_locals r (mkInfer p s (<[(sc, name) := f l]> (symtab r)) a h).
Proof.
  intros Hl Hk Hloc Ha Ht. split; cbn.
  - intros k Hnone. rewrite lookup_insert_ne; [done|]. congruence.
  - intros k l0 Hk0. destruct (decide (k = (sc, name))) as [->|Hne].
    + rewrite lookup_insert_eq. exists (f l).
      assert (l0 = l) as -> by congruence. done.
    + rewrite lookup_insert_ne by done. eauto 10.
Qed.

#[local] Instance keeps_locals_stable : Stable keeps_locals.
Proof.
  split.
  - split; [intros r; by apply keeps_locals_same_symtab|].
    intros r1 r2 r3 [Hn1 Hs1] [Hn2 Hs2]. split; [by auto|].
    intros k l Hl. destruct (Hs1 k l Hl) as (l1 & Hl1 & Hk1 & Ho1 & Ha1 & Ht1).
    destruct (Hs2 k l1 Hl1) as (l2 & Hl2 & Hk2 & Ho2 & Ha2 & Ht2).
    exists l2. split_and!; [done|congruence|congruence|by auto|by auto].
  - intros d r [] r' [= <-]. by apply keeps_locals_same_symtab.
  - intros a b r res r' (s & ms & _ & ->)%subtype_call_inv.
    by apply keeps_locals_same_symtab.
  - intros find call r [res call'] r' (s & ms & _ & ->)%dynamic_call_inv.
    by apply keeps_locals_same_symtab.
  - intros stk tr r res r' (ms & _ & ->)%typeref_call_inv.
    apply keeps_locals_same_symtab. cbn. apply lookup_reports_frame.
  - intros receiver name r res r' (ms & _ & ->)%member_call_inv.
    apply keeps_locals_same_symtab. cbn. apply lookup_reports_frame.
  - intros stk name r u r' (sc & l & _ & Hl & ->)%update_local_inv.
    by apply keeps_locals_update.
  - intros stk name t r u r' (sc & l & _ & Hl & ->)%update_local_inv.
    apply keeps_locals_update; by eauto.
Qed.

(** X1. A run neither adds nor removes a local; every local keeps its
    kind and name, a local that was assigned stays assigned, and a local
    that had a type still has one. *)
Theorem run_keeps_locals ast locals marks stream b r :
  run ast locals marks stream = Some (b, r) →
  (∀ k, locals !! k = None → symtab r !! k = None) ∧
  (∀ k l, locals !! k = Some l →
     ∃ l', symtab r !! k = Some l' ∧
           l_kind l' = l_kind l ∧
           l_location l' = l_location l ∧
           (l_assigned l = true → l_assigned l' = true) ∧
           (is_Some (l_type l) → is_Some (l_type l'))).
Proof. intros Hrun. by apply (run_related keeps_locals) in Hrun. Qed.

End RunInvariants.

(** ** What the pass does not read *)

Section Commutes.
Context {St : Type} (φ : St → St).

Lemma commutes_ret {A} (a : A) : commutes φ (ret a).
Proof. done. Qed.

Lemma commutes_crash {A} : commutes φ (crash : M St A).
Proof. done. Qed.

Lemma commutes_deref {A} (p : option A) : commutes φ (deref p).
Proof. by destruct p. Qed.

Lemma commutes_assert b : commutes φ (assert b).
Proof. by destruct b. Qed.

Lemma commutes_bind {A B} (m : M St A) (k : A → M St B) :
  commutes φ m → (∀ a, commutes φ (k a)) → commutes φ (bind m k).
Proof.
  intros Hm Hk s. unfold bind. rewrite Hm.
  destruct (m s) as [[a s1]|]; cbn; [apply Hk|done].
Qed.

Lemma commutes_forM_ {A} (f : A → M St unit) l :
  Forall (λ a, commutes φ (f a)) l → commutes φ (forM_ f l).
Proof.
  induction 1 as [|a l Ha _ IH]; cbn [forM_]; [apply commutes_ret|].
  apply commutes_bind; [done|]. intros _. apply IH.
Qed.

Lemma commutes_mapM {A B} (f : A → M St B) l :
  (∀ a, commutes φ (f a)) → commutes φ (mapM f l).
Proof.
  intros Hf. induction l as [|a l IH]; cbn [mapM]; [apply commutes_ret|].
  apply commutes_bind; [done|]. intros b.
  apply commutes_bind; [apply IH|]. intros bs. apply commutes_ret.
Qed.

Lemma commutes_whenSome {A} (f : A → M St unit) o :
  OptP (λ a, commutes φ (f a)) o → commutes φ (whenSome f o).
Proof. destruct o; [done|]. intros _. apply commutes_ret. Qed.

Section Visit.
Variable on_type : Ty → M St unit.
Variable on_expr : Stack → Expr → M St unit.
Hypothesis Htype : ∀ t, commutes φ (on_type t).
Hypothesis Hexpr : ∀ stk e, commutes φ (on_expr stk e).

Lemma visit_type_commutes t : commutes φ (visit_type on_type t).
Proof.
  induction t using Ty_nested_ind; cbn [visit_type];
    (apply commutes_bind; [|intros _; apply Htype]).
  - apply commutes_forM_. eapply Forall_impl; [done|].
    intros n Hn. by apply commutes_forM_.
  - by apply commutes_forM_.
  - by apply commutes_forM_.
  - apply commutes_forM_. eapply Forall_impl; [done|].
    intros o Ho. by apply commutes_whenSome.
  - apply commutes_bind; [|intros _]; by apply commutes_whenSome.
  - done.
  - apply commutes_ret.
  - apply commutes_ret.
  - apply commutes_ret.
  - apply commutes_ret.
  - apply commutes_forM_. eapply Forall_impl; [done|].
    intros s Hs. by apply commutes_whenSome.
Qed.

Lemma visit_children_commutes stk (cs : list Expr) :
  Forall (λ e, ∀ stk, commutes φ (visit on_type on_expr stk e)) cs →
  commutes φ (forM_ (visit on_type on_expr stk) cs).
Proof.
  intros Hcs. apply commutes_forM_. eapply Forall_impl; [done|].
  intros e He. apply He.
Qed.

Lemma visit_child_commutes stk (c : option Expr) :
  OptP (λ e, ∀ stk, commutes φ (visit on_type on_expr stk e)) c →
  commutes φ (whenSome (visit on_type on_expr stk) c).
Proof. intros Hc. apply commutes_whenSome. destruct c; [apply Hc|done]. Qed.

Lemma visit_commutes e : ∀ stk, commutes φ (visit on_type on_expr stk e).
Proof.
  induction e using Expr_nested_ind; intros stk; cbn [visit];
    (apply commutes_bind; [|intros _; apply Hexpr]);
    try apply commutes_ret;
    try (by apply visit_children_commutes);
    repeat first [apply visit_type_commutes
                  | apply commutes_bind; [|intros _]];
    try (by apply visit_children_commutes);
    try (by apply visit_child_commutes);
    try done.
  - apply commutes_forM_, Forall_forall. intros p _.
    apply commutes_whenSome. destruct (upper p); [|done].
    apply visit_type_commutes.
  - apply commutes_whenSome. destruct t; [|done].
    apply visit_type_commutes.
Qed.
End Visit.
End Commutes.

Section PassBlind.
Context {S : Type} `{!Collaborators S}.
Implicit Types (r : Infer S) (stk : Stack).

(** A change [f] of the [Pass] base that writing to the stream goes
    through. *)
Variable f : Pass → Pass.
Hypothesis f_report : ∀ e p, f (report e p) = report e (f p).
Hypothesis f_writes : ∀ ms p, f (solver_writes ms p) = solver_writes ms (f p).

Local Abbreviation changed := (with_pass (S:=S) f).

Lemma lookup_reports_with_pass ms r :
  lookup_reports ms (with_pass f r) = with_pass f (lookup_reports ms r).
Proof.
  unfold lookup_reports. revert r.
  induction ms as [|m ms IH]; intros r; cbn; [done|].
  rewrite <- IH. f_equal. unfold with_pass. cbn. by rewrite f_report.
Qed.

Lemma error_commutes d : commutes changed (error d).
Proof. intros r. cbn. unfold with_pass. cbn. by rewrite f_report. Qed.

Lemma subtype_call_commutes a b : commutes changed (subtype_call a b).
Proof.
  intros r. unfold subtype_call. cbn.
  destruct (subtype_check a b (subtype r)) as [[res s] ms]. cbn.
  unfold with_pass. cbn. by rewrite f_writes.
Qed.

Lemma dynamic_call_commutes find call :
  commutes changed (dynamic_call find call).
Proof.
  intros r. unfold dynamic_call. cbn.
  destruct (subtype_dynamic find call (subtype r)) as [[[res call'] s] ms].
  cbn. unfold with_pass. cbn. by rewrite f_writes.
Qed.

Lemma typeref_call_commutes stk tr : commutes changed (typeref_call stk tr).
Proof.
  intros r. unfold typeref_call. cbn.
  destruct (lookup_typeref (symbols stk) tr (subtype r)) as [res ms]. cbn.
  by rewrite lookup_reports_with_pass.
Qed.

Lemma member_call_commutes receiver name :
  commutes changed (member_call receiver name).
Proof.
  intros r. unfold member_call. cbn.
  destruct (lookup_member receiver name (subtype r)) as [res ms]. cbn.
  by rewrite lookup_reports_with_pass.
Qed.

Lemma g_commutes stk name : commutes changed (g stk name).
Proof.
  intros r. unfold g. destruct (symbols stk) as [sc|]; [|done].
  rewrite !bind_deref. unfold bind, get. cbn.
  by destruct (symtab r !! (sc, name)).
Qed.

Lemma g_ptr_commutes stk name : commutes changed (g_ptr stk name).
Proof.
  intros r. unfold g_ptr. by destruct (symbols stk) as [sc|].
Qed.

Lemma lhs_commutes stk : commutes changed (lhs stk).
Proof.
  intros r. unfold lhs. destruct (parent_of KAssign stk) as [p|]; [|done].
  rewrite !bind_deref. by destruct p.
Qed.

Lemma update_local_commutes stk name h :
  commutes changed (update_local stk name h).
Proof.
  intros r. unfold update_local. destruct (symbols stk) as [sc|] eqn:Hsc; [|done].
  rewrite !bind_deref. unfold bind. rewrite g_commutes.
  by destruct (g stk name r) as [[l r1]|].
Qed.

Ltac cstep :=
  first
    [ apply commutes_ret
    | apply commutes_crash
    | apply commutes_deref
    | apply commutes_assert
    | apply g_commutes
    | apply g_ptr_commutes
    | apply lhs_commutes
    | apply error_commutes
    | apply subtype_call_commutes
    | apply dynamic_call_commutes
    | apply typeref_call_commutes
    | apply member_call_commutes
    | apply update_local_commutes
    | apply commutes_mapM; intro
    | apply commutes_bind; [|intro]
    | match goal with
      | |- commutes _ (match ?x with _ => _ end) => destruct x
      | |- commutes _ (let '(_, _) := ?x in _) => destruct x
      end ].

Lemma post_commutes stk e : commutes changed (post stk e).
Proof.
  destruct e; cbn [post];
    unfold post_Free, post_Ref, post_Oftype, post_Throw, post_Assign,
      post_Tuple, post_Select, post_reserved, post_Int, post_Float,
      post_Bool, post_Lambda, check_assigned, lambda_result,
      make_constant_type, call_type;
    repeat cstep.
Qed.

Lemma post_type_commutes t : commutes changed (post_type t).
Proof.
  destruct t; cbn [post_type]; try apply commutes_ret.
  unfold post_LookupRef. apply commutes_forM_.
  apply Forall_forall. intros [wparam arg] _. repeat cstep.
Qed.

Lemma visit_with_pass stk e r :
  visit post_type post stk e (with_pass f r)
  = (λ '(u, r'), (u, with_pass f r')) <$> visit post_type post stk e r.
Proof.
  apply (visit_commutes changed).
  - apply post_type_commutes.
  - apply post_commutes.
Qed.

End PassBlind.

Section PassBlindness.
Context {S : Type} `{!Collaborators S}.
Implicit Types (r : Infer S) (stk : Stack).

(** X3. The pass only appends to the stream it is given: a run that
    starts with entries already on the stream crashes or completes
    exactly as a run on the rest of the stream does, with the same
    result, locals, solver and calls, and its stream is those entries
    followed by the stream of the other run. *)
Theorem run_appends_to_stream ast locals marks pre stream :
  run ast locals marks (pre ++ stream)
  = (λ '(b, r), (b, with_pass (prepend pre) r))
      <$> run ast locals marks stream.
Proof.
  unfold run.
  change (new_Infer locals marks (pre ++ stream))
    with (with_pass (prepend pre) (new_Infer locals marks stream)).
  rewrite (visit_with_pass (prepend pre)).
  - by destruct (visit post_type post [] ast (new_Infer locals marks stream))
      as [[[] r]|].
  - intros e p. unfold prepend, report. cbn. by rewrite app_assoc.
  - intros ms p. unfold prepend, solver_writes. cbn. by rewrite app_assoc.
Qed.

(** X4. A verdict that is already false changes nothing of what the
    traversal does: from a state whose verdict has been cleared, every
    node is handled as from the state itself, with the same calls to the
    solver and the lookup engine, the same writes to the locals and the
    same entries on the stream. *)
Theorem visit_ignores_the_verdict stk e r :
  visit post_type post stk e (with_pass spoil r)
  = (λ '(u, r'), (u, with_pass spoil r')) <$> visit post_type post stk e r.
Proof. by apply visit_with_pass. Qed.

End PassBlindness.

(** ** Every node is handled *)

Section Establishes.
Context {St : Type} (R : relation St) `{!PreOrder R}.
Variable on_type : Ty → M St unit.
Variable on_expr : Stack → Expr → M St unit.
Variable Post : Stack → Expr → St → Prop.
Hypothesis Htype : ∀ t, preserves R (on_type t).
Hypothesis Hexpr : ∀ stk e, preserves R (on_expr stk e).
Hypothesis Hpost :
  ∀ stk e s s', on_expr stk e s = Some (tt, s') → Post stk e s'.
Hypothesis Hstable : ∀ stk e s s', Post stk e s → R s s' → Post stk e s'.

Lemma establishes_nil (m : M St unit) : establishes Post m [].
Proof. intros s s' _ stk n Hin. by apply elem_of_nil in Hin. Qed.

Lemma establishes_subset (m : M St unit) L L' :
  L' ⊆ L → establishes Post m L → establishes Post m L'.
Proof. intros Hsub Hm s s' Hs stk n Hin. eapply Hm; [done|]. by apply Hsub. Qed.

Lemma establishes_seq (m1 m2 : M St unit) L1 L2 :
  establishes Post m1 L1 → preserves R m2 → establishes Post m2 L2 →
  establishes Post (m1 ;;; m2) (L1 ++ L2).
Proof.
  intros H1 Hp2 H2 s s' (u & s1 & Hm1 & Hm2)%bind_inv stk n.
  destruct u. intros [Hin|Hin]%elem_of_app.
  - eapply Hstable; [by eapply H1|]. by eapply Hp2.
  - by eapply H2.
Qed.

Lemma establishes_forM_ {A} (f : A → M St unit) (L : A → list (Stack * Expr)) l :
  Forall (λ a, establishes Post (f a) (L a) ∧ preserves R (f a)) l →
  establishes Post (forM_ f l) (flat_map L l).
Proof.
  induction 1 as [|a l [Ha Hpa] Hl IH]; cbn [forM_ flat_map];
    [apply establishes_nil|].
  apply establishes_seq; [done| |done].
  apply preserves_forM_; [done|]. eapply Forall_impl; [done|]. by intros ? [].
Qed.

Lemma establishes_whenSome {A} (f : A → M St unit)
  (L : A → list (Stack * Expr)) o :
  OptP (λ a, establishes Post (f a) (L a)) o →
  establishes Post (whenSome f o) (from_option L [] o).
Proof. destruct o; [done|]. intros _. apply establishes_nil. Qed.

Lemma visit_children_establish stk (cs : list Expr) :
  Forall (λ e, ∀ stk, establishes Post (visit on_type on_expr stk e)
                        (nodes stk e)) cs →
  establishes Post (forM_ (visit on_type on_expr stk) cs)
    (flat_map (nodes stk) cs).
Proof.
  intros Hcs. apply establishes_forM_. eapply Forall_impl; [done|].
  intros e He. split; [apply He|]. by apply visit_preserves.
Qed.

Lemma visit_child_establishes stk (c : option Expr) :
  OptP (λ e, ∀ stk, establishes Post (visit on_type on_expr stk e)
                      (nodes stk e)) c →
  establishes Post (whenSome (visit on_type on_expr stk) c)
    (from_option (nodes stk) [] c).
Proof. intros Hc. apply establishes_whenSome. destruct c; [apply Hc|done]. Qed.

Lemma visit_child_preserves' stk (c : option Expr) :
  preserves R (whenSome (visit on_type on_expr stk) c).
Proof.
  apply preserves_whenSome; [done|]. destruct c; [|done]. by apply visit_preserves.
Qed.

Lemma visit_children_preserve stk (cs : list Expr) :
  preserves R (forM_ (visit on_type on_expr stk) cs).
Proof.
  apply preserves_forM_; [done|]. apply Forall_forall. intros c _.
  by apply visit_preserves.
Qed.

Lemma establishes_then_types (m m' : M St unit) L :
  establishes Post m L → preserves R m' → establishes Post (m ;;; m') L.
Proof.
  intros Hm Hm'. eapply establishes_subset;
    [|apply (establishes_seq m m' L []); [done..|apply establishes_nil]].
  set_solver.
Qed.

Lemma establishes_after_types (m m' : M St unit) L :
  establishes Post m' L → establishes Post (m ;;; m') L.
Proof.
  intros Hm' s s' (u & s1 & _ & Hm2)%bind_inv. by eapply Hm'.
Qed.

Lemma visit_establishes e :
  ∀ stk, establishes Post (visit on_type on_expr stk e) (nodes stk e).
Proof.
  assert (Hnode : ∀ stk e (body : M St unit) L,
    establishes Post body L →
    establishes Post (body ;;; on_expr stk e) ((stk, e) :: L)).
  { intros stk n body L Hbody.
    eapply establishes_subset;
      [|apply (establishes_seq body (on_expr stk n) L [(stk, n)]);
        [done|apply Hexpr|]].
    - set_solver.
    - intros s s' Hs stk' n' [= -> ->]%list_elem_of_singleton.
      by eapply Hpost. }
  assert (Htypes : ∀ t, preserves R (visit_type on_type t)).
  { intros t. by apply visit_type_preserves. }
  induction e using Expr_nested_ind; intros stk; cbn [visit nodes];
    apply Hnode; try apply establishes_nil.
  - (* Oftype *) apply establishes_then_types; [apply IHe|apply Htypes].
  - (* Throw *) apply IHe.
  - (* Assign *)
    apply establishes_seq; [apply IHe1|by apply visit_preserves|apply IHe2].
  - by apply visit_children_establish.
  - (* Select *)
    apply establishes_seq; [by apply visit_child_establishes| |].
    + apply preserves_bind; [done|apply Htypes|].
      intros _. apply visit_child_preserves'.
    + apply establishes_after_types. by apply visit_child_establishes.
  - by apply visit_children_establish.
  - by apply visit_children_establish.
  - by apply visit_children_establish.
  - by apply visit_children_establish.
  - (* Lambda *)
    apply establishes_after_types.
    apply establishes_seq; [by apply visit_children_establish| |].
    + apply preserves_bind; [done|apply Htypes|].
      intros _. apply visit_children_preserve.
    + apply establishes_after_types. by apply visit_children_establish.
  - (* Param *)
    apply establishes_after_types. by apply visit_child_establishes.
  - (* Field *)
    apply establishes_after_types. by apply visit_child_establishes.
  - by apply visit_children_establish.
Qed.

End Establishes.

(** ** Invariants over the nodes visited so far *)

Section Accumulates.
Context {St : Type} (J : list (Stack * Expr) → St → Prop).
Variable on_type : Ty → M St unit.
Variable on_expr : Stack → Expr → M St unit.
Hypothesis Hperm : ∀ V V' s, V ≡ₚ V' → J V s → J V' s.
Hypothesis Htype :
  ∀ t V s s', J V s → on_type t s = Some (tt, s') → J V s'.
Hypothesis Hexpr :
  ∀ stk e V s s', J V s → on_expr stk e s = Some (tt, s') →
                  J ((stk, e) :: V) s'.

Let keeps (s s' : St) : Prop := ∀ V, J V s → J V s'.

#[local] Instance keeps_preorder : PreOrder keeps.
Proof. split; [by intros s V|]. intros s1 s2 s3 H1 H2 V HV. auto. Qed.

Lemma accumulates_skip (m : M St unit) : preserves keeps m → accumulates J m [].
Proof. intros Hm V s s' HV Hs. by apply (Hm s tt s' Hs). Qed.

Lemma accumulates_seq (m1 m2 : M St unit) L1 L2 :
  accumulates J m1 L1 → accumulates J m2 L2 →
  accumulates J (m1 ;;; m2) (L1 ++ L2).
Proof.
  intros H1 H2 V s s' HV (u & s1 & Hm1 & Hm2)%bind_inv. destruct u.
  eapply (Hperm ((L2 ++ L1) ++ V)).
  - by rewrite (Permutation_app_comm L2 L1).
  - rewrite <- app_assoc. eapply H2; [|done]. by eapply H1.
Qed.

Lemma accumulates_forM_ {A} (f : A → M St unit)
    (L : A → list (Stack * Expr)) l :
  Forall (λ a, accumulates J (f a) (L a)) l →
  accumulates J (forM_ f l) (flat_map L l).
Proof.
  induction 1 as [|a l Ha Hl IH]; cbn [forM_ flat_map].
  - intros V s s' HV [= <-]. done.
  - by apply accumulates_seq.
Qed.

Lemma accumulates_whenSome {A} (f : A → M St unit)
    (L : A → list (Stack * Expr)) o :
  OptP (λ a, accumulates J (f a) (L a)) o →
  accumulates J (whenSome f o) (from_option L [] o).
Proof. destruct o; [done|]. intros _ V s s' HV [= <-]. done. Qed.

Lemma accumulates_then_skip (m m' : M St unit) L :
  accumulates J m L → accumulates J m' [] → accumulates J (m ;;; m') L.
Proof.
  intros Hm Hm'. rewrite <- (app_nil_r L). by apply accumulates_seq.
Qed.

Lemma accumulates_after_skip (m m' : M St unit) L :
  accumulates J m [] → accumulates J m' L → accumulates J (m ;;; m') L.
Proof. intros Hm Hm'. by apply (accumulates_seq m m' [] L). Qed.

Lemma visit_type_accumulates t : accumulates J (visit_type on_type t) [].
Proof.
  apply accumulates_skip, visit_type_preserves; [apply _|].
  intros t' s [] s' Hs V HV. by eapply Htype.
Qed.

Lemma visit_children_accumulate stk (cs : list Expr) :
  Forall (λ e, ∀ stk, accumulates J (visit on_type on_expr stk e)
                        (nodes stk e)) cs →
  accumulates J (forM_ (visit on_type on_expr stk) cs)
    (flat_map (nodes stk) cs).
Proof.
  intros Hcs. apply accumulates_forM_. eapply Forall_impl; [done|].
  intros e He. apply He.
Qed.

Lemma visit_child_accumulates stk (c : option Expr) :
  OptP (λ e, ∀ stk, accumulates J (visit on_type on_expr stk e)
                      (nodes stk e)) c →
  accumulates J (whenSome (visit on_type on_expr stk) c)
    (from_option (nodes stk) [] c).
Proof. intros Hc. apply accumulates_whenSome. destruct c; [apply Hc|done]. Qed.

Lemma upper_bounds_accumulate (typeparams : list TypeParam) :
  accumulates J
    (forM_ (λ p : TypeParam, whenSome (visit_type on_type) (upper p))
       typeparams) [].
Proof.
  apply accumulates_skip, preserves_forM_; [apply _|].
  apply Forall_forall. intros p _. apply preserves_whenSome; [apply _|].
  destruct (upper p) as [t|]; [|done]. cbn.
  apply visit_type_preserves; [apply _|].
  intros t' s [] s' Hs V HV. by eapply Htype.
Qed.

Lemma visit_accumulates e :
  ∀ stk, accumulates J (visit on_type on_expr stk e) (nodes stk e).
Proof.
  assert (Hnode : ∀ stk e (body : M St unit) L,
    accumulates J body L →
    accumulates J (body ;;; on_expr stk e) ((stk, e) :: L)).
  { intros stk n body L Hbody V s s' HV (u & s1 & Hm1 & Hm2)%bind_inv.
    destruct u. cbn. eapply Hexpr; [|done]. by eapply Hbody. }
  assert (Hnil : accumulates J (ret tt) []).
  { intros V s s' HV [= <-]. done. }
  induction e using Expr_nested_ind; intros stk; cbn [visit nodes];
    apply Hnode; try apply Hnil.
  - (* Oftype *)
    apply accumulates_then_skip; [apply IHe|apply visit_type_accumulates].
  - (* Throw *) apply IHe.
  - (* Assign *) apply accumulates_seq; [apply IHe1|apply IHe2].
  - by apply visit_children_accumulate.
  - (* Select *)
    apply accumulates_seq; [by apply visit_child_accumulates|].
    apply accumulates_after_skip; [apply visit_type_accumulates|].
    by apply visit_child_accumulates.
  - by apply visit_children_accumulate.
  - by apply visit_children_accumulate.
  - by apply visit_children_accumulate.
  - by apply visit_children_accumulate.
  - (* Lambda *)
    apply accumulates_after_skip; [apply upper_bounds_accumulate|].
    apply accumulates_seq; [by apply visit_children_accumulate|].
    apply accumulates_after_skip; [apply visit_type_accumulates|].
    by apply visit_children_accumulate.
  - (* Param *)
    apply accumulates_after_skip; [|by apply visit_child_accumulates].
    apply accumulates_skip, preserves_whenSome; [apply _|].
    destruct t as [t|]; [|done]. cbn.
    apply visit_type_preserves; [apply _|].
    intros t' s [] s' Hs V HV. by eapply Htype.
  - (* Field *)
    apply accumulates_after_skip; [apply visit_type_accumulates|].
    by apply visit_child_accumulates.
  - by apply visit_children_accumulate.
Qed.

End Accumulates.

Section EveryNode.
Context {S : Type} `{!Collaborators S}.
Implicit Types (r : Infer S) (stk : Stack).
#[local] Existing Instance keeps_locals_stable.

Lemma g_pure stk name : preserves (=@{Infer S}) (g stk name).
Proof. intros r l r' Hg. by apply g_inv in Hg as [-> _]. Qed.

Lemma g_ptr_pure stk name : preserves (=@{Infer S}) (g_ptr stk name).
Proof. intros r lp r' Hg. by apply g_ptr_inv in Hg as [-> _]. Qed.

Lemma lhs_pure stk : preserves (=@{Infer S}) (lhs stk).
Proof.
  unfold lhs. apply preserves_bind; [apply _|apply preserves_deref; apply _|].
  intros []; first [apply preserves_ret | apply preserves_crash]; apply _.
Qed.

Lemma call_type_pure stk left right :
  preserves (=@{Infer S}) (call_type stk left right).
Proof.
  unfold call_type.
  apply preserves_bind; [apply _| |intros fleft].
  - destruct left as [l|], right as [x|];
      repeat first [ apply g_pure | apply preserves_ret; apply _
                   | apply preserves_bind; [apply _| |intros ?] ].
    repeat case_match;
      first [apply preserves_ret | apply preserves_crash]; apply _.
  - repeat first [ apply g_pure | apply lhs_pure | apply preserves_ret; apply _
                 | apply preserves_bind; [apply _| |intros ?] ].
Qed.

Lemma post_Assign_assigns stk a rhs r r' :
  post_Assign stk a rhs r = Some (tt, r') →
  ∃ sc, symbols stk = Some sc ∧ assigned_in r' (sc, location a).
Proof.
  unfold post_Assign. intros (l & r1 & Hg & Hrest)%bind_inv.
  apply g_inv in Hg as (-> & sc & Hsc & Hl). exists sc. split; [done|].
  destruct (negb (l_assigned l) || bool_decide (l_kind l = KVar)) eqn:Hcond.
  - apply update_local_inv in Hrest as (sc' & l' & Hsc' & Hl' & ->).
    assert (sc' = sc) as -> by congruence.
    exists (set_assigned l'). cbn. by rewrite lookup_insert_eq.
  - injection Hrest as <-. exists l. split; [done|].
    apply orb_false_iff in Hcond as [Hneg _]. by apply negb_false_iff.
Qed.

Lemma left_assigned_kept stk n r r' :
  left_assigned stk n r → keeps_locals r r' → left_assigned stk n r'.
Proof.
  destruct n; try done. cbn.
  intros (sc & Hsc & l & Hl & Hl_assigned) [_ Hkeep].
  destruct (Hkeep _ _ Hl) as (l' & Hl' & _ & _ & Hassigned & _).
  exists sc. split; [done|]. exists l'. auto.
Qed.

Lemma visit_assigns_every_left ast r r' :
  visit post_type post [] ast r = Some (tt, r') →
  ∀ stk n, (stk, n) ∈ nodes [] ast → left_assigned stk n r'.
Proof.
  intros Hvisit.
  apply (visit_establishes keeps_locals post_type post left_assigned
           (post_type_preserves keeps_locals)
           (post_preserves keeps_locals)) in Hvisit; [done| |].
  - intros stk' n s s' Hpost. destruct n; try done.
    by apply post_Assign_assigns in Hpost.
  - apply left_assigned_kept.
Qed.

(** X5. When the pass is over, the local on the left of every
    assignment of the tree is marked assigned, also where the assignment
    itself was rejected and whatever the handlers of the rest of the
    tree did afterwards. *)
Theorem run_assigns_every_left ast locals marks stream b r :
  run ast locals marks stream = Some (b, r) →
  ∀ stk loc a rhs, (stk, Assign loc a rhs) ∈ nodes [] ast →
    ∃ sc, symbols stk = Some sc ∧ assigned_in r (sc, location a).
Proof.
  unfold run.
  destruct (visit post_type post [] ast (new_Infer locals marks stream))
    as [[[] r']|] eqn:Hvisit; [|done].
  intros [= _ <-] stk loc a rhs Hin.
  by apply (visit_assigns_every_left _ _ _ Hvisit stk (Assign loc a rhs)).
Qed.

End EveryNode.

(** ** Single assignment over a whole tree *)

Section ButWrites.
Context {S : Type} `{!Collaborators S}.
Context (R : relation (Infer S)) `{!PreOrder R}.
Hypothesis Herror : ∀ d, preserves R (error d).
Hypothesis Hsubtype : ∀ a b, preserves R (subtype_call a b).
Hypothesis Hdynamic : ∀ find call, preserves R (dynamic_call find call).
Hypothesis Htyperef : ∀ stk tr, preserves R (typeref_call stk tr).
Hypothesis Hmember :
  ∀ receiver name, preserves R (member_call receiver name).

Lemma preserves_pure {A} (m : M (Infer S) A) :
  preserves (=@{Infer S}) m → preserves R m.
Proof. intros Hm s a s' Hs. by apply Hm in Hs as ->. Qed.

Ltac quiet :=
  first
    [ apply preserves_ret; apply _
    | apply preserves_crash; apply _
    | apply preserves_deref; apply _
    | apply preserves_assert; apply _
    | apply preserves_pure, g_pure
    | apply preserves_pure, g_ptr_pure
    | apply preserves_pure, lhs_pure
    | apply preserves_pure, call_type_pure
    | apply Herror
    | apply Hsubtype
    | apply Hdynamic
    | apply Htyperef
    | apply Hmember
    | apply preserves_mapM; [apply _|intro]
    | apply preserves_bind; [apply _| |intro]
    | match goal with
      | |- preserves _ (match ?x with _ => _ end) => destruct x
      | |- preserves _ (let '(_, _) := ?x in _) => destruct x
      end ].

Lemma post_preserves_but_writes stk e :
  kind e ≠ KAssign → kind e ≠ KTuple → preserves R (post stk e).
Proof.
  intros Hassign Htuple. destruct e; try done; cbn [post];
    unfold post_Free, post_Ref, post_Oftype, post_Throw, post_Select, post_reserved, post_Int, post_Float,
      post_Bool, post_Lambda, check_assigned, lambda_result,
      make_constant_type;
    repeat quiet.
Qed.

Lemma post_type_preserves_quiet t : preserves R (post_type t).
Proof.
  destruct t; cbn [post_type]; try (apply preserves_ret; apply _).
  unfold post_LookupRef. apply preserves_forM_; [apply _|].
  apply Forall_forall. intros [wparam arg] _. repeat quiet.
Qed.

End ButWrites.

Section SingleAssignment.
Context {S : Type} `{!Collaborators S}.
Implicit Types (r : Infer S) (stk : Stack) (k : Location * Location).
#[local] Existing Instance keeps_locals_stable.
#[local] Existing Instance extends_stable.

Lemma count_of_cons f (p : Stack * Expr) V :
  count_of f (p :: V) = (if f p then 1 else 0) + count_of f V.
Proof. unfold count_of. cbn. by destruct (f p). Qed.

Lemma count_of_perm f (V V' : list (Stack * Expr)) :
  V ≡ₚ V' → count_of f V = count_of f V'.
Proof.
  induction 1 as [|p V V' _ IH|p q V|V1 V2 V3 _ IH1 _ IH2];
    rewrite ?count_of_cons; [done|lia|lia|congruence].
Qed.

Lemma assigned_in_kept r r' k :
  assigned_in r k → keeps_locals r r' → assigned_in r' k.
Proof.
  intros (l & Hl & Ha) [_ Hkeep].
  destruct (Hkeep _ _ Hl) as (l' & Hl' & _ & _ & Ha' & _). exists l'. auto.
Qed.

Lemma extends_ok_false r r' :
  extends r r' → ok (pass r) = false → ok (pass r') = false.
Proof. intros (new & _ & ->) ->. done. Qed.

Lemma targets_inv k stk e :
  targets k (stk, e) = true →
  ∃ loc a rhs, e = Assign loc a rhs ∧ symbols stk = Some k.1 ∧
               location a = k.2.
Proof.
  destruct e; try done. cbn. intros [? ?]%bool_decide_eq_true.
  by eexists _, _, _.
Qed.

Lemma post_Assign_rejects stk a rhs r r' sc l :
  post_Assign stk a rhs r = Some (tt, r') →
  symbols stk = Some sc →
  symtab r !! (sc, location a) = Some l →
  l_kind l ≠ KVar → l_assigned l = true →
  ok (pass r') = false.
Proof.
  unfold post_Assign. intros (l' & r1 & Hg & Hrest)%bind_inv Hsc Hl Hk Ha.
  apply g_inv in Hg as (-> & sc' & Hsc' & Hl').
  assert (l' = l) as -> by congruence.
  rewrite Ha, bool_decide_eq_false_2 in Hrest by done.
  by injection Hrest as <-.
Qed.

Lemma visit_rejects_second_assignment ast r r' k l :
  visit post_type post [] ast r = Some (tt, r') →
  symtab r !! k = Some l →
  l_kind l ≠ KVar →
  2 ≤ count_of (targets k) (nodes [] ast) ∨
  (l_assigned l = true ∧ 1 ≤ count_of (targets k) (nodes [] ast)) →
  ok (pass r') = false.
Proof.
  intros Hvisit Hl Hkind Hcount.
  set (s0 := r) in *.
  set (J := λ V (s : Infer S),
         keeps_locals s0 s ∧
         (1 ≤ count_of (targets k) V → assigned_in s k) ∧
         (2 ≤ count_of (targets k) V ∨
          (l_assigned l = true ∧ 1 ≤ count_of (targets k) V) →
          ok (pass s) = false)).
  assert (Hsteady : ∀ V s s', keeps_locals s s' → extends s s' →
                              J V s → J V s').
  { intros V s s' Hkeep Hext (Hk0 & Hone & Htwo). split_and!.
    - by etrans.
    - intros Hc. eapply assigned_in_kept; eauto.
    - intros Hc. eapply extends_ok_false; eauto. }
  assert (HJ : J (nodes [] ast ++ []) r').
  { eapply (visit_accumulates J post_type post); [| | | |exact Hvisit].
    - intros V V' s HV. unfold J. by rewrite (count_of_perm _ _ _ HV).
    - intros t V s s' HJ Hs. eapply Hsteady; [| |done].
      + by eapply (post_type_preserves keeps_locals).
      + by eapply (post_type_preserves extends).
    - intros stk e V s s' HJ Hs.
      pose proof (post_preserves keeps_locals stk e s tt s' Hs) as Hkeep.
      pose proof (post_preserves extends stk e s tt s' Hs) as Hext.
      destruct (targets k (stk, e)) eqn:Htarget.
      + apply targets_inv in Htarget
          as (loc & a & rhs & -> & Hsc & Hname).
        destruct HJ as (Hk0 & Hone & Htwo). cbn [post] in Hs.
        assert (Hnow : assigned_in s' k).
        { destruct (post_Assign_assigns _ _ _ _ _ Hs) as (sc & Hsc' & Hin).
          destruct k as [ksc kname]. cbn in *. congruence. }
        split_and!; [by etrans|done|].
        rewrite count_of_cons. cbn [targets snd fst].
        rewrite bool_decide_eq_true_2 by done. intros Hc.
        assert (Hbefore : assigned_in s k).
        { destruct Hc as [Hc|[Ha Hc]]; [apply Hone; lia|].
          apply (assigned_in_kept s0); [|done]. by exists l. }
        destruct Hbefore as (l1 & Hl1 & Ha1).
        destruct Hk0 as [_ Hk0].
        destruct (Hk0 _ _ Hl) as (l2 & Hl2 & Hkind2 & _).
        assert (l2 = l1) as -> by congruence.
        destruct k as [ksc kname]. cbn in *.
        subst kname.
        eapply post_Assign_rejects;
          [exact Hs|exact Hsc|exact Hl1|congruence|exact Ha1].
      + unfold J. rewrite count_of_cons, Htarget. cbn [Nat.add].
        by eapply Hsteady.
    - split_and!; [done|cbn; lia|cbn; lia]. }
  rewrite app_nil_r in HJ. destruct HJ as (_ & _ & Hfalse).
  by apply Hfalse.
Qed.

Lemma visit_keeps_locals ast r r' :
  visit post_type post [] ast r = Some (tt, r') → keeps_locals r r'.
Proof.
  apply (visit_preserves keeps_locals post_type post
           (post_type_preserves keeps_locals) (post_preserves keeps_locals)).
Qed.


Lemma count_of_positive f (L : list (Stack * Expr)) :
  1 ≤ count_of f L → ∃ p, p ∈ L ∧ f p = true.
Proof.
  induction L as [|p L IH]; [cbn; lia|]. rewrite count_of_cons.
  destruct (f p) eqn:Hp; [intros _; exists p; split; [left|done]|].
  cbn [Nat.add]. intros (q & Hq & Hfq)%IH. exists q. split; [by right|done].
Qed.

(** X14. The pass is not to be run twice: once it has completed on a
    tree that assigns a local that is not a [Var], a second run on the
    same tree with the locals it left returns false. *)
Theorem second_run_rejects ast locals marks stream b r marks' stream' b' r'
    k l :
  run ast locals marks stream = Some (b, r) →
  locals !! k = Some l →
  l_kind l ≠ KVar →
  1 ≤ count_of (targets k) (nodes [] ast) →
  run ast (symtab r) marks' stream' = Some (b', r') →
  b' = false.
Proof.
  unfold run.
  destruct (visit post_type post [] ast (new_Infer locals marks stream))
    as [[[] r1]|] eqn:Hfirst; [|done].
  destruct (visit post_type post [] ast (new_Infer (symtab r) marks' stream'))
    as [[[] r2]|] eqn:Hsecond; [|done].
  intros [= _ <-] Hl Hkind Hcount [= <- <-].
  destruct (count_of_positive _ _ Hcount) as ([stk n] & Hin & Htarget).
  apply targets_inv in Htarget as (loc & a & rhs & -> & Hsc & Hname).
  destruct (visit_assigns_every_left _ _ _ Hfirst _ _ Hin)
    as (sc & Hsc' & l1 & Hl1 & Ha1).
  assert ((sc, location a) = k) as Hk.
  { destruct k as [ksc kname]. cbn in *. congruence. }
  rewrite Hk in Hl1.
  destruct (visit_keeps_locals _ _ _ Hfirst) as [_ Hkeep].
  destruct (Hkeep _ _ Hl) as (l2 & Hl2 & Hkind2 & _).
  assert (l2 = l1) as -> by congruence.
  rewrite (visit_rejects_second_assignment _ _ _ k l1 Hsecond Hl1); [done| |].
  - congruence.
  - right. split; [done|]. exact Hcount.
Qed.

Lemma lhs_inv stk r name r' :
  lhs stk r = Some (name, r') →
  r' = r ∧ ∃ loc al ar, parent_of KAssign stk = Some (Assign loc al ar) ∧
                        name = location al.
Proof.
  unfold lhs. intros (asn & r1 & Hasn & Hrest)%bind_inv.
  destruct (parent_of KAssign stk) as [asn'|]; [|done].
  injection Hasn as Hasn1 Hasn2. subst asn' r1.
  destruct asn; try done. injection Hrest as <- <-.
  split; [done|]. by eexists _, _, _.
Qed.

Lemma post_Tuple_inv stk loc seq r r' :
  post_Tuple stk loc seq r = Some (tt, r') →
  ∃ sc aloc al ar l types,
    symbols stk = Some sc ∧
    parent_of KAssign stk = Some (Assign aloc al ar) ∧
    symtab r !! (sc, location al) = Some l ∧
    mapM (λ e, l <- g stk (location e) ;; ret (l_type l))%pass seq r
    = Some (types, r) ∧
    r' = mkInfer (pass r) (subtype r)
           (<[(sc, location al) := set_type (Some (TupleType loc types)) l]>
              (symtab r))
           (annot r) (history r).
Proof.
  unfold post_Tuple. intros (types & r1 & Hmap & Hrest)%bind_inv.
  assert (r = r1) as <-.
  { revert Hmap. apply preserves_mapM; [apply _|]. intros e.
    apply preserves_bind; [apply _|apply g_pure|].
    intros l. apply preserves_ret. apply _. }
  apply bind_inv in Hrest as (name & r1 & Hlhs & Hrest).
  apply lhs_inv in Hlhs as (-> & aloc & al & ar & Hasn & ->).
  apply update_local_inv in Hrest as (sc & l & Hsc & Hl & ->).
  by eexists sc, aloc, al, ar, l, types.
Qed.

Lemma same_field_preorder {A} (f : Local → A) k :
  PreOrder (λ r r', f <$> symtab r' !! k = f <$> symtab r !! k).
Proof. split; [by intros r|]. intros r1 r2 r3 H1 H2. congruence. Qed.

Lemma same_field_update {A} (f : Local → A) k r sc name l (w : Local → Local)
    p (s : S) a h :
  symtab r !! (sc, name) = Some l →
  (k = (sc, name) → f (w l) = f l) →
  f <$> symtab (mkInfer p s (<[(sc, name) := w l]> (symtab r)) a h) !! k
  = f <$> symtab r !! k.
Proof.
  intros Hl Hsame. cbn. destruct (decide (k = (sc, name))) as [->|Hne].
  - rewrite lookup_insert_eq, Hl. cbn. by rewrite Hsame.
  - by rewrite lookup_insert_ne.
Qed.

(** A handler leaves a field of the local [k] as it is, unless it is
    the handler of an assignment to [k] or of a tuple assigned to [k] and
    the write changes that field. *)
Lemma post_keeps_field {A} (f : Local → A) k stk e r r' :
  (targets k (stk, e) = true → ∀ l, f (set_assigned l) = f l) →
  (tuple_for k (stk, e) = true → ∀ t l, f (set_type t l) = f l) →
  post stk e r = Some (tt, r') →
  f <$> symtab r' !! k = f <$> symtab r !! k.
Proof.
  intros Hassign Htuple Hpost.
  destruct (decide (kind e = KAssign)) as [Hk|Hk];
    [|destruct (decide (kind e = KTuple)) as [Hk'|Hk']].
  - destruct e; try done. cbn [post] in Hpost. unfold post_Assign in Hpost.
    apply bind_inv in Hpost as (l & r1 & Hg & Hrest).
    apply g_inv in Hg as (-> & sc & Hsc & Hl).
    destruct (negb (l_assigned l) || bool_decide (l_kind l = KVar)).
    + apply update_local_inv in Hrest as (sc' & l' & Hsc' & Hl' & ->).
      apply same_field_update; [done|].
      intros ->. apply Hassign. cbn. by rewrite bool_decide_eq_true_2.
    + by injection Hrest as <-.
  - destruct e; try done. cbn [post] in Hpost.
    apply post_Tuple_inv in Hpost
      as (sc & aloc & al & ar & l & types & Hsc & Hasn & Hl & _ & ->).
    apply same_field_update; [done|].
    intros ->. apply Htuple. cbn. rewrite Hasn.
    by rewrite bool_decide_eq_true_2.
  - revert Hpost.
    apply (post_preserves_but_writes _
             (PreOrder0 := same_field_preorder f k)); [| | | | |done..].
    + intros d s [] s' [= <-]. done.
    + by intros a b s res s' (? & ms & _ & ->)%subtype_call_inv.
    + by intros find call s [res call'] s'
           (? & ms & _ & ->)%dynamic_call_inv.
    + intros stk' tr s res s' (ms & _ & ->)%typeref_call_inv.
      cbn. by destruct (lookup_reports_frame ms s) as (_ & -> & _).
    + intros receiver name s res s' (ms & _ & ->)%member_call_inv.
      cbn. by destruct (lookup_reports_frame ms s) as (_ & -> & _).
Qed.

Lemma post_type_keeps_field {A} (f : Local → A) k t r r' :
  post_type t r = Some (tt, r') →
  f <$> symtab r' !! k = f <$> symtab r !! k.
Proof.
  apply (post_type_preserves_quiet _ (PreOrder0 := same_field_preorder f k)).
  by intros a b s res s' (? & ms & _ & ->)%subtype_call_inv.
Qed.

Lemma same_flag_unassigned r r' k :
  l_assigned <$> symtab r' !! k = l_assigned <$> symtab r !! k →
  assigned_in r' k → assigned_in r k.
Proof.
  intros Hsame (l' & Hl' & Ha'). rewrite Hl' in Hsame.
  destruct (symtab r !! k) as [l|] eqn:Hl; [|discriminate Hsame].
  injection Hsame as Hsame. exists l. split; [done|]. congruence.
Qed.

Lemma post_stays_unassigned k stk e r r' :
  targets k (stk, e) = false →
  post stk e r = Some (tt, r') →
  assigned_in r' k → assigned_in r k.
Proof.
  intros Htarget Hpost. apply same_flag_unassigned.
  by apply (post_keeps_field l_assigned k stk e); [congruence|..].
Qed.

Lemma post_type_stays_unassigned k t r r' :
  post_type t r = Some (tt, r') → assigned_in r' k → assigned_in r k.
Proof.
  intros Hpost. apply same_flag_unassigned.
  by apply (post_type_keeps_field l_assigned k t).
Qed.

Lemma ends_in_check {A} (m : M (Infer S) A) l ref r r' :
  (m ;;; check_assigned l ref)%pass r = Some (tt, r') →
  l_assigned l = false → ok (pass r') = false.
Proof.
  intros (u & r1 & _ & Hcheck)%bind_inv Hl.
  rewrite check_assigned_eq, Hl in Hcheck. by injection Hcheck as <-.
Qed.

Lemma post_reports_unassigned_read k stk e r r' :
  post stk e r = Some (tt, r') →
  reads k (stk, e) = true →
  ¬ assigned_in r k →
  ok (pass r') = false.
Proof.
  intros Hpost Hreads Hun.
  assert (Hflag : ∀ name l, symbols stk = Some k.1 → name = k.2 →
            symtab r !! (k.1, name) = Some l → l_assigned l = false).
  { intros name l Hsc -> Hl.
    apply not_true_is_false. intros Ha. apply Hun. exists l.
    destruct k as [ksc kname]. by split. }
  destruct e as [| |fr|ref| | | | | | | | | | | | | | | | |]; try done;
    cbn [post reads fst snd] in *.
  - (* Free *)
    apply bool_decide_eq_true in Hreads as [Hsc Hname].
    unfold post_Free in Hpost.
    apply bind_inv in Hpost as (l & r1 & Hg & Hrest).
    apply g_inv in Hg as (-> & sc & Hsc' & Hl).
    assert (sc = k.1) as -> by congruence.
    rewrite (Hflag _ _ Hsc Hname Hl) in Hrest. by injection Hrest as <-.
  - (* Ref *)
    apply andb_true_iff in Hreads as [[Hsc Hname]%bool_decide_eq_true Hpos].
    unfold post_Ref in Hpost.
    destruct (parent stk) as [p|] eqn:Hparent; [|done].
    rewrite bind_deref in Hpost.
    assert (Hnot : kind p ≠ KOftype) by (by destruct p).
    rewrite bool_decide_eq_false_2 in Hpost by done.
    rewrite (bind_Some _ _ _ _ _ (g_ptr_Some _ _ _ _ Hsc)) in Hpost.
    destruct (symtab r !! (k.1, ref)) as [l|] eqn:Hl; last first.
    { destruct p; try done. apply negb_true_iff in Hpos.
      by rewrite Hpos in Hpost. }
    pose proof (Hflag _ _ Hsc Hname Hl) as Ha.
    destruct p; try done; rewrite bind_deref in Hpost || idtac;
      try (rewrite check_assigned_eq, Ha in Hpost; by injection Hpost as <-).
    + (* under an Assign, on the right *)
      apply negb_true_iff in Hpos. rewrite Hpos, bind_deref in Hpost.
      apply bind_inv in Hpost as (al & r2 & _ & Hrest).
      exact (ends_in_check _ _ _ _ _ Hrest Ha).
    + (* under a Lambda *)
      apply bind_inv in Hpost as (res & r2 & _ & Hrest).
      exact (ends_in_check _ _ _ _ _ Hrest Ha).
Qed.

(** X8. When [run] returns true, every local that the tree reads or
    captures was assigned before the pass or is the target of an
    assignment of the tree. *)
Theorem run_accepts_only_assigned_reads ast locals marks stream r k :
  run ast locals marks stream = Some (true, r) →
  1 ≤ count_of (reads k) (nodes [] ast) →
  (∃ l, locals !! k = Some l ∧ l_assigned l = true) ∨
  1 ≤ count_of (targets k) (nodes [] ast).
Proof.
  unfold run.
  destruct (visit post_type post [] ast (new_Infer locals marks stream))
    as [[[] r']|] eqn:Hvisit; [|done].
  intros [= Hb <-] Hreads.
  set (s0 := new_Infer locals marks stream) in *.
  destruct (decide (1 ≤ count_of (targets k) (nodes [] ast)))
    as [|Hnone]; [by right|].
  assert (Hstart : (∃ l, locals !! k = Some l ∧ l_assigned l = true) ∨
                   ¬ assigned_in s0 k).
  { destruct (locals !! k) as [l|] eqn:Hl;
      [destruct (l_assigned l) eqn:Ha; [left; by exists l|]|];
      right; intros (l' & Hl' & Ha'); cbn in Hl'; congruence. }
  destruct Hstart as [|Hun]; [by left|]. exfalso.
  set (J := λ V (s : Infer S),
         count_of (targets k) V = 0 →
         ¬ assigned_in s k ∧
         (1 ≤ count_of (reads k) V → ok (pass s) = false)).
  assert (HJ : J (nodes [] ast ++ []) r').
  { eapply (visit_accumulates J post_type post); [| | | |exact Hvisit].
    - intros V V' s HV. unfold J.
      by rewrite (count_of_perm (targets k) _ _ HV),
                 (count_of_perm (reads k) _ _ HV).
    - intros t V s s' HJ Hs Hzero. destruct (HJ Hzero) as [Hs_un Hs_read].
      split.
      + intros Hin. by apply Hs_un, (post_type_stays_unassigned k t s s').
      + intros Hc. eapply extends_ok_false; [|by apply Hs_read].
        by eapply (post_type_preserves extends).
    - intros stk e V s s' HJ Hs. unfold J. rewrite !count_of_cons.
      destruct (targets k (stk, e)) eqn:Htarget; [done|].
      cbn [Nat.add]. intros Hzero. destruct (HJ Hzero) as [Hs_un Hs_read].
      split.
      + intros Hin. by apply Hs_un, (post_stays_unassigned k stk e s s').
      + destruct (reads k (stk, e)) eqn:Hread.
        * intros _. by eapply post_reports_unassigned_read.
        * cbn [Nat.add]. intros Hc.
          eapply extends_ok_false; [|by apply Hs_read].
          by eapply (post_preserves extends).
    - intros _. split; [done|]. cbn. lia. }
  rewrite app_nil_r in HJ. destruct HJ as [_ Hfalse]; [lia|].
  by rewrite (Hfalse Hreads) in Hb.
Qed.

(** X9. The pass writes a local only at the nodes that name it: the
    assigned flag of a local is as before the pass unless the tree holds
    an assignment to it, and its type is as before unless the tree holds
    a tuple whose enclosing assignment is to it. *)
Theorem run_writes_locals_at_their_nodes ast locals marks stream b r k :
  run ast locals marks stream = Some (b, r) →
  (count_of (targets k) (nodes [] ast) = 0 →
   l_assigned <$> symtab r !! k = l_assigned <$> locals !! k) ∧
  (count_of (tuple_for k) (nodes [] ast) = 0 →
   l_type <$> symtab r !! k = l_type <$> locals !! k).
Proof.
  unfold run.
  destruct (visit post_type post [] ast (new_Infer locals marks stream))
    as [[[] r']|] eqn:Hvisit; [|done].
  intros [= _ <-].
  set (s0 := new_Infer locals marks stream) in *.
  set (J := λ V (s : Infer S),
         (count_of (targets k) V = 0 →
          l_assigned <$> symtab s !! k = l_assigned <$> symtab s0 !! k) ∧
         (count_of (tuple_for k) V = 0 →
          l_type <$> symtab s !! k = l_type <$> symtab s0 !! k)).
  assert (HJ : J (nodes [] ast ++ []) r').
  { eapply (visit_accumulates J post_type post); [| | | |exact Hvisit].
    - intros V V' s HV. unfold J.
      by rewrite (count_of_perm (targets k) _ _ HV),
                 (count_of_perm (tuple_for k) _ _ HV).
    - intros t V s s' [Hflag Htype] Hs.
      split; intros Hzero;
        (etrans; [by eapply post_type_keeps_field|]); auto.
    - intros stk e V s s' [Hflag Htype] Hs. unfold J.
      rewrite !count_of_cons. split; intros Hzero.
      + destruct (targets k (stk, e)) eqn:Htarget; [done|].
        etrans; [|by apply Hflag].
        apply (post_keeps_field l_assigned k stk e); [congruence|done..].
      + destruct (tuple_for k (stk, e)) eqn:Htuple; [done|].
        etrans; [|by apply Htype].
        apply (post_keeps_field l_type k stk e); [done|congruence|done].
    - by split. }
  by rewrite app_nil_r in HJ.
Qed.

End SingleAssignment.

(** ** The result of [run] (C4) *)

Section RunVerdict.
Context {S : Type} `{!Collaborators S}.
Implicit Types (r : Infer S) (stk : Stack) (k : Location * Location).
#[local] Existing Instance extends_stable.

Lemma ends_in_report {A} (m : M (Infer S) A) l ref r r' :
  preserves extends m →
  (m ;;; check_assigned l ref)%pass r = Some (tt, r') →
  l_assigned l = false →
  ∃ new, out (pass r') = out (pass r) ++ new ∧
         Visitor (UsedBeforeAssignment ref) ∈ new.
Proof.
  intros Hm (u & r1 & Hrun & Hcheck)%bind_inv Hl.
  apply Hm in Hrun as (mid & Hmid & _).
  rewrite check_assigned_eq, Hl in Hcheck. injection Hcheck as <-.
  exists (mid ++ [Visitor (UsedBeforeAssignment ref)]). split.
  - cbn. by rewrite Hmid, <- app_assoc.
  - set_solver.
Qed.

Lemma post_Ref_reports_unassigned k stk ref r r' :
  post stk (Ref ref) r = Some (tt, r') →
  reads k (stk, Ref ref) = true →
  ¬ assigned_in r k →
  ∃ new, out (pass r') = out (pass r) ++ new ∧
         Visitor (UsedBeforeAssignment ref) ∈ new.
Proof.
  intros Hpost Hreads Hun. cbn [post reads fst snd] in *.
  apply andb_true_iff in Hreads as [[Hsc Hname]%bool_decide_eq_true Hpos].
  unfold post_Ref in Hpost.
  destruct (parent stk) as [p|] eqn:Hparent; [|done].
  rewrite bind_deref in Hpost.
  assert (Hnot : kind p ≠ KOftype) by (by destruct p).
  rewrite bool_decide_eq_false_2 in Hpost by done.
  rewrite (bind_Some _ _ _ _ _ (g_ptr_Some _ _ _ _ Hsc)) in Hpost.
  destruct (symtab r !! (k.1, ref)) as [l|] eqn:Hl; last first.
  { destruct p; try done. apply negb_true_iff in Hpos.
    by rewrite Hpos in Hpost. }
  assert (Ha : l_assigned l = false).
  { apply not_true_is_false. intros Ha. apply Hun. exists l.
    destruct k as [ksc kname]. cbn in *. by subst. }
  assert (Hplain : ∀ r0 r1, check_assigned l ref r0 = Some (tt, r1) →
            ∃ new, out (pass r1) = out (pass r0) ++ new ∧
                   Visitor (UsedBeforeAssignment ref) ∈ new).
  { intros r0 r1 Hcheck. rewrite check_assigned_eq, Ha in Hcheck.
    injection Hcheck as <-. eexists [_]. split; [done|set_solver]. }
  destruct p; try done; rewrite bind_deref in Hpost || idtac;
    try (by apply Hplain).
  - (* under an Assign, on the right *)
    apply negb_true_iff in Hpos. rewrite Hpos, bind_deref in Hpost.
    apply bind_inv in Hpost as (al & r2 & Hg & Hrest).
    apply g_inv in Hg as [-> _].
    apply (ends_in_report _ _ _ _ _ (stable_subtype _ _) Hrest Ha).
  - (* under a Lambda *)
    apply bind_inv in Hpost as (res & r2 & Hsub & Hrest).
    apply (stable_subtype (R:=extends)) in Hsub as (mid & Hmid & _).
    assert (Hquiet : preserves (extends (S:=S))
              (if negb res
               then error (ReturnNotSubtype ref (ty_location result))
               else ret tt)).
    { destruct res; [apply preserves_ret; apply _|apply stable_error]. }
    destruct (ends_in_report _ _ _ _ _ Hquiet Hrest Ha) as (new & Hnew & Hin).
    exists (mid ++ new). split.
    + by rewrite Hnew, Hmid, <- app_assoc.
    + set_solver.
Qed.

Lemma visit_reports_unassigned_reads ast r r' k :
  visit post_type post [] ast r = Some (tt, r') →
  ¬ assigned_in r k →
  count_of (targets k) (nodes [] ast) = 0 →
  ∃ new, out (pass r') = out (pass r) ++ new ∧
         ∀ stk ref, (stk, Ref ref) ∈ nodes [] ast →
                    reads k (stk, Ref ref) = true →
                    Visitor (UsedBeforeAssignment ref) ∈ new.
Proof.
  intros Hvisit Hun Hzero.
  set (J := λ V (s : Infer S),
         ∃ new, out (pass s) = out (pass r) ++ new ∧
                (count_of (targets k) V = 0 →
                 ¬ assigned_in s k ∧
                 ∀ stk ref, (stk, Ref ref) ∈ V →
                            reads k (stk, Ref ref) = true →
                            Visitor (UsedBeforeAssignment ref) ∈ new)).
  assert (HJ : J (nodes [] ast ++ []) r').
  { eapply (visit_accumulates J post_type post); [| | | |exact Hvisit].
    - intros V V' s HV (new & Hout & Hrest). exists new. split; [done|].
      rewrite <- (count_of_perm (targets k) _ _ HV). intros Hc.
      destruct (Hrest Hc) as [Hs_un Hs_in]. split; [done|].
      intros stk ref Hin. apply (Hs_in stk ref). by rewrite HV.
    - intros t V s s' (new & Hout & Hrest) Hs.
      destruct (post_type_preserves extends t s tt s' Hs) as (mid & Hmid & _).
      exists (new ++ mid). split; [by rewrite Hmid, Hout, <- app_assoc|].
      intros Hc. destruct (Hrest Hc) as [Hs_un Hs_in]. split.
      + intros Hin. by apply Hs_un, (post_type_stays_unassigned k t s s').
      + intros stk ref Hin Hread. apply elem_of_app. left.
        by apply (Hs_in stk ref).
    - intros stk e V s s' (new & Hout & Hrest) Hs.
      destruct (post_preserves extends stk e s tt s' Hs) as (mid & Hmid & _).
      exists (new ++ mid). split; [by rewrite Hmid, Hout, <- app_assoc|].
      rewrite count_of_cons.
      destruct (targets k (stk, e)) eqn:Htarget; [done|]. cbn [Nat.add].
      intros Hc. destruct (Hrest Hc) as [Hs_un Hs_in]. split.
      + intros Hin. by apply Hs_un, (post_stays_unassigned k stk e s s').
      + intros stk' ref Hin Hread.
        apply elem_of_cons in Hin as [Heq|Hin].
        * injection Heq as Hstk He. subst stk' e.
          destruct (post_Ref_reports_unassigned k stk ref s s' Hs Hread
                      Hs_un) as (mid' & Hmid' & Hin').
          rewrite Hmid in Hmid'. apply app_inv_head in Hmid' as ->.
          apply elem_of_app. by right.
        * apply elem_of_app. left. by apply (Hs_in stk' ref).
    - exists []. split; [by rewrite app_nil_r|]. intros _. split; [done|].
      intros stk ref Hin. by apply elem_of_nil in Hin. }
  rewrite app_nil_r in HJ. destruct HJ as (new & Hout & Hrest).
  exists new. split; [done|]. intros stk ref. by apply Hrest.
Qed.

(** C4. [run] returns true iff the visitor recorded no error and the
    solver is consistent.  What was on the stream stays there and the
    entries of the run follow it: errors are accumulated, and every read
    of a local that was not assigned before the pass and that no
    assignment of the tree targets has its "Variable used before
    assignment" among them, however many errors were recorded before it.
    Whatever the solver and the lookup engine answer and report, the
    traversal of a tree whose names resolve runs to its end.  Neither
    failure stops or changes the traversal: from a verdict of the
    visitor that is already false every node is handled as from the
    state itself, and what the run does is the same for every verdict of
    the solver. *)
Theorem run_verdict ast locals marks stream :
  (∀ b r, run ast locals marks stream = Some (b, r) →
     ∃ new, out (pass r) = stream ++ new ∧
            (b = true ↔ no_visitor_error new = true ∧
                        subtype_ok (subtype r) = true) ∧
            (∀ k stk ref,
               ¬ (∃ l, locals !! k = Some l ∧ l_assigned l = true) →
               count_of (targets k) (nodes [] ast) = 0 →
               (stk, Ref ref) ∈ nodes [] ast →
               reads k (stk, Ref ref) = true →
               Visitor (UsedBeforeAssignment ref) ∈ new)) ∧
  (checked (resolves locals) [] ast = true →
     ∃ b r, run ast locals marks stream = Some (b, r)) ∧
  (∀ r0,
     visit post_type post [] ast (with_pass spoil r0)
     = (λ '(u, r'), (u, with_pass spoil r'))
         <$> visit post_type post [] ast r0) ∧
  (∀ verdict : S → bool,
     snd <$> @run S (with_verdict verdict _) ast locals marks stream
     = snd <$> run ast locals marks stream).
Proof.
  split_and!.
  - intros b r Hrun.
    destruct (run_extends _ _ _ _ _ _ Hrun) as (new & Hout & Hok).
    exists new. split; [done|].
    unfold run in Hrun.
    destruct (visit post_type post [] ast (new_Infer locals marks stream))
      as [[[] r']|] eqn:Hvisit; [|done].
    injection Hrun as <- <-. split; [rewrite Hok; apply andb_true_iff|].
    intros k stk ref Hun Hzero Hin Hread.
    destruct (visit_reports_unassigned_reads _ _ _ k Hvisit Hun Hzero)
      as (new' & Hout' & Hall).
    cbn in Hout'. rewrite Hout in Hout'. apply app_inv_head in Hout' as ->.
    by apply (Hall stk ref).
  - intros Hok. unfold run.
    destruct (visit_completes locals [] ast (new_Infer locals marks stream) Hok)
      as (r' & -> & _); [|by eauto].
    intros k l Hk. exists l. done.
  - intros r0. by apply visit_with_pass.
  - intros verdict. unfold run. cbn [new_Infer subtype_new with_verdict].
    change (@visit (Infer S) (@post_type S (with_verdict verdict _))
              (@post S (with_verdict verdict _)))
      with (@visit (Infer S) (@post_type S _) (@post S _)).
    by destruct (visit post_type post [] ast (new_Infer locals marks stream))
      as [[[] r]|].
Qed.

End RunVerdict.

(** ** Handlers that submit a constraint or write a type *)

Section Constraints.
Context {S : Type} `{!Collaborators S}.
Implicit Types (r : Infer S) (stk : Stack).

Lemma mapM_types stk sc r (seq : list Expr) (ls : list Local) :
  symbols stk = Some sc →
  Forall2 (λ e le, symtab r !! (sc, location e) = Some le) seq ls →
  mapM (λ e, l <- g stk (location e) ;; ret (l_type l))%pass seq r
  = Some (l_type <$> ls, r).
Proof.
  intros Hsc. induction 1 as [|e le seq ls He _ IH]; cbn [mapM]; [done|].
  erewrite bind_Some; last first.
  { by rewrite (bind_Some _ _ _ _ _ (g_Some _ _ _ _ _ Hsc He)). }
  by rewrite (bind_Some _ _ _ _ _ IH).
Qed.

(** X10. The handler of a tuple writes the type of the local on the
    left of the enclosing assignment: a tuple type at the location of
    the tuple whose components are the types of the locals of the
    elements, in order, an element of tuple type staying one component.
    The kind, the name and the assigned flag of that local, every other
    local, the stream, the verdict and the solver are as before. *)
Theorem tuple_types_the_assigned_local stk r sc aloc al ar l loc seq ls :
  symbols stk = Some sc →
  parent_of KAssign stk = Some (Assign aloc al ar) →
  symtab r !! (sc, location al) = Some l →
  Forall2 (λ e le, symtab r !! (sc, location e) = Some le) seq ls →
  post_Tuple stk loc seq r
  = Some (tt, mkInfer (pass r) (subtype r)
                (<[(sc, location al) :=
                     mkLocal (l_kind l) (l_location l)
                       (Some (TupleType loc (l_type <$> ls)))
                       (l_assigned l)]> (symtab r))
                (annot r) (history r)).
Proof.
  intros Hsc Hasn Hl Hseq. unfold post_Tuple.
  rewrite (bind_Some _ _ _ _ _ (mapM_types _ _ _ _ _ Hsc Hseq)).
  rewrite (bind_Some _ _ _ _ _ (lhs_Some _ _ _ _ _ Hasn)).
  by rewrite (update_local_Some _ _ _ _ _ _ Hsc Hl).
Qed.

(** X11. A [Ref] on the right of an assignment submits [its type <: the
    type of the local on the left]; when the solver rejects it the
    visitor records nothing.  A [Ref] directly under a [Lambda] submits
    [its type <: the result type], and records "The return value is not
    a subtype of the result type." iff the solver rejects it.  In both
    places the use of an unassigned local is recorded after that. *)
Theorem ref_submits_its_use stk r sc ref l p :
  parent stk = Some p →
  symbols stk = Some sc →
  symtab r !! (sc, ref) = Some l →
  let unassigned :=
    if l_assigned l then [] else [Visitor (UsedBeforeAssignment ref)] in
  (∀ loc al ar la,
     p = Assign loc al ar → is_left_child stk = false →
     symtab r !! (sc, location al) = Some la →
     ∃ r' res written,
       post_Ref stk ref r = Some (tt, r') ∧
       subtype_check (l_type l) (l_type la) (subtype r)
       = (res, subtype r', written) ∧
       history r' = history r ++ [CallSubtype (l_type l) (l_type la) res] ∧
       out (pass r') = out (pass r) ++ (FromSolver <$> written) ++ unassigned ∧
       ok (pass r') = ok (pass r) && l_assigned l ∧
       symtab r' = symtab r) ∧
  (∀ loc typeparams params result body,
     p = Lambda loc typeparams params result body →
     ∃ r' res written,
       post_Ref stk ref r = Some (tt, r') ∧
       subtype_check (l_type l) (Some result) (subtype r)
       = (res, subtype r', written) ∧
       history r' = history r ++ [CallSubtype (l_type l) (Some result) res] ∧
       out (pass r')
       = out (pass r) ++ (FromSolver <$> written)
           ++ (if res then []
               else [Visitor (ReturnNotSubtype ref (ty_location result))])
           ++ unassigned ∧
       ok (pass r') = ok (pass r) && res && l_assigned l ∧
       symtab r' = symtab r).
Proof.
  intros Hp Hsc Hl unassigned. subst unassigned. split.
  - intros loc al ar la -> Hleft Hla.
    destruct (subtype_check (l_type l) (l_type la) (subtype r))
      as [[res s] ms] eqn:Hcheck.
    eexists _, res, ms. unfold post_Ref. rewrite Hp, bind_deref.
    cbn [kind]. rewrite bool_decide_eq_false_2 by done.
    rewrite (bind_Some _ _ _ _ _ (g_ptr_Some _ _ _ _ Hsc)), Hl, Hleft.
    rewrite bind_deref.
    rewrite (bind_Some _ _ _ _ _ (g_Some _ _ _ _ _ Hsc Hla)).
    rewrite (bind_Some _ _ _ _ _ (subtype_call_eq _ _ _ _ _ _ Hcheck)).
    rewrite check_assigned_eq. split; [done|].
    destruct (l_assigned l); cbn;
      rewrite ?app_nil_r, ?andb_true_r, ?andb_false_r, <- ?app_assoc; done.
  - intros loc typeparams params result body ->.
    destruct (subtype_check (l_type l) (Some result) (subtype r))
      as [[res s] ms] eqn:Hcheck.
    unfold post_Ref. rewrite Hp, bind_deref.
    cbn [kind]. rewrite bool_decide_eq_false_2 by done.
    rewrite (bind_Some _ _ _ _ _ (g_ptr_Some _ _ _ _ Hsc)), Hl, bind_deref.
    rewrite (bind_Some _ _ _ _ _ (subtype_call_eq _ _ _ _ _ _ Hcheck)).
    destruct res; cbn [negb];
      (erewrite bind_Some; [|reflexivity]);
      rewrite check_assigned_eq.
    + eexists _, true, ms. split; [done|].
      destruct (l_assigned l); cbn;
        rewrite ?app_nil_r, ?andb_true_r, ?andb_false_r, <- ?app_assoc; done.
    + eexists _, false, ms. split; [done|].
      destruct (l_assigned l); cbn;
        rewrite ?app_nil_r, ?andb_true_r, ?andb_false_r, <- ?app_assoc; done.
Qed.

(** X12. The handler of an [Oftype] submits [the type of the local of
    its expression <: the ascribed type], and the handler of a [Throw]
    submits [throwtype of the type of the local <: the result type of the
    enclosing lambda].  Neither looks at the answer: the visitor records
    nothing, and its verdict and the locals are as before. *)
Theorem oftype_and_throw_submit stk r sc expr l :
  symbols stk = Some sc →
  symtab r !! (sc, location expr) = Some l →
  (∀ type, ∃ r' res written,
     post_Oftype stk expr type r = Some (tt, r') ∧
     subtype_check (l_type l) (Some type) (subtype r)
     = (res, subtype r', written) ∧
     history r' = history r ++ [CallSubtype (l_type l) (Some type) res] ∧
     out (pass r') = out (pass r) ++ (FromSolver <$> written) ∧
     ok (pass r') = ok (pass r) ∧
     symtab r' = symtab r) ∧
  (∀ loc typeparams params result body,
     parent_of KLambda stk = Some (Lambda loc typeparams params result body) →
     ∃ r' res written,
       post_Throw stk expr r = Some (tt, r') ∧
       subtype_check (throwtype (l_type l)) (Some result) (subtype r)
       = (res, subtype r', written) ∧
       history r'
       = history r ++ [CallSubtype (throwtype (l_type l)) (Some result) res] ∧
       out (pass r') = out (pass r) ++ (FromSolver <$> written) ∧
       ok (pass r') = ok (pass r) ∧
       symtab r' = symtab r).
Proof.
  intros Hsc Hl. split.
  - intros type.
    destruct (subtype_check (l_type l) (Some type) (subtype r))
      as [[res s] ms] eqn:Hcheck.
    eexists _, res, ms. unfold post_Oftype.
    rewrite (bind_Some _ _ _ _ _ (g_Some _ _ _ _ _ Hsc Hl)).
    by rewrite (bind_Some _ _ _ _ _ (subtype_call_eq _ _ _ _ _ _ Hcheck)).
  - intros loc typeparams params result body Hlam.
    destruct (subtype_check (throwtype (l_type l)) (Some result) (subtype r))
      as [[res s] ms] eqn:Hcheck.
    eexists _, res, ms. unfold post_Throw, lambda_result.
    rewrite (bind_Some _ _ _ _ _ (g_Some _ _ _ _ _ Hsc Hl)).
    rewrite Hlam, bind_assoc, bind_deref, bind_ret.
    by rewrite (bind_Some _ _ _ _ _ (subtype_call_eq _ _ _ _ _ _ Hcheck)).
Qed.

(** X13. What the handler of a [Lambda] does depends on its parent.
    Under an [Assign] it submits [function_type(lambda) <: the type of
    the local on the left] and records nothing.  Under a [Field] it
    submits [result <: the field type] and records "The field
    initialiser is not a subtype of the field type." iff the solver
    rejects it.  Under a [Param] it submits nothing.  Under a [Param] or
    a [Field] a lambda with type parameters or parameters fails the
    assertion: in a build with assertions the handler aborts.  Under any
    other node the handler does nothing. *)
Theorem lambda_checks_by_position stk r loc typeparams params result body p :
  parent stk = Some p →
  let lambda := Lambda loc typeparams params result body in
  (∀ sc aloc al ar l,
     kind p = KAssign → symbols stk = Some sc →
     parent_of KAssign stk = Some (Assign aloc al ar) →
     symtab r !! (sc, location al) = Some l →
     ∃ r' res written,
       post_Lambda stk lambda r = Some (tt, r') ∧
       subtype_check (function_type lambda) (l_type l) (subtype r)
       = (res, subtype r', written) ∧
       history r'
       = history r ++ [CallSubtype (function_type lambda) (l_type l) res] ∧
       out (pass r') = out (pass r) ++ (FromSolver <$> written) ∧
       ok (pass r') = ok (pass r)) ∧
  (∀ floc ftype init,
     kind p = KField → typeparams = [] → params = [] →
     parent_of KField stk = Some (Field floc ftype init) →
     ∃ r' res written,
       post_Lambda stk lambda r = Some (tt, r') ∧
       subtype_check (Some result) (Some ftype) (subtype r)
       = (res, subtype r', written) ∧
       history r' = history r ++ [CallSubtype (Some result) (Some ftype) res] ∧
       out (pass r')
       = out (pass r) ++ (FromSolver <$> written)
           ++ (if res then []
               else [Visitor (FieldInitNotSubtype loc (ty_location ftype))]) ∧
       ok (pass r') = ok (pass r) && res) ∧
  (kind p = KParam → typeparams = [] → params = [] →
   post_Lambda stk lambda r = Some (tt, r)) ∧
  (kind p = KParam ∨ kind p = KField →
   typeparams ≠ [] ∨ params ≠ [] →
   post_Lambda stk lambda r = None) ∧
  (kind p ≠ KAssign → kind p ≠ KParam → kind p ≠ KField →
   post_Lambda stk lambda r = Some (tt, r)).
Proof.
  intros Hp lambda. subst lambda. unfold post_Lambda.
  rewrite Hp, bind_deref. split_and!.
  - intros sc aloc al ar l -> Hsc Hasn Hl.
    destruct (subtype_check
                (function_type (Lambda loc typeparams params result body))
                (l_type l) (subtype r)) as [[res s] ms] eqn:Hcheck.
    eexists _, res, ms.
    rewrite (bind_Some _ _ _ _ _ (lhs_Some _ _ _ _ _ Hasn)).
    rewrite (bind_Some _ _ _ _ _ (g_Some _ _ _ _ _ Hsc Hl)).
    by rewrite (bind_Some _ _ _ _ _ (subtype_call_eq _ _ _ _ _ _ Hcheck)).
  - intros floc ftype init -> -> -> Hfield.
    destruct (subtype_check (Some result) (Some ftype) (subtype r))
      as [[res s] ms] eqn:Hcheck.
    cbn [length bool_decide].
    rewrite bool_decide_eq_true_2 by done.
    unfold assert at 1 2. rewrite !bind_ret, Hfield, bind_deref.
    rewrite (bind_Some _ _ _ _ _ (subtype_call_eq _ _ _ _ _ _ Hcheck)).
    destruct res; [eexists _, true, ms|eexists _, false, ms];
      (split; [reflexivity|]); cbn;
      rewrite ?app_nil_r, ?andb_true_r, ?andb_false_r, <- ?app_assoc; done.
  - intros -> -> ->. done.
  - intros Hkind Hsome.
    assert (Hfail : bool_decide (length typeparams = 0) = false ∨
                    bool_decide (length params = 0) = false).
    { destruct Hsome as [Hne|Hne]; [left|right];
        apply bool_decide_eq_false_2; by destruct typeparams, params. }
    destruct Hkind as [-> | ->], Hfail as [Hfail|Hfail];
      destruct (bool_decide (length typeparams = 0)) eqn:Htp;
      destruct (bool_decide (length params = 0)) eqn:Hps; done.
  - intros Hassign Hparam Hfield. by destruct (kind p).
Qed.

End Constraints.

(** * Whole runs and further handlers on concrete trees *)

(** C4 on [y = x; v = x]: the names resolve, the run completes, it
    returns false, and the second read of [x] is reported although the
    first one already was. *)
Lemma run_verdict_witness :
  checked (resolves Sample.locals) [] Sample.read_twice = true ∧
  ∃ b r,
    run Sample.read_twice Sample.locals ∅ [] = Some (b, r) ∧
    ∃ new, out (pass r) = [] ++ new ∧
           (b = true ↔ no_visitor_error new = true ∧
                       subtype_ok (subtype r) = true) ∧
           Visitor (UsedBeforeAssignment "x") ∈ new.
Proof.
  split; [vm_compute; reflexivity|].
  destruct (proj1 (proj2 (run_verdict Sample.read_twice Sample.locals ∅ [])))
    as (b & r & Hrun); [vm_compute; reflexivity|].
  exists b, r. split; [exact Hrun|].
  destruct (proj1 (run_verdict Sample.read_twice Sample.locals ∅ []) b r Hrun)
    as (new & Hout & Hiff & Hall).
  exists new. split; [exact Hout|]. split; [exact Hiff|].
  apply (Hall ("main", "x")
           [mkFrame (Assign "a2" (Ref "v") (Ref "x")) 1;
            mkFrame (Sample.in_main
                       [Assign "a1" (Let "y") (Ref "x");
                        Assign "a2" (Ref "v") (Ref "x")]) 3;
            mkFrame Sample.read_twice 0] "x").
  - intros (l & Hl & Ha). vm_compute in Hl. injection Hl as <-.
    discriminate Ha.
  - vm_compute. reflexivity.
  - simpl. repeat constructor.
  - vm_compute. reflexivity.
Defined.

(** On that tree both reads are on the stream, in the order of the
    statements. *)
Example run_read_twice :
  (λ '(b, r), (b, out (pass r)))
    <$> run Sample.read_twice Sample.locals ∅ []
  = Some (false, [Visitor (UsedBeforeAssignment "x");
                  Visitor (UsedBeforeAssignment "x")]).
Proof. vm_compute. reflexivity. Qed.

(** X1 on [x = d.m; y = f(d, p)]. *)
Lemma run_keeps_locals_witness :
  ∃ b r,
    run Sample.two_calls Sample.locals ∅ [] = Some (b, r) ∧
    (∀ k, Sample.locals !! k = None → symtab r !! k = None) ∧
    (∀ k l, Sample.locals !! k = Some l →
       ∃ l', symtab r !! k = Some l' ∧
             l_kind l' = l_kind l ∧
             l_location l' = l_location l ∧
             (l_assigned l = true → l_assigned l' = true) ∧
             (is_Some (l_type l) → is_Some (l_type l'))).
Proof.
  destruct (run Sample.two_calls Sample.locals ∅ []) as [[b r]|] eqn:Hrun;
    [|vm_compute in Hrun; discriminate Hrun].
  exists b, r. split; [reflexivity|].
  exact (run_keeps_locals _ _ _ _ _ _ Hrun).
Defined.

(** X5 on the same tree: [x], unassigned before the pass, is assigned
    after it. *)
Lemma run_assigns_every_left_witness :
  ∃ b r,
    run Sample.two_calls Sample.locals ∅ [] = Some (b, r) ∧
    ∃ sc, Some "main" = Some sc ∧ assigned_in r (sc, "x").
Proof.
  destruct (run Sample.two_calls Sample.locals ∅ []) as [[b r]|] eqn:Hrun;
    [|vm_compute in Hrun; discriminate Hrun].
  exists b, r. split; [reflexivity|].
  refine (run_assigns_every_left _ _ _ _ _ _ Hrun
            [mkFrame (Sample.in_main
                        [Assign "a1" (Let "x") Sample.call_m;
                         Assign "a2" (Let "y") Sample.call_f]) 3;
             mkFrame Sample.two_calls 0]
            "a1" (Let "x") Sample.call_m _).
  simpl. repeat constructor.
Defined.


(** X8 on [x = d.m; y = f(d, p)]: the run accepts, and [d], which is
    read, was assigned before the pass. *)
Lemma run_accepts_only_assigned_reads_witness :
  ∃ r,
    run Sample.two_calls Sample.locals ∅ [] = Some (true, r) ∧
    ((∃ l, Sample.locals !! ("main", "d") = Some l ∧ l_assigned l = true) ∨
     1 ≤ count_of (targets ("main", "d")) (nodes [] Sample.two_calls)).
Proof.
  destruct (run Sample.two_calls Sample.locals ∅ []) as [[b r]|] eqn:Hrun;
    [|vm_compute in Hrun; discriminate Hrun].
  assert (Hb : b = true).
  { pose proof Hrun as Hrun'. vm_compute in Hrun'.
    injection Hrun' as Hb _. symmetry. exact Hb. }
  subst b. exists r. split; [reflexivity|].
  refine (run_accepts_only_assigned_reads _ _ _ _ _ ("main", "d") Hrun _).
  vm_compute. lia.
Defined.

(** X9 on the same tree: nothing assigns [d] and no tuple is assigned
    to it. *)
Lemma run_writes_locals_at_their_nodes_witness :
  ∃ b r,
    run Sample.two_calls Sample.locals ∅ [] = Some (b, r) ∧
    l_assigned <$> symtab r !! ("main", "d")
    = l_assigned <$> Sample.locals !! ("main", "d") ∧
    l_type <$> symtab r !! ("main", "d")
    = l_type <$> Sample.locals !! ("main", "d").
Proof.
  destruct (run Sample.two_calls Sample.locals ∅ []) as [[b r]|] eqn:Hrun;
    [|vm_compute in Hrun; discriminate Hrun].
  exists b, r. split; [reflexivity|].
  destruct (run_writes_locals_at_their_nodes _ _ _ _ _ _ ("main", "d") Hrun)
    as [Hflag Htype].
  split; [apply Hflag|apply Htype]; vm_compute; reflexivity.
Defined.

(** X10 at [x = (d, p)]: [p] has a pair type and stays one component. *)
Lemma tuple_types_the_assigned_local_witness :
  post_Tuple (Sample.at_rhs (Let "x") (Tuple "t" [Ref "d"; Ref "p"])) "t"
    [Ref "d"; Ref "p"] Sample.start
  = Some (tt, mkInfer (pass Sample.start) (subtype Sample.start)
                (<[("main", "x") :=
                     mkLocal KLet "x"
                       (Some (TupleType "t"
                                [Some (InferType "d");
                                 Some (TupleType "p"
                                         [Some (InferType "p0");
                                          Some (InferType "p1")])]))
                       false]> (symtab Sample.start))
                (annot Sample.start) (history Sample.start)).
Proof.
  refine (tuple_types_the_assigned_local
            (Sample.at_rhs (Let "x") (Tuple "t" [Ref "d"; Ref "p"]))
            Sample.start "main" "asn" (Let "x")
            (Tuple "t" [Ref "d"; Ref "p"])
            (mkLocal KLet "x" (Some (InferType "x")) false) "t"
            [Ref "d"; Ref "p"]
            [mkLocal KLet "d" (Some (InferType "d")) true;
             mkLocal KLet "p"
               (Some (TupleType "p" [Some (InferType "p0");
                                     Some (InferType "p1")])) true]
            eq_refl eq_refl eq_refl _).
  repeat constructor.
Defined.

(** X11 at [y = v]: the constraint [v's type <: y's type] is submitted
    and nothing is recorded. *)
Lemma ref_submits_its_use_witness :
  ∃ r' res written,
    post_Ref (Sample.at_rhs (Let "y") (Ref "v")) "v" Sample.start
    = Some (tt, r') ∧
    subtype_check (Some (InferType "v")) (Some (InferType "y"))
      (subtype Sample.start) = (res, subtype r', written) ∧
    history r'
    = history Sample.start
        ++ [CallSubtype (Some (InferType "v")) (Some (InferType "y")) res] ∧
    out (pass r') = out (pass Sample.start) ++ (FromSolver <$> written) ++ [] ∧
    ok (pass r') = ok (pass Sample.start) && true ∧
    symtab r' = symtab Sample.start.
Proof.
  exact (proj1 (ref_submits_its_use
                  (Sample.at_rhs (Let "y") (Ref "v")) Sample.start "main" "v"
                  (mkLocal KVar "v" (Some (InferType "v")) true)
                  (Assign "asn" (Let "y") (Ref "v"))
                  eq_refl eq_refl eq_refl)
           "asn" (Let "y") (Ref "v")
           (mkLocal KLet "y" (Some (InferType "y")) false)
           eq_refl eq_refl eq_refl).
Defined.

(** X12 at [d : imm], a statement of "main". *)
Lemma oftype_and_throw_submit_witness :
  ∃ r' res written,
    post_Oftype (Sample.at_body (Oftype "o" (Ref "d") (Imm "imm"))) (Ref "d")
      (Imm "imm") Sample.start = Some (tt, r') ∧
    subtype_check (Some (InferType "d")) (Some (Imm "imm"))
      (subtype Sample.start) = (res, subtype r', written) ∧
    history r'
    = history Sample.start
        ++ [CallSubtype (Some (InferType "d")) (Some (Imm "imm")) res] ∧
    out (pass r') = out (pass Sample.start) ++ (FromSolver <$> written) ∧
    ok (pass r') = ok (pass Sample.start) ∧
    symtab r' = symtab Sample.start.
Proof.
  exact (proj1 (oftype_and_throw_submit
                  (Sample.at_body (Oftype "o" (Ref "d") (Imm "imm")))
                  Sample.start "main" (Ref "d")
                  (mkLocal KLet "d" (Some (InferType "d")) true)
                  eq_refl eq_refl)
           (Imm "imm")).
Defined.

(** X13 at [x = { ... }], where the constraint is submitted and
    nothing recorded; at a field of type [imm] whose initialiser has
    result type [C], where the solver rejects and the error is recorded;
    at the default of a parameter, where nothing is done; and at a
    default that takes a parameter, where the assertion fails. *)
Lemma lambda_checks_by_position_witness :
  (∃ r' res written,
     post_Lambda (Sample.at_rhs (Let "x") (Sample.in_main []))
       (Sample.in_main []) Sample.start = Some (tt, r') ∧
     subtype_check (Some (FunctionType "main" None (Some (InferType "result"))))
       (Some (InferType "x")) (subtype Sample.start)
     = (res, subtype r', written) ∧
     history r'
     = [CallSubtype
          (Some (FunctionType "main" None (Some (InferType "result"))))
          (Some (InferType "x")) res] ∧
     out (pass r') = FromSolver <$> written ∧
     ok (pass r') = true) ∧
  (∃ r' written,
     post_Lambda (Sample.at_field (Imm "imm") Sample.initialiser)
       Sample.initialiser Sample.start = Some (tt, r') ∧
     subtype_check (Some (TypeRef "C" [("C", [])])) (Some (Imm "imm"))
       (subtype Sample.start) = (false, subtype r', written) ∧
     out (pass r')
     = (FromSolver <$> written) ++ [Visitor (FieldInitNotSubtype "init" "imm")] ∧
     ok (pass r') = false) ∧
  post_Lambda (Sample.at_default (Sample.in_main [])) (Sample.in_main [])
    Sample.start = Some (tt, Sample.start) ∧
  post_Lambda (Sample.at_default Sample.with_parameter) Sample.with_parameter
    Sample.start = None.
Proof.
  split_and!.
  - destruct (proj1 (lambda_checks_by_position
                       (Sample.at_rhs (Let "x") (Sample.in_main []))
                       Sample.start "main" [] [] (InferType "result") []
                       (Assign "asn" (Let "x") (Sample.in_main [])) eq_refl)
                "main" "asn" (Let "x") (Sample.in_main [])
                (mkLocal KLet "x" (Some (InferType "x")) false)
                eq_refl eq_refl eq_refl eq_refl)
      as (r' & res & written & Hpost & Hcheck & Hh & Hout & Hok).
    exists r', res, written. split; [exact Hpost|]. split; [exact Hcheck|].
    split; [exact Hh|]. split; [exact Hout|exact Hok].
  - destruct (proj1 (proj2 (lambda_checks_by_position
                       (Sample.at_field (Imm "imm") Sample.initialiser)
                       Sample.start "init" [] [] (TypeRef "C" [("C", [])]) []
                       (Field "f" (Imm "imm") (Some Sample.initialiser))
                       eq_refl))
                "f" (Imm "imm") (Some Sample.initialiser)
                eq_refl eq_refl eq_refl eq_refl)
      as (r' & res & written & Hpost & Hcheck & Hh & Hout & Hok).
    assert (Hres : res = false).
    { vm_compute in Hcheck. injection Hcheck as Hres _ _. symmetry.
      exact Hres. }
    subst res. exists r', written. split; [exact Hpost|].
    split; [exact Hcheck|]. split; [exact Hout|].
    rewrite Hok. apply andb_false_r.
  - refine (proj1 (proj2 (proj2 (lambda_checks_by_position
              (Sample.at_default (Sample.in_main [])) Sample.start
              "main" [] [] (InferType "result") []
              (Param "p" None (Some (Sample.in_main []))) eq_refl)))
              eq_refl eq_refl eq_refl).
  - refine (proj1 (proj2 (proj2 (proj2 (lambda_checks_by_position
              (Sample.at_default Sample.with_parameter) Sample.start
              "g" [] [Param "q" None None] (InferType "result") []
              (Param "p" None (Some Sample.with_parameter)) eq_refl))))
              (or_introl eq_refl) (or_intror _)).
    discriminate.
Defined.

(** X14 on [x = d.m; y = f(d, p)]: the first run accepts and assigns
    [x], so the second run rejects. *)
Lemma second_run_rejects_witness :
  ∃ b r b' r',
    run Sample.two_calls Sample.locals ∅ [] = Some (b, r) ∧
    run Sample.two_calls (symtab r) ∅ [] = Some (b', r') ∧
    b' = false.
Proof.
  destruct (run Sample.two_calls Sample.locals ∅ []) as [[b r]|] eqn:Hrun;
    [|vm_compute in Hrun; discriminate Hrun].
  destruct (run Sample.two_calls (symtab r) ∅ []) as [[b' r']|] eqn:Hagain.
  - exists b, r, b', r'. split; [reflexivity|]. split; [exact Hagain|].
    refine (second_run_rejects _ _ _ _ _ _ _ _ _ _ ("main", "x")
              (mkLocal KLet "x" (Some (InferType "x")) false)
              Hrun eq_refl _ _ Hagain).
    + discriminate.
    + vm_compute. lia.
  - pose proof Hrun as Hrun'. vm_compute in Hrun'.
    injection Hrun' as _ Hr. subst r.
    vm_compute in Hagain. discriminate Hagain.
Defined.
